(** * CPI_Analyser: the diff-flattening and table-building core

    A shallow embedding of

    - [backend/src/utils/diffFlatten.js]   ([clone], [pushChange],
      [walkDelta], [flattenJsonDiff]),
    - [backend/src/utils/pdfGenerator.js]  ([safeCell], [dequote],
      [safeCellTruncated], [flattenDelta], and of [drawTable] the texts
      it draws and the footnotes it collects),
    - [backend/src/index.js]               (the table builders of
      [/api/tables/fromReport] and [/api/template/upload], the rows of
      [/api/genai/fromReport]),
    - [backend/src/utils/gitAnalyzer.js]   ([parseIndustryTemplate], the
      change types and the summary of [analyzeRepoJsonChanges]),

    over a small model of the JavaScript values these functions touch:
    strings are sequences of UTF-16 code units, numbers are IEEE-754
    doubles, objects and arrays live in a store and are handled through
    references, so that copying and aliasing are visible.

    Line numbers are those of [src/backend/src/utils/diffFlatten.js]
    (where the text of pdfGenerator.js follows that of diffFlatten.js),
    of [src/backend/src/index.js] and, for gitAnalyzer.js, of
    [src/unnamed/part_000]. *)

From Stdlib Require Import PrimFloat PrimInt63 NArith.
From stdpp Require Import base option list sets strings.

#[local] Set Warnings "-register-all,-clear-no-such-hyp".

(* ================================================================= *)
(** * Part I: definitions *)
(* ================================================================= *)

(* ----------------------------------------------------------------- *)
(** ** JavaScript strings *)

(** A JavaScript string is a sequence of UTF-16 code units; [length],
    [slice], [startsWith] and the regular expression [/^_/] all work on
    code units. *)
Abbreviation jsstring := (list N) (only parsing).

(** ASCII literals of the source. *)
Definition js (s : string) : jsstring :=
  (λ a, N.of_nat (Ascii.nat_of_ascii a)) <$> String.list_ascii_of_string s.

(** [Array.prototype.join(sep)] on an array of strings. *)
Fixpoint join (sep : jsstring) (parts : list jsstring) : jsstring :=
  match parts with
  | [] => []
  | [p] => p
  | p :: rest => p ++ sep ++ join sep rest
  end.

(** [key.replace(/^_/, '')]: drops one leading underscore (code unit 95),
    if there is one. *)
Definition strip_underscore (key : jsstring) : jsstring :=
  match key with
  | 95%N :: rest => rest
  | _ => key
  end.

(* ----------------------------------------------------------------- *)
(** ** Values and the store *)

Abbreviation loc := nat (only parsing).

(** A value is a primitive or a reference to an object of the store. *)
Inductive val : Type :=
  | VUndef
  | VNull
  | VBool (b : bool)
  | VNum (f : float)
  | VStr (s : jsstring)
  | VRef (l : loc).

(** A stored object is an array (dense) or a plain object; the members
    of a plain object are listed in [Object.keys] order and carry
    distinct keys. *)
Inductive obj : Type :=
  | OArr (elems : list val)
  | OObj (props : list (jsstring * val)).

(** The store: object [l] is the [l]-th cell; allocation appends. *)
Abbreviation heap := (list obj) (only parsing).

(** The trees of JSON texts: what [JSON.parse] builds and what
    [JSON.stringify] writes. The members of an object are listed as
    [Object.keys] lists them once parsed (integer-like keys first). *)
Inductive json : Type :=
  | JNull
  | JBool (b : bool)
  | JNum (f : float)
  | JStr (s : jsstring)
  | JArr (items : list json)
  | JObj (members : list (jsstring * json)).

(** Outcome of a builtin that may throw; [RFuel] is the recursion bound
    of the model running out (shown unreachable for [JSON_stringify]). *)
Inductive res (A : Type) : Type :=
  | RFuel
  | RThrow
  | RRet (a : A).
Arguments RFuel {A}.
Arguments RThrow {A}.
Arguments RRet {A} a.

Definition res_bind {A B} (r : res A) (k : A → res B) : res B :=
  match r with
  | RFuel => RFuel
  | RThrow => RThrow
  | RRet a => k a
  end.

(** ToBoolean. *)
Definition truthy (v : val) : bool :=
  match v with
  | VUndef | VNull => false
  | VBool b => b
  | VNum f => negb (PrimFloat.eqb f 0%float || is_nan f)
  | VStr s => match s with [] => false | _ => true end
  | VRef _ => true
  end.

(** [Array.isArray(x)], giving the elements. *)
Definition as_array (h : heap) (x : val) : option (list val) :=
  match x with
  | VRef l => match h !! l with Some (OArr es) => Some es | _ => None end
  | _ => None
  end.

(** [x && typeof x === 'object' && !Array.isArray(x)], giving the
    members: [isObject] of diffFlatten.js and [isObj] of pdfGenerator.js. *)
Definition as_object (h : heap) (x : val) : option (list (jsstring * val)) :=
  match x with
  | VRef l => match h !! l with Some (OObj ps) => Some ps | _ => None end
  | _ => None
  end.

Definition isObject (h : heap) (x : val) : bool :=
  match as_object h x with Some _ => true | None => false end.

(** Property read [o[k]] on the members of a plain object ([undefined]
    when absent). *)
Fixpoint get (ps : list (jsstring * val)) (k : jsstring) : val :=
  match ps with
  | [] => VUndef
  | (k', v) :: rest => if decide (k' = k) then v else get rest k
  end.

(** Element read [a[i]] ([undefined] out of range). *)
Definition elem (es : list val) (i : nat) : val := default VUndef (es !! i).

(** [v === 0]: a number that compares equal to zero (both zeros do). *)
Definition is_zero (v : val) : bool :=
  match v with
  | VNum f => PrimFloat.eqb f 0%float
  | _ => false
  end.

(** [v === 'a']. *)
Definition is_str_a (v : val) : bool :=
  match v with
  | VStr s => bool_decide (s = js "a")
  | _ => false
  end.

(* ----------------------------------------------------------------- *)
(** ** JSON.stringify and JSON.parse *)

(** What a number becomes through [JSON.stringify] and back: a
    non-finite number is written [null], both zeros are written [0]. *)
Definition number_json (f : float) : json :=
  if is_nan f || is_infinity f then JNull
  else if PrimFloat.eqb f 0%float then JNum 0%float
  else JNum f.

Fixpoint ser_elems (rec : val → res (option json)) (es : list val)
  : res (list json) :=
  match es with
  | [] => RRet []
  | e :: rest =>
      res_bind (rec e) (λ x,
      res_bind (ser_elems rec rest) (λ xs,
      RRet (default JNull x :: xs)))
  end.

Fixpoint ser_props (rec : val → res (option json))
    (ps : list (jsstring * val)) : res (list (jsstring * json)) :=
  match ps with
  | [] => RRet []
  | (k, e) :: rest =>
      res_bind (rec e) (λ x,
      res_bind (ser_props rec rest) (λ xs,
      RRet (match x with Some j => (k, j) :: xs | None => xs end)))
  end.

(** SerializeJSONProperty, read back as a tree. [stack] holds the
    objects being serialized; meeting one of them again is the cyclic
    structure [TypeError]. [None] stands for [undefined]. *)
Fixpoint serialize (fuel : nat) (h : heap) (stack : list loc) (v : val)
  : res (option json) :=
  match v with
  | VUndef => RRet None
  | VNull => RRet (Some JNull)
  | VBool b => RRet (Some (JBool b))
  | VNum f => RRet (Some (number_json f))
  | VStr s => RRet (Some (JStr s))
  | VRef l =>
      match fuel with
      | 0 => RFuel
      | S fuel' =>
          if decide (l ∈ stack) then RThrow
          else match h !! l with
               | None => RThrow
               | Some (OArr es) =>
                   res_bind (ser_elems (serialize fuel' h (l :: stack)) es)
                     (λ js, RRet (Some (JArr js)))
               | Some (OObj ps) =>
                   res_bind (ser_props (serialize fuel' h (l :: stack)) ps)
                     (λ ms, RRet (Some (JObj ms)))
               end
      end
  end.

(** [JSON.stringify(v)] up to the text: the nesting of distinct objects
    is bounded by the number of objects in the store. *)
Definition JSON_stringify (h : heap) (v : val) : res (option json) :=
  serialize (S (length h)) h [] v.

(** [JSON.parse] materialising a tree: every array and object of the
    tree is a new cell. *)
Fixpoint alloc (j : json) (h : heap) : heap * val :=
  match j with
  | JNull => (h, VNull)
  | JBool b => (h, VBool b)
  | JNum f => (h, VNum f)
  | JStr s => (h, VStr s)
  | JArr js =>
      let '(h', vs) :=
        (fix go (js : list json) (h : heap) : heap * list val :=
           match js with
           | [] => (h, [])
           | j :: rest =>
               let '(h1, v) := alloc j h in
               let '(h2, vs) := go rest h1 in
               (h2, v :: vs)
           end) js h in
      (h' ++ [OArr vs], VRef (length h'))
  | JObj ms =>
      let '(h', ps) :=
        (fix go (ms : list (jsstring * json)) (h : heap)
           : heap * list (jsstring * val) :=
           match ms with
           | [] => (h, [])
           | (k, j) :: rest =>
               let '(h1, v) := alloc j h in
               let '(h2, ps) := go rest h1 in
               (h2, (k, v) :: ps)
           end) ms h in
      (h' ++ [OObj ps], VRef (length h'))
  end.

Fixpoint alloc_elems (js : list json) (h : heap) : heap * list val :=
  match js with
  | [] => (h, [])
  | j :: rest =>
      let '(h1, v) := alloc j h in
      let '(h2, vs) := alloc_elems rest h1 in
      (h2, v :: vs)
  end.

Fixpoint alloc_members (ms : list (jsstring * json)) (h : heap)
  : heap * list (jsstring * val) :=
  match ms with
  | [] => (h, [])
  | (k, j) :: rest =>
      let '(h1, v) := alloc j h in
      let '(h2, ps) := alloc_members rest h1 in
      (h2, (k, v) :: ps)
  end.

(* ----------------------------------------------------------------- *)
(** ** diffFlatten.js *)

(** [function clone(v) { try { return JSON.parse(JSON.stringify(v)); }
    catch { return v; } }].  [JSON.stringify(undefined)] is [undefined],
    which [JSON.parse] rejects: that too lands in the [catch]. *)
Definition clone (h : heap) (v : val) : heap * val :=
  match JSON_stringify h v with
  | RRet (Some j) => alloc j h
  | _ => (h, v)
  end.

(** A row [{ path, before, after }]. *)
Record change : Type := Change {
  path : jsstring;
  before : val;
  after : val;
}.

(** The store and the [rows] array that the walk threads along. *)
Abbreviation state := (list obj * list change)%type (only parsing).

(** [rows.push({ path: pathArr.join('.'), before: clone(before),
    after: clone(after) })]. *)
Definition pushChange (h : heap) (rows : list change)
    (pathArr : list jsstring) (b a : val) : state :=
  let '(h1, b') := clone h b in
  let '(h2, a') := clone h1 a in
  (h2, rows ++ [Change (join (js ".") pathArr) b' a']).

(** A loop over a snapshot of entries whose body may fail. *)
Fixpoint foldM {A B} (f : A → B → option A) (xs : list B) (a : A)
  : option A :=
  match xs with
  | [] => Some a
  | x :: rest =>
      match f a x with
      | Some a' => foldM f rest a'
      | None => None
      end
  end.

(** Body of the [forEach] of the array-delta branch (lines 21-41). *)
Definition arrayEntry
    (rec : heap → val → list jsstring → list change → option state)
    (pathArr : list jsstring) (st : state) (kv : jsstring * val)
  : option state :=
  let '(h, rows) := st in
  let '(key, entry) := kv in
  if decide (key = js "_t") then Some st
  else
    let idx := strip_underscore key in
    match as_array h entry with
    | Some es =>
        if length es =? 1 then
          Some (pushChange h rows (pathArr ++ [idx]) VUndef (elem es 0))
        else if length es =? 2 then
          Some (pushChange h rows (pathArr ++ [idx]) (elem es 0) (elem es 1))
        else if 3 <=? length es then
          if is_zero (elem es 1) && is_zero (elem es 2) then
            Some (pushChange h rows (pathArr ++ [idx]) (elem es 0) VUndef)
          else Some st
        else Some st
    | None =>
        if isObject h entry then rec h entry (pathArr ++ [idx]) rows
        else Some st
    end.

(** Body of the [for ... of] of the object-delta branch (lines 45-68). *)
Definition objectEntry
    (rec : heap → val → list jsstring → list change → option state)
    (pathArr : list jsstring) (st : state) (kv : jsstring * val)
  : option state :=
  let '(h, rows) := st in
  let '(key, v) := kv in
  if decide (key = js "_t") then Some st
  else
    match as_array h v with
    | Some es =>
        if length es =? 2 then
          Some (pushChange h rows (pathArr ++ [key]) (elem es 0) (elem es 1))
        else if length es =? 1 then
          Some (pushChange h rows (pathArr ++ [key]) VUndef (elem es 0))
        else if 3 <=? length es then
          if is_zero (elem es 1) && is_zero (elem es 2) then
            Some (pushChange h rows (pathArr ++ [key]) (elem es 0) VUndef)
          else
            Some (pushChange h rows (pathArr ++ [key]) (elem es 0) (elem es 1))
        else Some st
    | None =>
        if isObject h v then rec h v (pathArr ++ [key]) rows
        else Some st
    end.

(** [walkDelta(delta, pathArr, rows)].  [fuel] bounds the depth of the
    call stack; [None] is the engine giving up on a walk that never
    ends (a delta nested in itself). *)
Fixpoint walkDelta (fuel : nat) (h : heap) (delta : val)
    (pathArr : list jsstring) (rows : list change) : option state :=
  match fuel with
  | 0 => None
  | S fuel' =>
      match as_object h delta with
      | None => Some (h, rows)
      | Some ps =>
          if is_str_a (get ps (js "_t")) then
            foldM (arrayEntry (walkDelta fuel') pathArr) ps (h, rows)
          else
            foldM (objectEntry (walkDelta fuel') pathArr) ps (h, rows)
      end
  end.

(** [delta || {}]: a falsy operand is replaced by a new empty object. *)
Definition or_empty (h : heap) (delta : val) : heap * val :=
  if truthy delta then (h, delta) else (h ++ [OObj []], VRef (length h)).

(** [flattenJsonDiff(delta)]. *)
Definition flattenJsonDiff (fuel : nat) (h : heap) (delta : val)
  : option state :=
  let '(h0, d) := or_empty h delta in
  walkDelta fuel h0 d [] [].

(* ----------------------------------------------------------------- *)
(** ** pdfGenerator.js: flattenDelta *)

(** Body of the [forEach] of [walk]'s array-delta branch (lines
    390-401 of the concatenated source); [rows.push] with the values
    of the delta themselves. *)
Definition walkArrayEntry
    (rec : val → list jsstring → list change → option (list change))
    (h : heap) (path_ : list jsstring) (rows : list change)
    (kv : jsstring * val) : option (list change) :=
  let '(k, entry) := kv in
  if decide (k = js "_t") then Some rows
  else
    let idx := strip_underscore k in
    match as_array h entry with
    | Some es =>
        if length es =? 1 then
          Some (rows ++ [Change (join (js ".") (path_ ++ [idx])) VUndef (elem es 0)])
        else if length es =? 2 then
          Some (rows ++ [Change (join (js ".") (path_ ++ [idx])) (elem es 0) (elem es 1)])
        else if (3 <=? length es) && is_zero (elem es 1) && is_zero (elem es 2) then
          Some (rows ++ [Change (join (js ".") (path_ ++ [idx])) (elem es 0) VUndef])
        else Some rows
    | None =>
        if isObject h entry then rec entry (path_ ++ [idx]) rows
        else Some rows
    end.

(** Body of the [for ... of] of [walk]'s object-delta branch (lines
    404-414). *)
Definition walkObjectEntry
    (rec : val → list jsstring → list change → option (list change))
    (h : heap) (path_ : list jsstring) (rows : list change)
    (kv : jsstring * val) : option (list change) :=
  let '(key, v) := kv in
  if decide (key = js "_t") then Some rows
  else
    match as_array h v with
    | Some es =>
        if length es =? 2 then
          Some (rows ++ [Change (join (js ".") (path_ ++ [key])) (elem es 0) (elem es 1)])
        else if length es =? 1 then
          Some (rows ++ [Change (join (js ".") (path_ ++ [key])) VUndef (elem es 0)])
        else if (3 <=? length es) && is_zero (elem es 1) && is_zero (elem es 2) then
          Some (rows ++ [Change (join (js ".") (path_ ++ [key])) (elem es 0) VUndef])
        else Some rows
    | None =>
        if isObject h v then rec v (path_ ++ [key]) rows
        else Some rows
    end.

(** The inner [walk(d, path)] of [flattenDelta]; it reads the store and
    appends to the enclosing [rows]. *)
Fixpoint walk (fuel : nat) (h : heap) (d : val) (path_ : list jsstring)
    (rows : list change) : option (list change) :=
  match fuel with
  | 0 => None
  | S fuel' =>
      match as_object h d with
      | None => Some rows
      | Some ps =>
          if is_str_a (get ps (js "_t")) then
            foldM (walkArrayEntry (walk fuel' h) h path_) ps rows
          else
            foldM (walkObjectEntry (walk fuel' h) h path_) ps rows
      end
  end.

(** [flattenDelta(delta)]. *)
Definition flattenDelta (fuel : nat) (h : heap) (delta : val)
  : option state :=
  let '(h0, d) := or_empty h delta in
  match walk fuel h0 d [] [] with
  | Some rows => Some (h0, rows)
  | None => None
  end.

(* ----------------------------------------------------------------- *)
(** ** JSON texts *)

(** Lower-case hexadecimal digit of [d < 16], as a code unit. *)
Definition hexdigit (d : N) : N :=
  if (d <? 10)%N then (48 + d)%N else (87 + d)%N.

(** UnicodeEscape: [\uXXXX]. *)
Definition unicode_escape (c : N) : jsstring :=
  [92; 117; hexdigit ((c / 4096) mod 16); hexdigit ((c / 256) mod 16);
   hexdigit ((c / 16) mod 16); hexdigit (c mod 16)]%N.

Definition is_high_surrogate (c : N) : bool := (55296 <=? c)%N && (c <=? 56319)%N.
Definition is_low_surrogate (c : N) : bool := (56320 <=? c)%N && (c <=? 57343)%N.

(** The body of QuoteJSONString, between the quotes. *)
Fixpoint quote_units (s : jsstring) : jsstring :=
  match s with
  | [] => []
  | c :: rest =>
      if (c =? 8)%N then js "\b" ++ quote_units rest
      else if (c =? 9)%N then js "\t" ++ quote_units rest
      else if (c =? 10)%N then js "\n" ++ quote_units rest
      else if (c =? 12)%N then js "\f" ++ quote_units rest
      else if (c =? 13)%N then js "\r" ++ quote_units rest
      else if (c =? 34)%N then [92; 34]%N ++ quote_units rest
      else if (c =? 92)%N then [92; 92]%N ++ quote_units rest
      else if (c <? 32)%N then unicode_escape c ++ quote_units rest
      else if is_high_surrogate c then
        match rest with
        | d :: rest' =>
            if is_low_surrogate d then c :: d :: quote_units rest'
            else unicode_escape c ++ quote_units rest
        | [] => unicode_escape c
        end
      else if is_low_surrogate c then unicode_escape c ++ quote_units rest
      else c :: quote_units rest
  end.

Definition quote (s : jsstring) : jsstring := [34%N] ++ quote_units s ++ [34%N].

Definition hexval (c : N) : option N :=
  if (48 <=? c)%N && (c <=? 57)%N then Some (c - 48)%N
  else if (97 <=? c)%N && (c <=? 102)%N then Some (c - 87)%N
  else if (65 <=? c)%N && (c <=? 70)%N then Some (c - 55)%N
  else None.

(** The character an escape letter stands for. *)
Definition unescape (e : N) : option N :=
  if (e =? 34)%N then Some 34%N
  else if (e =? 92)%N then Some 92%N
  else if (e =? 47)%N then Some 47%N
  else if (e =? 98)%N then Some 8%N
  else if (e =? 102)%N then Some 12%N
  else if (e =? 110)%N then Some 10%N
  else if (e =? 114)%N then Some 13%N
  else if (e =? 116)%N then Some 9%N
  else None.

(** The characters of a JSON string literal after its opening quote;
    the closing quote has to be the last code unit of the text. *)
Fixpoint parse_chars (s : jsstring) : option jsstring :=
  match s with
  | [] => None
  | c :: rest =>
      if (c =? 34)%N then match rest with [] => Some [] | _ => None end
      else if (c =? 92)%N then
        match rest with
        | [] => None
        | e :: rest' =>
            if (e =? 117)%N then
              match rest' with
              | x3 :: x2 :: x1 :: x0 :: rest'' =>
                  match hexval x3, hexval x2, hexval x1, hexval x0 with
                  | Some d3, Some d2, Some d1, Some d0 =>
                      match parse_chars rest'' with
                      | Some r => Some ((4096 * d3 + 256 * d2 + 16 * d1 + d0)%N :: r)
                      | None => None
                      end
                  | _, _, _, _ => None
                  end
              | _ => None
              end
            else
              match unescape e, parse_chars rest' with
              | Some u, Some r => Some (u :: r)
              | _, _ => None
              end
        end
      else if (c <? 32)%N then None
      else match parse_chars rest with
           | Some r => Some (c :: r)
           | None => None
           end
  end.

(** [JSON.parse(str)] for a text that starts with a quote: the string it
    denotes, or [None] for the [SyntaxError]. *)
Definition JSON_parse_string (str : jsstring) : option jsstring :=
  match str with
  | 34%N :: rest => parse_chars rest
  | _ => None
  end.

(** [s.slice(b, e)]. *)
Definition slice (s : jsstring) (b e : Z) : jsstring :=
  let len := Z.of_nat (length s) in
  let from := if (b <? 0)%Z then Z.max (len + b) 0 else Z.min b len in
  let to := if (e <? 0)%Z then Z.max (len + e) 0 else Z.min e len in
  take (Z.to_nat (to - from)) (drop (Z.to_nat from) s).

(** The tree a text is read back to, after [JSON.stringify]. *)
Fixpoint norm (j : json) : json :=
  match j with
  | JNum f => number_json f
  | JArr js => JArr (map norm js)
  | JObj ms => JObj (map (λ m, (m.1, norm m.2)) ms)
  | _ => j
  end.

Section Builtins.

(** Number::toString on a finite number (the engine's shortest
    round-trip decimal), and [String(v)] on an object; both are
    builtins of the engine and are taken as given. *)
Variable Number_toString : float → jsstring.
Variable ToString : heap → val → jsstring.

(** The text [JSON.stringify] writes for a tree (no indentation). *)
Fixpoint JSON_text (j : json) : jsstring :=
  match j with
  | JNull => js "null"
  | JBool true => js "true"
  | JBool false => js "false"
  | JNum f => Number_toString f
  | JStr s => quote s
  | JArr items => js "[" ++ join (js ",") (map JSON_text items) ++ js "]"
  | JObj members =>
      js "{" ++
      join (js ",")
        (map (λ m, match m with (k, v) => quote k ++ js ":" ++ JSON_text v end)
           members) ++
      js "}"
  end.

(** [JSON.stringify(v)] as a value: a string or [undefined]; [None] when
    it throws. *)
Definition stringify_val (h : heap) (v : val) : option val :=
  match JSON_stringify h v with
  | RRet (Some j) => Some (VStr (JSON_text j))
  | RRet None => Some VUndef
  | _ => None
  end.

(* ----------------------------------------------------------------- *)
(** ** pdfGenerator.js: cells *)

(** [safeCell(v)]. *)
Definition safeCell (h : heap) (v : val) : jsstring :=
  match v with
  | VNull | VUndef => []
  | VStr s => s
  | _ =>
      match JSON_stringify h v with
      | RRet (Some j) => JSON_text j
      | _ => ToString h v
      end
  end.

(** [dequote(str)] on a string. *)
Definition dequote (str : jsstring) : jsstring :=
  if (2 <=? length str) && bool_decide (head str = Some 34%N)
     && bool_decide (last str = Some 34%N) then
    match JSON_parse_string str with
    | Some s => s
    | None => slice str 1 (-1)
    end
  else str.

(** The literal appended by [safeCellTruncated] (line 376): the three
    code units U+00E2, U+20AC, U+00A6. *)
Definition ellipsis_marker : jsstring := [226; 8364; 166]%N.

(** An entry of the [footnotes] array. *)
Record footnote : Type := Footnote {
  fn_table : val;
  fn_row : Z;
  fn_col : val + Z;
  fn_full : jsstring;
}.

(** [safeCellTruncated(v, footnotes, maxLen, tableName, rowIdx, colIdx,
    colName)]: the returned text and the [footnotes] array afterwards. *)
Definition safeCellTruncated (h : heap) (v : val) (footnotes : list footnote)
    (maxLen : Z) (tableName : val) (rowIdx colIdx : Z) (colName : val)
  : jsstring * list footnote :=
  let text := dequote (safeCell h v) in
  if (maxLen <? Z.of_nat (length text))%Z then
    let short := slice text 0 (maxLen - 1) ++ ellipsis_marker in
    (short,
     footnotes ++
       [Footnote (if truthy tableName then tableName else VStr (js "Table"))
          (rowIdx + 1)
          (if truthy colName then inl colName else inr (colIdx + 1)%Z)
          text])
  else (text, footnotes).

(* ----------------------------------------------------------------- *)
(** ** index.js: table builders *)

Record table : Type := Table {
  name : jsstring;
  columns : list jsstring;
  rows : list (list val);
}.

(** An element of [report.items]: [it.file] and [it.diff]. *)
Record item : Type := Item {
  file : jsstring;
  diff : val;
}.

(** The [Map] from file to rows, in insertion order. *)
Abbreviation filemap := (list (list N * list change)) (only parsing).

Fixpoint map_has (m : filemap) (k : jsstring) : bool :=
  match m with
  | [] => false
  | (k', _) :: rest => if decide (k' = k) then true else map_has rest k
  end.

Fixpoint map_set (m : filemap) (k : jsstring) (v : list change) : filemap :=
  match m with
  | [] => [(k, v)]
  | (k', v') :: rest =>
      if decide (k' = k) then (k, v) :: rest else (k', v') :: map_set rest k v
  end.

(** [m.get(k).push(r)]. *)
Fixpoint map_push (m : filemap) (k : jsstring) (r : change) : filemap :=
  match m with
  | [] => []
  | (k', rs) :: rest =>
      if decide (k' = k) then (k', rs ++ [r]) :: rest
      else (k', rs) :: map_push rest k r
  end.

(** Lines 103-104. *)
Definition groupRow (file_ : jsstring) (byFile : filemap) (r : change)
  : filemap :=
  let m := if map_has byFile file_ then byFile else map_set byFile file_ [] in
  map_push m file_ (Change (path r) (before r) (after r)).

(** Lines 99-106, one item. *)
Definition groupItem (fuel : nat) (st : list obj * filemap) (it : item)
  : option (list obj * filemap) :=
  let '(h, byFile) := st in
  let '(h1, d) := or_empty h (diff it) in
  match flattenJsonDiff fuel h1 d with
  | Some (h2, flat) => Some (h2, foldl (groupRow (file it)) byFile flat)
  | None => None
  end.

(** [[r.path, JSON.stringify(r.before), JSON.stringify(r.after)]]. *)
Definition fullRow (h : heap) (r : change) : option (list val) :=
  b ← stringify_val h (before r);
  a ← stringify_val h (after r);
  Some [VStr (path r); b; a].

(** Lines 109-112, one entry of the map. *)
Definition fileTable (h : heap) (e : jsstring * list change) : option table :=
  rs ← mapM (fullRow h) e.2;
  Some (Table e.1 [js "Path"; js "Old Value"; js "New Value"] rs).

(** The table builder of [/api/tables/fromReport] (lines 97-112);
    [None] is the handler's [catch]. *)
Definition tablesFromReport (fuel : nat) (h : heap) (items : list item)
  : option (list obj * list table) :=
  match foldM (groupItem fuel) items (h, []) with
  | Some (h', byFile) =>
      ts ← mapM (fileTable h') byFile;
      Some (h', ts)
  | None => None
  end.

(** [typeof v === 'undefined']. *)
Definition is_undefined (v : val) : bool :=
  match v with VUndef => true | _ => false end.

(** [[r.path, JSON.stringify(r.after)]]. *)
Definition addedRow (h : heap) (r : change) : option (list val) :=
  a ← stringify_val h (after r);
  Some [VStr (path r); a].

(** Case 2 of [/api/template/upload] (lines 66-70): the one table of
    the response. *)
Definition addedTable (fuel : nat) (h : heap) (json_ : val)
  : option (list obj * table) :=
  let '(h1, d) := or_empty h json_ in
  match flattenJsonDiff fuel h1 d with
  | Some (h2, flat) =>
      let additions := List.filter (λ r, is_undefined (before r)) flat in
      rs ← mapM (addedRow h2) additions;
      Some (h2, Table (js "Added") [js "Path"; js "New Value"] rs)
  | None => None
  end.

End Builtins.

(** The heuristic [isDelta] of [/api/template/upload] (lines 45-49), on
    the tree just parsed. *)
Fixpoint jget (ms : list (jsstring * json)) (k : jsstring) : option json :=
  match ms with
  | [] => None
  | (k', v) :: rest => if decide (k' = k) then Some v else jget rest k
  end.

(** [o._t === 'a'] on a tree. *)
Definition jmarker (ms : list (jsstring * json)) : bool :=
  match jget ms (js "_t") with
  | Some (JStr s) => bool_decide (s = js "a")
  | _ => false
  end.

Fixpoint isDelta (j : json) : bool :=
  match j with
  | JObj ms =>
      jmarker ms ||
      existsb (λ m, match m with
                    | (_, v) =>
                        match v with
                        | JArr _ => true
                        | JObj _ => isDelta v
                        | _ => false
                        end
                    end) ms
  | JArr items =>
      existsb (λ v, match v with
                    | JArr _ => true
                    | JObj _ => isDelta v
                    | _ => false
                    end) items
  | _ => false
  end.

(** What [/api/template/upload] does with a file that parsed as JSON:
    the request is handed to the external service (cases 1 and 3; what
    comes of the request is in [uploadHandler] below), or case 2 builds
    the table of additions. *)
Inductive upload_answer : Type :=
  | Forwarded
  | AddedEntries (t : table)
  | Failed.

Definition is_object_type (j : json) : bool :=
  match j with JArr _ | JObj _ => true | _ => false end.

Definition templateUpload (Number_toString : float → jsstring)
    (fuel : nat) (h : heap) (parsed : json) : upload_answer :=
  let '(h0, json_) := alloc parsed h in
  if is_object_type parsed && negb (isDelta parsed) then Forwarded
  else if is_object_type parsed then
    match addedTable Number_toString fuel h0 json_ with
    | Some (_, t) => AddedEntries t
    | None => Failed
    end
  else Forwarded.

(* ----------------------------------------------------------------- *)
(** ** Values that hold a JSON tree *)

(** [rep lo h j v]: in store [h], value [v] holds the tree [j], using
    only cells at [lo] or above. *)
Inductive rep (lo : nat) (h : heap) : json → val → Prop :=
  | rep_null : rep lo h JNull VNull
  | rep_bool b : rep lo h (JBool b) (VBool b)
  | rep_num f : rep lo h (JNum f) (VNum f)
  | rep_str s : rep lo h (JStr s) (VStr s)
  | rep_arr items l es :
      lo ≤ l → h !! l = Some (OArr es) →
      Forall2 (rep lo h) items es →
      rep lo h (JArr items) (VRef l)
  | rep_obj members l ps :
      lo ≤ l → h !! l = Some (OObj ps) →
      Forall2 (λ m p, m.1 = p.1 ∧ rep lo h m.2 p.2) members ps →
      rep lo h (JObj members) (VRef l).

(** An absent value is [undefined]. *)
Definition orep (lo : nat) (h : heap) (o : option json) (v : val) : Prop :=
  match o with
  | None => v = VUndef
  | Some j => rep lo h j v
  end.

(** The cells a value leads to. *)
Inductive reach (h : heap) : val → loc → Prop :=
  | reach_here l : reach h (VRef l) l
  | reach_elem l es e l' :
      h !! l = Some (OArr es) → e ∈ es → reach h e l' → reach h (VRef l) l'
  | reach_prop l ps k e l' :
      h !! l = Some (OObj ps) → (k, e) ∈ ps → reach h e l' →
      reach h (VRef l) l'.

(** Nesting depth of a tree. *)
Fixpoint depth (j : json) : nat :=
  match j with
  | JArr items => S (foldr max 0 (map depth items))
  | JObj members =>
      S (foldr max 0 (map (λ m, match m with (_, v) => depth v end) members))
  | _ => 0
  end.

(** [walkable h n v]: below [v], plain objects are nested at most [n]
    deep (whatever the arrays hold). *)
Inductive walkable (h : heap) : nat → val → Prop :=
  | walkable_leaf n v :
      (∀ l, v = VRef l → ∃ es, h !! l = Some (OArr es)) →
      walkable h n v
  | walkable_node n l ps :
      h !! l = Some (OObj ps) →
      (∀ k e, (k, e) ∈ ps → walkable h n e) →
      walkable h (S n) (VRef l).

(* ----------------------------------------------------------------- *)
(** ** The walks on trees *)

(** [walkDelta] and [walk] as they act on the tree a delta holds; that
    the walks of the store return the rows of these is
    [flattenJsonDiff_rep] and [flattenDelta_rep] below. *)

(** A row on trees: the path, and the trees of [before] and [after]. *)
Abbreviation prow := (list N * option json * option json)%type (only parsing).

Definition ojzero (o : option json) : bool :=
  match o with
  | Some (JNum f) => PrimFloat.eqb f 0%float
  | _ => false
  end.

Section TreeWalk.

(** [keep]: what a row keeps of a value (its round trip for
    [walkDelta], the value itself for [walk]); [fallback]: whether the
    object branch reads a long array without the sentinel as a
    modification. *)
Variable keep : json → json.
Variable fallback : bool.

Definition arrayLeaf (p : jsstring) (es : list json) : list prow :=
  if length es =? 1 then [(p, None, keep <$> es !! 0)]
  else if length es =? 2 then [(p, keep <$> es !! 0, keep <$> es !! 1)]
  else if 3 <=? length es then
    if ojzero (es !! 1) && ojzero (es !! 2) then [(p, keep <$> es !! 0, None)]
    else []
  else [].

Definition objectLeaf (p : jsstring) (es : list json) : list prow :=
  if length es =? 2 then [(p, keep <$> es !! 0, keep <$> es !! 1)]
  else if length es =? 1 then [(p, None, keep <$> es !! 0)]
  else if 3 <=? length es then
    if ojzero (es !! 1) && ojzero (es !! 2) then [(p, keep <$> es !! 0, None)]
    else if fallback then [(p, keep <$> es !! 0, keep <$> es !! 1)]
    else []
  else [].

Fixpoint treeWalk (j : json) (path_ : list jsstring) : list prow :=
  match j with
  | JObj ms =>
      let arr := jmarker ms in
      (fix go (ms : list (jsstring * json)) : list prow :=
         match ms with
         | [] => []
         | m :: rest =>
             match m with
             | (k, e) =>
                 if decide (k = js "_t") then []
                 else
                   let p := path_ ++ [if arr then strip_underscore k else k] in
                   match e with
                   | JArr es =>
                       if arr then arrayLeaf (join (js ".") p) es
                       else objectLeaf (join (js ".") p) es
                   | JObj _ => treeWalk e p
                   | _ => []
                   end
             end ++ go rest
         end) ms
  | _ => []
  end.

Definition treeEntry (arr : bool) (path_ : list jsstring)
    (m : jsstring * json) : list prow :=
  if decide (m.1 = js "_t") then []
  else
    let p := path_ ++ [if arr then strip_underscore m.1 else m.1] in
    match m.2 with
    | JArr es =>
        if arr then arrayLeaf (join (js ".") p) es
        else objectLeaf (join (js ".") p) es
    | JObj _ => treeWalk m.2 p
    | _ => []
    end.

End TreeWalk.

(** Rows of a store against rows on trees. *)
Definition row_rep (lo : nat) (h : heap) (p : prow) (r : change) : Prop :=
  path r = p.1.1 ∧ orep lo h p.1.2 (before r) ∧ orep lo h p.2 (after r).

(* ----------------------------------------------------------------- *)
(** ** JSON values and the deltas of the examples *)

(** A tree as JSON text carries it: numbers finite, zero unsigned. These
    are the values left unchanged by [JSON.stringify] and back. *)
Definition plain (j : json) : Prop := norm j = j.

(** The value of a tree without arrays and objects. *)
Definition atom (o : option json) : option val :=
  match o with
  | None => Some VUndef
  | Some JNull => Some VNull
  | Some (JBool b) => Some (VBool b)
  | Some (JNum f) => Some (VNum f)
  | Some (JStr s) => Some (VStr s)
  | Some _ => None
  end.

(** [{x: [9,0,0]}] and [{x: [9,1,2]}]. *)
Definition delta_removed : json :=
  JObj [(js "x", JArr [JNum 9%float; JNum 0%float; JNum 0%float])].
Definition delta_mismatch : json :=
  JObj [(js "x", JArr [JNum 9%float; JNum 1%float; JNum 2%float])].

(** The store of [{x: [9,0,0]}], cell by cell. *)
Definition store_removed : list obj :=
  [OArr [VNum 9%float; VNum 0%float; VNum 0%float]; OObj [(js "x", VRef 0)]].
Definition store_mismatch : list obj :=
  [OArr [VNum 9%float; VNum 1%float; VNum 2%float]; OObj [(js "x", VRef 0)]].

(** [{_t: "a", x: [9,1,2]}] and [{_t: "b", x: [9,1,2]}]: the marker key
    is present in both. *)
Definition store_marker_a : list obj :=
  [OArr [VNum 9%float; VNum 1%float; VNum 2%float];
   OObj [(js "_t", VStr (js "a")); (js "x", VRef 0)]].
Definition store_marker_b : list obj :=
  [OArr [VNum 9%float; VNum 1%float; VNum 2%float];
   OObj [(js "_t", VStr (js "b")); (js "x", VRef 0)]].

(** [{items: {_t: "a", k: [7]}}]; [marker_first] tells which of the two
    members [Object.keys] lists first (an integer-like key comes before
    ["_t"], any other key after it). *)
Definition delta_items (k : list N) (marker_first : bool) : json :=
  JObj [(js "items",
         JObj (if marker_first
               then [(js "_t", JStr (js "a")); (k, JArr [JNum 7%float])]
               else [(k, JArr [JNum 7%float]); (js "_t", JStr (js "a"))]))].

Definition store_items (k : list N) : list obj :=
  [OArr [VNum 7%float]; OObj [(k, VRef 0); (js "_t", VStr (js "a"))];
   OObj [(js "items", VRef 1)]].

(* ----------------------------------------------------------------- *)
(** ** The table builders on trees *)

(** The rows of a delta given as a tree, or absent. *)
Definition treeRows (o : option json) : list prow :=
  match o with
  | Some j => treeWalk norm true j []
  | None => []
  end.

(** The keys of a list in order of first occurrence. *)
Fixpoint first_seen_from (seen : list (list N)) (ks : list (list N))
  : list (list N) :=
  match ks with
  | [] => []
  | k :: rest =>
      if decide (k ∈ seen) then first_seen_from seen rest
      else k :: first_seen_from (k :: seen) rest
  end.

Definition first_seen (ks : list (list N)) : list (list N) :=
  first_seen_from [] ks.

(** The entries filed under a key, in order. *)
Definition select {A} (k : list N) (kvs : list (list N * A)) : list A :=
  (List.filter (λ kv, bool_decide (kv.1 = k)) kvs).*2.

(** All (file, row) pairs of a report, in order. *)
Definition reportRows (its : list (list N * option json))
  : list (list N * prow) :=
  flat_map (λ it, map (pair it.1) (treeRows it.2)) its.

Section TreeTables.

Variable Number_toString : float → list N.

(** The cell [JSON.stringify] makes of a value. *)
Definition cell (o : option json) : val :=
  match o with
  | None => VUndef
  | Some j => VStr (JSON_text Number_toString (norm j))
  end.

Definition treeFullRow (p : prow) : list val :=
  [VStr p.1.1; cell p.1.2; cell p.2].

Definition treeAddedRow (p : prow) : list val :=
  [VStr p.1.1; cell p.2].

Definition treeTables (its : list (list N * option json)) : list table :=
  map (λ f, Table f [js "Path"; js "Old Value"; js "New Value"]
              (map treeFullRow (select f (reportRows its))))
      (first_seen (reportRows its).*1).

Definition treeAddedTable (o : option json) : table :=
  Table (js "Added") [js "Path"; js "New Value"]
    (map treeAddedRow
       (List.filter (λ p, bool_decide (p.1.2 = None)) (treeRows o))).

End TreeTables.

(* ----------------------------------------------------------------- *)
(** ** The builtins on the values of the examples *)

(** The value of a 63-bit integer. *)
Fixpoint int_value (bits : nat) (i : int) : N :=
  match bits with
  | 0 => 0%N
  | S bits' =>
      (2 * int_value bits' (PrimInt63.lsr i 1%uint63)
       + (if PrimInt63.eqb (PrimInt63.land i 1%uint63) 1%uint63 then 1 else 0))%N
  end.

(** The integer a non-negative double below 2^53 is, if it is one. *)
Definition integer_of (f : float) : option N :=
  let '(m, e) := PrimFloat.frshiftexp f in
  let ex := PrimInt63.sub e 2101%uint63 in
  if PrimInt63.leb (PrimInt63.sub ex 1%uint63) 52%uint63 then
    let i := PrimInt63.lsr (PrimFloat.normfr_mantissa m) (PrimInt63.sub 53%uint63 ex) in
    if PrimFloat.eqb (PrimFloat.of_uint63 i) f then Some (int_value 63 i)
    else None
  else if PrimFloat.eqb f 0%float then Some 0%N
  else None.

Fixpoint digits (d : Decimal.uint) : list N :=
  match d with
  | Decimal.Nil => []
  | Decimal.D0 d' => 48%N :: digits d'
  | Decimal.D1 d' => 49%N :: digits d'
  | Decimal.D2 d' => 50%N :: digits d'
  | Decimal.D3 d' => 51%N :: digits d'
  | Decimal.D4 d' => 52%N :: digits d'
  | Decimal.D5 d' => 53%N :: digits d'
  | Decimal.D6 d' => 54%N :: digits d'
  | Decimal.D7 d' => 55%N :: digits d'
  | Decimal.D8 d' => 56%N :: digits d'
  | Decimal.D9 d' => 57%N :: digits d'
  end.

(** Number::toString on the integers of magnitude below 2^53: their
    decimal digits. The examples use no other number; on the others
    this instance leaves the text empty. *)
Definition integer_toString (f : float) : list N :=
  match integer_of (PrimFloat.abs f) with
  | Some n =>
      (if PrimFloat.ltb f 0%float then js "-" else []) ++ digits (N.to_uint n)
  | None => []
  end.

(** [String(v)] on a plain object. *)
Definition object_ToString (h : list obj) (v : val) : list N :=
  js "[object Object]".

(** [{a: [5], b: [1,2]}]: one addition and one modification. *)
Definition delta_add_mod : json :=
  JObj [(js "a", JArr [JNum 5%float]);
        (js "b", JArr [JNum 1%float; JNum 2%float])].

Definition store_add_mod : list obj :=
  [OArr [VNum 5%float]; OArr [VNum 1%float; VNum 2%float];
   OObj [(js "a", VRef 0); (js "b", VRef 1)]].

(** The insertion-ordered map that files a list of (key, entry) pairs. *)
Definition grouped {A} (recs : list (list N * A)) : list (list N * list A) :=
  map (λ f, (f, select f recs)) (first_seen recs.*1).

(** Filed rows of a store against filed rows on trees. *)
Definition filed_rep (h : list obj) (t : list N * prow) (r : list N * change)
  : Prop :=
  t.1 = r.1 ∧ row_rep 0 h t.2 r.2.

(** The items of a report against their trees. *)
Definition item_rep (h : list obj) (t : list N * option json) (it : item)
  : Prop :=
  file it = t.1 ∧ orep 0 h t.2 (diff it).

(** A report on the files [a.json, b.json, a.json] whose second delta
    is empty: the deltas [{x: [1]}], [{}] and [{y: [2,3]}]. *)
Definition store_report : list obj :=
  [OArr [VNum 1%float]; OObj [(js "x", VRef 0)];
   OObj [];
   OArr [VNum 2%float; VNum 3%float]; OObj [(js "y", VRef 3)]].

Definition items_report : list item :=
  [Item (js "a.json") (VRef 1); Item (js "b.json") (VRef 2);
   Item (js "a.json") (VRef 4)].

(** Two rows of two stores hold the same trees. *)
Definition same_tree (h : list obj) (v1 v2 : val) : Prop :=
  ∃ o, orep 0 h o v1 ∧ orep 0 h o v2.

Definition deep_equal (h : list obj) (r1 r2 : change) : Prop :=
  path r1 = path r2 ∧ same_tree h (before r1) (before r2)
  ∧ same_tree h (after r1) (after r2).

(** A report on the files [a.json, b.json, a.json] whose deltas all have
    records: [{x: [1]}], [{q: ["u",0,0]}] and [{y: [2,3]}]. *)
Definition store_report_full : list obj :=
  [OArr [VNum 1%float]; OObj [(js "x", VRef 0)];
   OArr [VStr (js "u"); VNum 0%float; VNum 0%float]; OObj [(js "q", VRef 2)];
   OArr [VNum 2%float; VNum 3%float]; OObj [(js "y", VRef 4)]].

Definition items_report_full : list item :=
  [Item (js "a.json") (VRef 1); Item (js "b.json") (VRef 3);
   Item (js "a.json") (VRef 5)].

Definition trees_report_full : list (list N * option json) :=
  [(js "a.json", Some (JObj [(js "x", JArr [JNum 1%float])]));
   (js "b.json",
    Some (JObj [(js "q", JArr [JStr (js "u"); JNum 0%float; JNum 0%float])]));
   (js "a.json", Some (JObj [(js "y", JArr [JNum 2%float; JNum 3%float])]))].

(** No object-delta node of the tree maps a key to an array of three or
    more elements whose elements 1 and 2 are not both zero. *)
Fixpoint sentinel_only (j : json) : bool :=
  match j with
  | JObj ms =>
      let arr := jmarker ms in
      forallb (λ m, match m with
                    | (k, e) =>
                        if decide (k = js "_t") then true
                        else match e with
                             | JArr es =>
                                 arr || negb (3 <=? length es)
                                 || (ojzero (es !! 1) && ojzero (es !! 2))
                             | JObj _ => sentinel_only e
                             | _ => true
                             end
                    end) ms
  | _ => true
  end.

(** [v'] is, in cells at [lo] or above, the JSON round trip of what [v]
    holds. *)
Definition round_trip (lo : nat) (h : list obj) (v v' : val) : Prop :=
  ∃ o, orep 0 h o v ∧ orep lo h (norm <$> o) v'.

(** The round trip of a row on trees. *)
Definition norm_row (p : prow) : prow := (p.1.1, norm <$> p.1.2, norm <$> p.2).

(** [e] is an element or a member of object [l]. *)
Definition child (h : list obj) (l : nat) (e : val) : Prop :=
  (∃ es, h !! l = Some (OArr es) ∧ e ∈ es) ∨
  (∃ ps k, h !! l = Some (OObj ps) ∧ (k, e) ∈ ps).

(** Object [l] contains itself. *)
Definition cyclic (h : list obj) (l : nat) : Prop :=
  ∃ e, child h l e ∧ reach h e l.

(** [{x: [c]}] where [c] is an array that is its own element. *)
Definition store_cyclic : list obj :=
  [OArr [VRef 0]; OArr [VRef 0]; OObj [(js "x", VRef 1)]].

(** [{_t: "b", x: [9,1,2]}] and [{_t: 5, x: [9,1,2]}] in one store. *)
Definition store_markers : list obj :=
  [OArr [VNum 9%float; VNum 1%float; VNum 2%float];
   OObj [(js "_t", VStr (js "b")); (js "x", VRef 0)];
   OObj [(js "_t", VNum 5%float); (js "x", VRef 0)]].

(* ----------------------------------------------------------------- *)
(** ** Rows under a path *)

(** A row whose path has [pre] put in front. *)
Definition under (pre : list N) (p : prow) : prow := (pre ++ p.1.1, p.1.2, p.2).

(** [{title: "x"}], a file that is no delta, and [{a: {b: [1]}}]. *)
Definition tree_template : json := JObj [(js "title", JStr (js "x"))].
Definition store_template : list obj := [OObj [(js "title", VStr (js "x"))]].

Definition tree_nested : json :=
  JObj [(js "a", JObj [(js "b", JArr [JNum 1%float])])].
Definition store_nested : list obj :=
  [OArr [VNum 1%float]; OObj [(js "b", VRef 0)]; OObj [(js "a", VRef 1)]].

(* ----------------------------------------------------------------- *)
(** ** index.js: the rows sent by [/api/genai/fromReport] *)

(** An element of [payload.changes]: [{ file, path, before, after }]. *)
Record filed_change : Type := FiledChange {
  fc_file : list N;
  fc_path : list N;
  fc_before : val;
  fc_after : val;
}.

(** Lines 202-207, one item. *)
Definition changesItem (fuel : nat) (st : list obj * list filed_change)
    (it : item) : option (list obj * list filed_change) :=
  let '(h, rows) := st in
  let '(h1, delta) := or_empty h (diff it) in
  match flattenJsonDiff fuel h1 delta with
  | Some (h2, flat) =>
      Some (h2,
            foldl (λ rows r,
                     rows ++ [FiledChange (file it) (path r) (before r) (after r)])
              rows flat)
  | None => None
  end.

(** The [rows] of [/api/genai/fromReport] (lines 201-207); [None] is the
    handler's [catch]. *)
Definition changesFromReport (fuel : nat) (h : list obj) (items : list item)
  : option (list obj * list filed_change) :=
  foldM (changesItem fuel) items (h, []).

(** A row of the payload as filed by [/api/tables/fromReport]. *)
Definition filed (c : filed_change) : list N * change :=
  (fc_file c, Change (fc_path c) (fc_before c) (fc_after c)).

(* ----------------------------------------------------------------- *)
(** ** pdfGenerator.js: drawTable *)

Section Drawing.

Variable Number_toString : float → list N.
Variable ToString : list obj → val → list N.

(** [opts.maxCellLen || 140]; [None] when [opts] carries no
    [maxCellLen]. *)
Definition maxCellLen_or (maxCellLen : option Z) : Z :=
  match maxCellLen with
  | Some n => if (n =? 0)%Z then 140%Z else n
  | None => 140%Z
  end.

(** One loop over the cells of a row, [for (let i = 0; i < colCount;
    i++)] with [colCount = columns.length] (lines 298-302, and again
    lines 312-322): the texts that [safeCellTruncated] returns and the
    [footnotes] array afterwards. *)
Definition cellsPass (h : list obj) (columns : list val) (maxLen : Z)
    (title : val) (idx : nat) (row : list val) (footnotes : list footnote)
  : list (list N) * list footnote :=
  foldl (λ st i,
           let '(text, fns) :=
             safeCellTruncated Number_toString ToString h (elem row i) st.2
               maxLen title (Z.of_nat idx) (Z.of_nat i) (elem columns i) in
           (st.1 ++ [text], fns))
    ([], footnotes) (seq 0 (length columns)).

(** The body of [rows.forEach((row, idx) => ...)] (lines 293-334): the
    cells are measured in a first loop and drawn in a second one. Of
    the document only the texts drawn are kept, row by row. *)
Definition drawRow (h : list obj) (columns : list val) (maxLen : Z)
    (title : val) (st : list (list (list N)) * list footnote)
    (idx : nat) (row : list val) : list (list (list N)) * list footnote :=
  let '(_, fns1) := cellsPass h columns maxLen title idx row st.2 in
  let '(texts, fns2) := cellsPass h columns maxLen title idx row fns1 in
  (st.1 ++ [texts], fns2).

Fixpoint drawRows (h : list obj) (columns : list val) (maxLen : Z)
    (title : val) (st : list (list (list N)) * list footnote)
    (idx : nat) (rows : list (list val))
  : list (list (list N)) * list footnote :=
  match rows with
  | [] => st
  | row :: rest =>
      drawRows h columns maxLen title
        (drawRow h columns maxLen title st idx row) (S idx) rest
  end.

(** [drawTable(doc, { columns, rows, title }, opts)]: the texts drawn in
    the cells and the [footnotes] of the result; [footnotes] is
    [opts.footnotes || []] on entry. *)
Definition drawTable (h : list obj) (columns : list val)
    (rows : list (list val)) (title : val) (maxCellLen : option Z)
    (footnotes : list footnote)
  : list (list (list N)) * list footnote :=
  drawRows h columns (maxCellLen_or maxCellLen) title ([], footnotes) 0 rows.

(** The text of cell [i] of row [idx], and the footnote it leaves in an
    empty array. *)
Definition cellOf (h : list obj) (columns : list val) (maxLen : Z)
    (title : val) (idx : nat) (row : list val) (i : nat)
  : list N * list footnote :=
  safeCellTruncated Number_toString ToString h (elem row i) [] maxLen title
    (Z.of_nat idx) (Z.of_nat i) (elem columns i).

(** The text of a value is longer than [maxLen]. *)
Definition tooLong (h : list obj) (maxLen : Z) (v : val) : bool :=
  (maxLen <? Z.of_nat (length (dequote (safeCell Number_toString ToString h v))))%Z.

End Drawing.

(** A table of one row whose first cell is longer than three code
    units. *)
Definition columns_sample : list val := [VStr (js "Path"); VStr (js "New Value")].
Definition rows_sample : list (list val) := [[VStr (js "abcdef"); VStr (js "x")]].

(* ----------------------------------------------------------------- *)
(** ** gitAnalyzer.js: the summary of a report *)

(** Line numbers below are those of [src/unnamed/part_000], the text of
    [backend/src/utils/gitAnalyzer.js]. *)

(** ToBoolean of a string. *)
Definition nonempty (s : list N) : bool :=
  match s with [] => false | _ => true end.

(** Lines 106-108: the change type of a file, from the texts of its two
    versions (the empty string when [git show] failed). *)
Definition changeType (beforeStr afterStr : list N) : list N :=
  let changeType := js "modified" in
  let changeType :=
    if negb (nonempty beforeStr) && nonempty afterStr then js "added"
    else changeType in
  if nonempty beforeStr && negb (nonempty afterStr) then js "removed"
  else changeType.

(** An element of [items] (lines 112-116); [diffObj] is what the
    jsondiffpatch library made of the two versions. *)
Record report_item : Type := ReportItem {
  ri_file : list N;
  ri_changeType : list N;
  ri_diff : val;
}.

(** A changed file as the loop of lines 87-117 meets it: its path, the
    two texts and the delta. *)
Record changed_file : Type := ChangedFile {
  filePath : list N;
  beforeStr : list N;
  afterStr : list N;
  diffObj : val;
}.

Definition reportItem (f : changed_file) : report_item :=
  ReportItem (filePath f) (changeType (beforeStr f) (afterStr f)) (diffObj f).

(** [report.summary] (lines 136-141). *)
Record report_summary : Type := ReportSummary {
  totalJsonFilesChanged : nat;
  added : nat;
  removed : nat;
  modified : nat;
}.

Definition summary (items : list report_item) : report_summary :=
  ReportSummary (length items)
    (length (List.filter (λ i, bool_decide (ri_changeType i = js "added")) items))
    (length (List.filter (λ i, bool_decide (ri_changeType i = js "removed")) items))
    (length (List.filter (λ i, bool_decide (ri_changeType i = js "modified")) items)).

(* ----------------------------------------------------------------- *)
(** ** Values shared with a delta *)

(** [v] is an element of an array met below [d]. *)
Definition held (h : list obj) (d v : val) : Prop :=
  ∃ l es, reach h d l ∧ h !! l = Some (OArr es) ∧ v ∈ es.

(** Both sides of a row are absent or elements of arrays of [d]. *)
Definition shares (h : list obj) (d : val) (r : change) : Prop :=
  (before r = VUndef ∨ held h d (before r)) ∧
  (after r = VUndef ∨ held h d (after r)).

(* ----------------------------------------------------------------- *)
(** ** gitAnalyzer.js: parseIndustryTemplate *)

(** The code units of WhiteSpace and LineTerminator: what [trim] strips
    and what [\s] matches. *)
Definition is_space (c : N) : bool :=
  bool_decide (c ∈ [9; 10; 11; 12; 13; 32; 160; 5760; 8232; 8233; 8239; 8287;
                    12288; 65279]%N)
  || ((8192 <=? c)%N && (c <=? 8202)%N).

(** The code units that [.] does not match. *)
Definition is_line_terminator (c : N) : bool :=
  bool_decide (c ∈ [10; 13; 8232; 8233]%N).

Fixpoint trimStart (s : list N) : list N :=
  match s with
  | c :: rest => if is_space c then trimStart rest else s
  | [] => []
  end.

Definition trimEnd (s : list N) : list N := reverse (trimStart (reverse s)).

(** [s.trim()]. *)
Definition trim (s : list N) : list N := trimEnd (trimStart s).

(** [s.split(sep)] for a separator of one code unit. *)
Fixpoint split_on (sep : N) (s : list N) : list (list N) :=
  match s with
  | [] => [[]]
  | c :: rest =>
      if (c =? sep)%N then [] :: split_on sep rest
      else match split_on sep rest with
           | p :: ps => (c :: p) :: ps
           | [] => [[c]]
           end
  end.

(** A piece that a separator follows loses the carriage return the
    separator took with it. *)
Definition strip_cr (p : list N) : list N :=
  match reverse p with
  | 13%N :: r => reverse r
  | _ => p
  end.

Fixpoint strip_crs (ps : list (list N)) : list (list N) :=
  match ps with
  | [] => []
  | [p] => [p]
  | p :: rest => strip_cr p :: strip_crs rest
  end.

(** [text.split(/\r?\n/)] (line 28). *)
Definition split_lines (text : list N) : list (list N) :=
  strip_crs (split_on 10 text).

(** The lower-case form of an ASCII letter; under the [i] flag a code
    unit matches an ASCII letter of the pattern when it is that letter
    in either case. *)
Definition lower_ascii (c : N) : N :=
  if (65 <=? c)%N && (c <=? 90)%N then (c + 32)%N else c.

Fixpoint after_word (word line : list N) : option (list N) :=
  match word with
  | [] => Some line
  | a :: word' =>
      match line with
      | c :: line' =>
          if (lower_ascii c =? a)%N then after_word word' line' else None
      | [] => None
      end
  end.

(** [/^word\s*:/i] on a line, for a lower-case [word]: what follows the
    match, which is what [line.replace(/^word\s*:/i, '')] leaves. *)
Definition after_header (word line : list N) : option (list N) :=
  match after_word word line with
  | Some rest =>
      match trimStart rest with
      | 58%N :: value => Some value
      | _ => None
      end
  | None => None
  end.

(** [line.match(/^[-*]\s*(.+)$/)]: the group [m[1]]. The greedy [\s*]
    takes the white space after the bullet; it gives the last of it
    back when nothing else is left for [.+]. *)
Definition bullet (line : list N) : option (list N) :=
  match line with
  | c :: rest =>
      if (c =? 45)%N || (c =? 42)%N then
        match trimStart rest with
        | [] =>
            match last rest with
            | Some w => if is_line_terminator w then None else Some [w]
            | None => None
            end
        | body =>
            if forallb (λ x, negb (is_line_terminator x)) body then Some body
            else None
        end
      else None
  | [] => None
  end.

(** [data], the object that the lines fill. *)
Record template_data : Type := TemplateData {
  title : list N;
  description : list N;
  changes : list (list N);
}.

(** The body of the loop over the lines (lines 32-58); the flag is
    [section === 'changes']. *)
Definition templateLine (st : template_data * bool) (raw : list N)
  : template_data * bool :=
  let '(data, section) := st in
  let line := trim raw in
  match line with
  | [] => st
  | _ =>
      match after_header (js "title") line with
      | Some value =>
          (TemplateData (trim value) (description data) (changes data), false)
      | None =>
          match after_header (js "description") line with
          | Some value =>
              (TemplateData (title data) (trim value) (changes data), false)
          | None =>
              match after_header (js "changes") line with
              | Some _ => (data, true)
              | None =>
                  if section then
                    match bullet line with
                    | Some m =>
                        (TemplateData (title data) (description data)
                           (changes data ++ [m]), section)
                    | None => st
                    end
                  else st
              end
          end
      end
  end.

Section Template.

(** [JSON.parse] on a text ([None]: it throws), a builtin of the engine
    taken as given. *)
Variable JSON_parse : list N → option json.

(** [parseIndustryTemplate(text)]: the value of a JSON text, or the
    data read from the lines. *)
Definition parseIndustryTemplate (text : list N) : json + template_data :=
  match JSON_parse text with
  | Some asJson => inl asJson
  | None =>
      inr (foldl templateLine (TemplateData [] [] [], false)
             (split_lines text)).1
  end.

End Template.

(** A template written out: the three headers and one bullet per
    change. *)
Definition templateText (d : template_data) : list N :=
  js "Title: " ++ title d ++ [10%N] ++
  js "Description: " ++ description d ++ [10%N] ++
  js "Changes:" ++ flat_map (λ c, [10%N] ++ js "- " ++ c) (changes d).

(** [JSON.parse] on the texts that are one string literal; the examples
    hold no other JSON text. *)
Definition parse_string_text (text : list N) : option json :=
  JStr <$> JSON_parse_string text.

(** What a header can carry on its line, and what a bullet can. *)
Definition field_ok (f : list N) : Prop :=
  trim f = f ∧ Forall (λ c, c ≠ 10%N) f.

Definition change_ok (c : list N) : Prop :=
  c ≠ [] ∧ trim c = c ∧ forallb (λ x, negb (is_line_terminator x)) c = true.

Definition template_sample : template_data :=
  TemplateData (js "Rate update") (js "New rates for May")
    [js "rates.json: Modified key eur"; js "fees.json: Added key wire"].

(* ----------------------------------------------------------------- *)
(** ** A delta with an object value, and a delta that contains itself *)

(** [{x: [{a: 1}]}]: the value added under [x] is an object. *)
Definition delta_copy : json :=
  JObj [(js "x", JArr [JObj [(js "a", JNum 1%float)]])].

Definition store_copy : list obj :=
  [OObj [(js "a", VNum 1%float)]; OArr [VRef 0]; OObj [(js "x", VRef 1)]].

(** The delta [d] with [d.self = d]. *)
Definition store_self : list obj := [OObj [(js "self", VRef 0)]].

(* ----------------------------------------------------------------- *)
(** ** index.js: the handler of [/api/template/upload] *)

(** ToBoolean of a parsed value. *)
Definition jtruthy (j : json) : bool :=
  match j with
  | JNull => false
  | JBool b => b
  | JNum f => negb (PrimFloat.eqb f 0%float || is_nan f)
  | JStr s => match s with [] => false | _ => true end
  | JArr _ | JObj _ => true
  end.

(** What [await fetch(...)] comes to: it rejects, or it resolves to a
    response with its [ok] and [status] and with what [resp.json()]
    resolves to ([None] when that rejects). *)
Inductive fetched : Type :=
  | Rejected
  | Response (ok : bool) (status : Z) (body : option json).

(** What the handler sends: the answer of line 35, an answer made from
    the data of the service (lines 60-61 and 80-81), the table of case
    2 (line 70), or the answer of the [catch] (line 84). *)
Inductive upload_response : Type :=
  | FileRequired
  | ServiceStatus (status : Z) (body : json)
  | ServiceResult (body : json)
  | AddedResult (t : table)
  | Caught.

Section UploadHandler.

Variable Number_toString : float → list N.

(** [JSON.parse] on the text of the file ([None]: it throws), and
    [fetch] on the request whose [template] field is given; both are
    the engine's and the service's, taken as given. *)
Variable JSON_parse : list N → option json.
Variable fetch : list N → fetched.

(** Lines 54-61 and 74-81: the request is sent and the response turned
    into the answer. [data.result] on [null] throws, which the [catch]
    of line 82 receives, as it receives a rejected [fetch]. *)
Definition forwardTemplate (template : list N) : upload_response :=
  match fetch template with
  | Rejected => Caught
  | Response ok status body =>
      let data := default (JObj []) body in
      if negb ok then
        ServiceStatus status
          (if jtruthy data then data
           else JObj [(js "error", JStr (js "GenAI service error"))])
      else
        match data with
        | JNull => Caught
        | JObj ms =>
            if match jget ms (js "result") with
               | Some r => jtruthy r
               | None => false
               end
            then ServiceResult data
            else ServiceResult (JObj [(js "result", data)])
        | _ => ServiceResult (JObj [(js "result", data)])
        end
  end.

(** The handler (lines 33-86) on the uploaded file, given by its text
    ([None]: no file came with the request). *)
Definition uploadHandler (fuel : nat) (h : list obj) (file : option (list N))
  : upload_response :=
  match file with
  | None => FileRequired
  | Some text =>
      match JSON_parse text with
      | Some parsed =>
          let '(h0, json_) := alloc parsed h in
          if is_object_type parsed && negb (isDelta parsed) then
            forwardTemplate (JSON_text Number_toString (norm parsed))
          else if is_object_type parsed then
            match addedTable Number_toString fuel h0 json_ with
            | Some (_, t) => AddedResult t
            | None => Caught
            end
          else forwardTemplate text
      | None => forwardTemplate text
      end
  end.

End UploadHandler.

(** [JSON.parse] on the texts of the examples: the text of
    [{a: [5], b: [1,2]}], and the texts that are one string literal. *)
Definition parse_sample (text : list N) : option json :=
  if bool_decide (text = JSON_text integer_toString delta_add_mod)
  then Some delta_add_mod
  else parse_string_text text.

(* ================================================================= *)
(** * Part II: properties *)
(* ================================================================= *)

(* ----------------------------------------------------------------- *)
(** ** Trees *)

Lemma json_strong_ind (P : json → Prop) :
  P JNull → (∀ b, P (JBool b)) → (∀ f, P (JNum f)) → (∀ s, P (JStr s)) →
  (∀ items, Forall P items → P (JArr items)) →
  (∀ ms, Forall (λ m, P m.2) ms → P (JObj ms)) →
  ∀ j, P j.
Proof.
  intros Hnull Hbool Hnum Hstr Harr Hobj.
  fix IH 1. intros [ | b | f | s | items | ms].
  - exact Hnull.
  - apply Hbool.
  - apply Hnum.
  - apply Hstr.
  - apply Harr. induction items as [ | j items IHitems]; constructor.
    + apply IH.
    + exact IHitems.
  - apply Hobj. induction ms as [ | [k j] ms IHms]; constructor.
    + apply IH.
    + exact IHms.
Qed.

Lemma Forall2_Forall_l_impl {A B} (P Q : A → B → Prop) xs ys :
  Forall (λ x, ∀ y, P x y → Q x y) xs → Forall2 P xs ys → Forall2 Q xs ys.
Proof.
  intros HF H2. induction H2 as [ | x y xs ys Hxy _ IH]; constructor.
  - inversion HF; subst; auto.
  - apply IH. inversion HF; subst; assumption.
Qed.

Lemma number_json_idem f : norm (number_json f) = number_json f.
Proof.
  unfold number_json.
  destruct (is_nan f || is_infinity f) eqn:E1; [reflexivity | ].
  destruct (PrimFloat.eqb f 0) eqn:E2; simpl; unfold number_json.
  - reflexivity.
  - rewrite E1, E2. reflexivity.
Qed.

Lemma norm_idem j : norm (norm j) = norm j.
Proof.
  induction j as [ | b | f | s | items IH | ms IH] using json_strong_ind;
    simpl; try reflexivity.
  - apply number_json_idem.
  - f_equal. rewrite map_map. apply map_ext_Forall. exact IH.
  - f_equal. rewrite map_map. apply map_ext_Forall.
    eapply Forall_impl; [exact IH | ]. intros [k j] Hj; simpl in *. by rewrite Hj.
Qed.

Lemma depth_item j items : j ∈ items → depth j < depth (JArr items).
Proof.
  intros Hin. simpl. apply Nat.lt_succ_r.
  induction Hin as [j items | j j' items _ IH]; simpl; lia.
Qed.

Lemma depth_member k j ms : (k, j) ∈ ms → depth j < depth (JObj ms).
Proof.
  intros Hin. simpl. apply Nat.lt_succ_r.
  remember (k, j) as m eqn:Em.
  induction Hin as [m ms | m [k' j'] ms _ IH]; subst; simpl; [lia | ].
  specialize (IH eq_refl). lia.
Qed.

(* ----------------------------------------------------------------- *)
(** ** Holding a tree *)

Lemma rep_mono lo lo' h ext j v :
  rep lo h j v → lo' ≤ lo → rep lo' (h ++ ext) j v.
Proof.
  intros Hrep Hle. revert v Hrep.
  induction j as [ | b | f | s | items IH | ms IH] using json_strong_ind;
    intros v Hrep; inversion Hrep; subst; try constructor.
  - econstructor; [lia | by apply lookup_app_l_Some | ].
    eapply Forall2_Forall_l_impl; [ | eassumption]. exact IH.
  - econstructor; [lia | by apply lookup_app_l_Some | ].
    eapply Forall2_Forall_l_impl; [ | eassumption].
    eapply Forall_impl; [exact IH | ].
    intros m Hm p [Hk Hr]. split; [exact Hk | by apply Hm].
Qed.

Lemma rep_weaken lo lo' h j v : rep lo h j v → lo' ≤ lo → rep lo' h j v.
Proof.
  intros Hrep Hle. rewrite <- (app_nil_r h). by eapply rep_mono.
Qed.

Lemma orep_mono lo lo' h ext o v :
  orep lo h o v → lo' ≤ lo → orep lo' (h ++ ext) o v.
Proof. destruct o; simpl; [apply rep_mono | auto]. Qed.

Lemma Forall2_functional_l {A B} (P Q : A → B → Prop) xs xs' ys :
  Forall (λ x, ∀ x' y, P x y → Q x' y → x = x') xs →
  Forall2 P xs ys → Forall2 Q xs' ys → xs = xs'.
Proof.
  intros HF HP. revert xs' HF.
  induction HP as [ | x y xs ys Hxy _ IH]; intros xs' HF HQ;
    inversion HQ; subst; [reflexivity | ].
  inversion HF; subst. f_equal; eauto.
Qed.

(** A value holds at most one tree. *)
Lemma rep_functional lo lo' h j j' v : rep lo h j v → rep lo' h j' v → j = j'.
Proof.
  revert j' v.
  induction j as [ | b | f | s | items IH | ms IH] using json_strong_ind;
    intros j' v H1 H2; inversion H1; subst; inversion H2; subst;
    try reflexivity; try congruence.
  - f_equal.
    match goal with
    | Ha : h !! l = Some (OArr ?es1), Hb : h !! l = Some (OArr ?es2) |- _ =>
        rewrite Ha in Hb; injection Hb as <-
    end.
    eapply Forall2_functional_l; [ | eassumption | eassumption].
    eapply Forall_impl; [exact IH | ]. intros j Hj j' v. apply Hj.
  - f_equal.
    match goal with
    | Ha : h !! l = Some (OObj ?ps1), Hb : h !! l = Some (OObj ?ps2) |- _ =>
        rewrite Ha in Hb; injection Hb as <-
    end.
    eapply Forall2_functional_l; [ | eassumption | eassumption].
    eapply Forall_impl; [exact IH | ].
    intros [k j] Hj [k' j'] [k'' v] [Hk Hr] [Hk' Hr']; simpl in *.
    f_equal; [congruence | eauto].
Qed.

(* ----------------------------------------------------------------- *)
(** ** JSON.parse: allocation *)

Lemma alloc_arr items h :
  alloc (JArr items) h =
  let '(h', vs) := alloc_elems items h in (h' ++ [OArr vs], VRef (length h')).
Proof. reflexivity. Qed.

Lemma alloc_obj ms h :
  alloc (JObj ms) h =
  let '(h', ps) := alloc_members ms h in (h' ++ [OObj ps], VRef (length h')).
Proof. reflexivity. Qed.

Lemma alloc_elems_rep items :
  Forall (λ j, ∀ h, ∃ ext v,
            alloc j h = (h ++ ext, v) ∧ rep (length h) (h ++ ext) j v) items →
  ∀ h, ∃ ext vs,
    alloc_elems items h = (h ++ ext, vs) ∧
    Forall2 (rep (length h) (h ++ ext)) items vs.
Proof.
  induction 1 as [ | j items Hj _ IH]; intros h.
  - exists [], []. simpl. rewrite app_nil_r. split; [reflexivity | constructor].
  - destruct (Hj h) as (e1 & v & Ev & Hv).
    destruct (IH (h ++ e1)) as (e2 & vs & Evs & Hvs).
    exists (e1 ++ e2), (v :: vs). simpl. rewrite Ev, Evs, app_assoc.
    split; [reflexivity | ]. constructor.
    + by eapply rep_mono.
    + eapply Forall2_impl; [exact Hvs | ].
      intros j' v' Hr. eapply rep_weaken; [exact Hr | ].
      rewrite length_app. lia.
Qed.

Lemma alloc_members_rep ms :
  Forall (λ m, ∀ h, ∃ ext v,
            alloc m.2 h = (h ++ ext, v) ∧ rep (length h) (h ++ ext) m.2 v) ms →
  ∀ h, ∃ ext ps,
    alloc_members ms h = (h ++ ext, ps) ∧
    Forall2 (λ m p, m.1 = p.1 ∧ rep (length h) (h ++ ext) m.2 p.2) ms ps.
Proof.
  induction 1 as [ | [k j] ms Hj _ IH]; intros h; simpl in *.
  - exists [], []. rewrite app_nil_r. split; [reflexivity | constructor].
  - destruct (Hj h) as (e1 & v & Ev & Hv).
    destruct (IH (h ++ e1)) as (e2 & ps & Eps & Hps).
    exists (e1 ++ e2), ((k, v) :: ps). rewrite Ev, Eps, app_assoc.
    split; [reflexivity | ]. constructor.
    + split; [reflexivity | ]. by eapply rep_mono.
    + eapply Forall2_impl; [exact Hps | ].
      intros m p [Hk Hr]. split; [exact Hk | ].
      eapply rep_weaken; [exact Hr | ]. rewrite length_app. lia.
Qed.

(** [JSON.parse] builds its tree in new cells only. *)
Lemma alloc_rep j h :
  ∃ ext v, alloc j h = (h ++ ext, v) ∧ rep (length h) (h ++ ext) j v.
Proof.
  revert h.
  induction j as [ | b | f | s | items IH | ms IH] using json_strong_ind;
    intros h;
    try (eexists [], _; rewrite app_nil_r; split; [reflexivity | constructor]).
  - destruct (alloc_elems_rep items IH h) as (ext & vs & E & Hvs).
    exists (ext ++ [OArr vs]), (VRef (length (h ++ ext))).
    rewrite alloc_arr, E, app_assoc. split; [reflexivity | ].
    econstructor.
    + rewrite length_app. lia.
    + apply list_lookup_middle. reflexivity.
    + eapply Forall2_impl; [exact Hvs | ].
      intros j v Hr. by eapply rep_mono.
  - destruct (alloc_members_rep ms IH h) as (ext & ps & E & Hps).
    exists (ext ++ [OObj ps]), (VRef (length (h ++ ext))).
    rewrite alloc_obj, E, app_assoc. split; [reflexivity | ].
    econstructor.
    + rewrite length_app. lia.
    + apply list_lookup_middle. reflexivity.
    + eapply Forall2_impl; [exact Hps | ].
      intros m p [Hk Hr]. split; [exact Hk | by eapply rep_mono].
Qed.

(* ----------------------------------------------------------------- *)
(** ** JSON.stringify: serialization *)

Lemma NoDup_bounded_length (l : list nat) n :
  NoDup l → (∀ x, x ∈ l → x < n) → length l ≤ n.
Proof.
  intros Hnd Hlt. rewrite <- (length_seq n 0).
  apply submseteq_length, NoDup_submseteq; [exact Hnd | ].
  intros x Hx. apply elem_of_seq. specialize (Hlt x Hx). lia.
Qed.

Lemma ser_elems_total (rec : val → res (option json)) es :
  (∀ e, e ∈ es → rec e ≠ RFuel) → ser_elems rec es ≠ RFuel.
Proof.
  induction es as [ | e es IH]; intros Hrec; simpl; [discriminate | ].
  destruct (rec e) eqn:E; simpl.
  - exfalso. eapply Hrec; [left | exact E].
  - discriminate.
  - destruct (ser_elems rec es) eqn:E'; simpl; try discriminate.
    exfalso. apply IH; [ | reflexivity]. intros e' He'. apply Hrec. by right.
Qed.

Lemma ser_props_total (rec : val → res (option json)) ps :
  (∀ k e, (k, e) ∈ ps → rec e ≠ RFuel) → ser_props rec ps ≠ RFuel.
Proof.
  induction ps as [ | [k e] ps IH]; intros Hrec; simpl; [discriminate | ].
  destruct (rec e) eqn:E; simpl.
  - exfalso. eapply Hrec; [left | exact E].
  - discriminate.
  - destruct (ser_props rec ps) eqn:E'; simpl; try discriminate.
    exfalso. apply IH; [ | reflexivity]. intros k' e' He'. eapply Hrec. by right.
Qed.

(** The recursion bound of [JSON_stringify] is never met: the objects
    on the stack are distinct cells of the store. *)
Lemma serialize_total fuel h stack v :
  NoDup stack → (∀ l, l ∈ stack → l < length h) →
  length h < fuel + length stack →
  serialize fuel h stack v ≠ RFuel.
Proof.
  revert stack v. induction fuel as [ | fuel IH]; intros stack v Hnd Hlt Hfuel.
  - pose proof (NoDup_bounded_length stack (length h) Hnd Hlt). simpl in Hfuel. lia.
  - destruct v as [ | | b | f | s | l]; simpl; try discriminate.
    destruct (decide (l ∈ stack)) as [Hin | Hnin]; [discriminate | ].
    destruct (h !! l) as [[es | ps] | ] eqn:El; [ | | discriminate].
    + assert (Hrec : ∀ e, serialize fuel h (l :: stack) e ≠ RFuel).
      { intros e. apply IH.
        - by constructor.
        - intros l' [-> | Hl']%elem_of_cons; [by eapply lookup_lt_Some | auto].
        - simpl. lia. }
      pose proof (ser_elems_total _ es (λ e _, Hrec e)) as Hes.
      destruct (ser_elems _ es); simpl; congruence.
    + assert (Hrec : ∀ e, serialize fuel h (l :: stack) e ≠ RFuel).
      { intros e. apply IH.
        - by constructor.
        - intros l' [-> | Hl']%elem_of_cons; [by eapply lookup_lt_Some | auto].
        - simpl. lia. }
      pose proof (ser_props_total _ ps (λ _ e _, Hrec e)) as Hps.
      destruct (ser_props _ ps); simpl; congruence.
Qed.

Lemma JSON_stringify_total h v : JSON_stringify h v ≠ RFuel.
Proof.
  apply serialize_total; [constructor | | simpl; lia].
  intros l Hl. by apply elem_of_nil in Hl.
Qed.

Lemma ser_elems_rep (rec : val → res (option json)) lo h items es :
  Forall2 (rep lo h) items es →
  Forall (λ j, ∀ v, rep lo h j v → rec v = RRet (Some (norm j))) items →
  ser_elems rec es = RRet (map norm items).
Proof.
  induction 1 as [ | j e items es Hje _ IH]; intros HF; simpl; [reflexivity | ].
  inversion HF as [ | ? ? Hj HF']; subst.
  rewrite (Hj e Hje). simpl. rewrite (IH HF'). reflexivity.
Qed.

Lemma ser_props_rep (rec : val → res (option json)) lo h ms ps :
  Forall2 (λ m p, m.1 = p.1 ∧ rep lo h m.2 p.2) ms ps →
  Forall (λ m, ∀ v, rep lo h m.2 v → rec v = RRet (Some (norm m.2))) ms →
  ser_props rec ps = RRet (map (λ m, (m.1, norm m.2)) ms).
Proof.
  induction 1 as [ | [k j] [k' e] ms ps [Hk Hje] _ IH]; intros HF; simpl in *;
    [reflexivity | ].
  inversion HF as [ | ? ? Hj HF']; subst.
  rewrite (Hj e Hje). simpl. rewrite (IH HF'). reflexivity.
Qed.

(** Serializing a value that holds a tree gives the tree's round trip:
    no cycle is met and nothing is [undefined]. *)
Lemma serialize_rep j :
  ∀ lo h v fuel stack,
    rep lo h j v →
    NoDup stack →
    (∀ l, l ∈ stack →
       l < length h ∧ ∃ jl, rep 0 h jl (VRef l) ∧ depth j < depth jl) →
    length h < fuel + length stack →
    serialize fuel h stack v = RRet (Some (norm j)).
Proof.
  induction j as [ | b | f | s | items IH | ms IH] using json_strong_ind;
    intros lo h v fuel stack Hrep Hnd Hst Hfuel;
    inversion Hrep as [ | | | | ? l es Hlo Hl Hes | ? l ps Hlo Hl Hps]; subst;
    try (destruct fuel; reflexivity).
  - destruct fuel as [ | fuel].
    { pose proof (NoDup_bounded_length stack (length h) Hnd
                    (λ l Hl, proj1 (Hst l Hl))). simpl in Hfuel. lia. }
    simpl. destruct (decide (l ∈ stack)) as [Hin | Hnin].
    { destruct (Hst l Hin) as (_ & jl & Hjl & Hd).
      pose proof (rep_functional _ _ _ _ _ _ Hrep Hjl) as <-. lia. }
    rewrite Hl.
    erewrite ser_elems_rep; [reflexivity | eassumption | ].
    apply Forall_forall. intros j Hj v Hv.
    rewrite Forall_forall in IH. eapply IH; [exact Hj | exact Hv | | | ].
    + by constructor.
    + intros l' [-> | Hl']%elem_of_cons.
      * split; [by eapply lookup_lt_Some | ].
        exists (JArr items). split; [by eapply rep_weaken; [exact Hrep | lia] | ].
        by apply depth_item.
      * destruct (Hst l' Hl') as (Hlt & jl & Hjl & Hd).
        split; [exact Hlt | ]. exists jl. split; [exact Hjl | ].
        pose proof (depth_item j items Hj). lia.
    + simpl. lia.
  - destruct fuel as [ | fuel].
    { pose proof (NoDup_bounded_length stack (length h) Hnd
                    (λ l Hl, proj1 (Hst l Hl))). simpl in Hfuel. lia. }
    simpl. destruct (decide (l ∈ stack)) as [Hin | Hnin].
    { destruct (Hst l Hin) as (_ & jl & Hjl & Hd).
      pose proof (rep_functional _ _ _ _ _ _ Hrep Hjl) as <-. lia. }
    rewrite Hl.
    erewrite ser_props_rep; [reflexivity | eassumption | ].
    apply Forall_forall. intros [k j] Hj v Hv.
    rewrite Forall_forall in IH. eapply (IH _ Hj); [exact Hv | | | ].
    + by constructor.
    + intros l' [-> | Hl']%elem_of_cons.
      * split; [by eapply lookup_lt_Some | ].
        exists (JObj ms). split; [by eapply rep_weaken; [exact Hrep | lia] | ].
        by eapply depth_member.
      * destruct (Hst l' Hl') as (Hlt & jl & Hjl & Hd).
        split; [exact Hlt | ]. exists jl. split; [exact Hjl | ].
        pose proof (depth_member k j ms Hj). simpl in *. lia.
    + simpl. lia.
Qed.

Lemma JSON_stringify_rep lo h j v :
  rep lo h j v → JSON_stringify h v = RRet (Some (norm j)).
Proof.
  intros Hrep. eapply serialize_rep; [exact Hrep | constructor | | simpl; lia].
  intros l Hl. by apply elem_of_nil in Hl.
Qed.

(* ----------------------------------------------------------------- *)
(** ** clone and pushChange *)

(** Cloning a value that holds a tree builds the tree's round trip in
    new cells. *)
Lemma clone_rep lo h j v :
  rep lo h j v →
  ∃ ext v', clone h v = (h ++ ext, v') ∧ rep (length h) (h ++ ext) (norm j) v'.
Proof.
  intros Hrep. unfold clone. rewrite (JSON_stringify_rep _ _ _ _ Hrep).
  apply alloc_rep.
Qed.

Lemma clone_orep lo h o v :
  orep lo h o v →
  ∃ ext v', clone h v = (h ++ ext, v') ∧
            orep (length h) (h ++ ext) (norm <$> o) v'.
Proof.
  destruct o as [j | ]; simpl.
  - apply clone_rep.
  - intros ->. exists [], VUndef. rewrite app_nil_r. split; reflexivity.
Qed.

Lemma pushChange_rep lo h acc pathArr ob oa b a :
  orep lo h ob b → orep lo h oa a →
  ∃ ext r,
    pushChange h acc pathArr b a = (h ++ ext, acc ++ [r]) ∧
    row_rep (length h) (h ++ ext)
      (join (js ".") pathArr, norm <$> ob, norm <$> oa) r.
Proof.
  intros Hb Ha. unfold pushChange.
  destruct (clone_orep _ _ _ _ Hb) as (e1 & b' & Eb & Hb').
  rewrite Eb.
  destruct (clone_orep lo (h ++ e1) oa a) as (e2 & a' & Ea & Ha').
  { eapply orep_mono; [exact Ha | lia]. }
  rewrite Ea. exists (e1 ++ e2), (Change (join (js ".") pathArr) b' a').
  rewrite app_assoc. split; [reflexivity | ].
  split; [reflexivity | ]. simpl. split.
  - eapply orep_mono; [exact Hb' | lia].
  - eapply orep_mono with (ext := []) in Ha'; [ | reflexivity].
    rewrite app_nil_r in Ha'.
    destruct (norm <$> oa); simpl in *; [ | exact Ha'].
    eapply rep_weaken; [exact Ha' | rewrite length_app; lia].
Qed.

(* ----------------------------------------------------------------- *)
(** ** The walks against the walks on trees *)

Lemma row_rep_mono lo lo' h ext p r :
  row_rep lo h p r → lo' ≤ lo → row_rep lo' (h ++ ext) p r.
Proof.
  intros (Hp & Hb & Ha) Hle. repeat split; [exact Hp | | ];
    by eapply orep_mono.
Qed.

Lemma rows_rep_mono lo lo' h ext ps rs :
  Forall2 (row_rep lo h) ps rs → lo' ≤ lo →
  Forall2 (row_rep lo' (h ++ ext)) ps rs.
Proof.
  intros H Hle. eapply Forall2_impl; [exact H | ].
  intros p r Hr. by eapply row_rep_mono.
Qed.

Lemma is_zero_rep lo h o v : orep lo h o v → is_zero v = ojzero o.
Proof.
  destruct o as [j | ]; simpl; [ | by intros ->].
  by inversion 1.
Qed.

Lemma get_rep lo h ms ps k :
  Forall2 (λ m p, m.1 = p.1 ∧ rep lo h m.2 p.2) ms ps →
  orep lo h (jget ms k) (get ps k).
Proof.
  induction 1 as [ | [k1 j] [k2 v] ms ps [Hk Hr] _ IH]; simpl in *;
    [reflexivity | ].
  subst k2. destruct (decide (k1 = k)); [exact Hr | exact IH].
Qed.

Lemma marker_rep lo h ms ps :
  Forall2 (λ m p, m.1 = p.1 ∧ rep lo h m.2 p.2) ms ps →
  is_str_a (get ps (js "_t")) = jmarker ms.
Proof.
  intros H. pose proof (get_rep _ _ _ _ (js "_t") H) as Hg.
  unfold jmarker. destruct (jget ms (js "_t")) as [j | ]; simpl in Hg.
  - by inversion Hg.
  - by rewrite Hg.
Qed.

Lemma treeWalk_obj keep fallback ms path_ :
  treeWalk keep fallback (JObj ms) path_ =
  flat_map (treeEntry keep fallback (jmarker ms) path_) ms.
Proof.
  simpl. generalize (jmarker ms) as arr. intros arr.
  induction ms as [ | [k e] ms IH]; [reflexivity | ].
  simpl. rewrite <- IH. unfold treeEntry; simpl.
  destruct (decide (k = js "_t")); [reflexivity | ].
  destruct e; reflexivity.
Qed.

Lemma as_array_rep lo h items v :
  rep lo h (JArr items) v →
  ∃ es, as_array h v = Some es ∧ Forall2 (rep lo h) items es.
Proof. inversion 1; subst. simpl. eexists. split; [by simplify_option_eq | done]. Qed.

Lemma as_object_rep lo h ms v :
  rep lo h (JObj ms) v →
  as_array h v = None ∧
  ∃ ps, as_object h v = Some ps ∧
        Forall2 (λ m p, m.1 = p.1 ∧ rep lo h m.2 p.2) ms ps.
Proof.
  inversion 1; subst. simpl. split; [by simplify_option_eq | ].
  eexists. split; [by simplify_option_eq | done].
Qed.

Lemma as_object_rep_other lo h j v :
  rep lo h j v → (∀ ms, j ≠ JObj ms) → as_object h v = None.
Proof.
  inversion 1; subst; intros Hne; simpl; try reflexivity.
  - by simplify_option_eq.
  - by destruct (Hne members).
Qed.

(** The two loop bodies on an array entry, by the shape of the array. *)
Lemma objectEntry_array rec pathArr h acc k v es :
  k ≠ js "_t" → as_array h v = Some es →
  objectEntry rec pathArr (h, acc) (k, v) =
  match es with
  | [] => Some (h, acc)
  | [a] => Some (pushChange h acc (pathArr ++ [k]) VUndef a)
  | [b; a] => Some (pushChange h acc (pathArr ++ [k]) b a)
  | b :: e1 :: e2 :: _ =>
      if is_zero e1 && is_zero e2
      then Some (pushChange h acc (pathArr ++ [k]) b VUndef)
      else Some (pushChange h acc (pathArr ++ [k]) b e1)
  end.
Proof.
  intros Hk Ea. unfold objectEntry.
  destruct (decide (k = js "_t")); [done | ]. rewrite Ea.
  destruct es as [ | ? [ | ? [ | ? ?]]]; reflexivity.
Qed.

Lemma arrayEntry_array rec pathArr h acc k v es :
  k ≠ js "_t" → as_array h v = Some es →
  arrayEntry rec pathArr (h, acc) (k, v) =
  match es with
  | [] => Some (h, acc)
  | [a] => Some (pushChange h acc (pathArr ++ [strip_underscore k]) VUndef a)
  | [b; a] => Some (pushChange h acc (pathArr ++ [strip_underscore k]) b a)
  | b :: e1 :: e2 :: _ =>
      if is_zero e1 && is_zero e2
      then Some (pushChange h acc (pathArr ++ [strip_underscore k]) b VUndef)
      else Some (h, acc)
  end.
Proof.
  intros Hk Ea. unfold arrayEntry.
  destruct (decide (k = js "_t")); [done | ]. rewrite Ea.
  destruct es as [ | ? [ | ? [ | ? ?]]]; reflexivity.
Qed.

Lemma objectLeaf_shape keep fallback p es :
  objectLeaf keep fallback p es =
  match es with
  | [] => []
  | [a] => [(p, None, Some (keep a))]
  | [b; a] => [(p, Some (keep b), Some (keep a))]
  | b :: e1 :: e2 :: _ =>
      if ojzero (Some e1) && ojzero (Some e2) then [(p, Some (keep b), None)]
      else if fallback then [(p, Some (keep b), Some (keep e1))]
      else []
  end.
Proof. destruct es as [ | ? [ | ? [ | ? ?]]]; reflexivity. Qed.

Lemma arrayLeaf_shape keep p es :
  arrayLeaf keep p es =
  match es with
  | [] => []
  | [a] => [(p, None, Some (keep a))]
  | [b; a] => [(p, Some (keep b), Some (keep a))]
  | b :: e1 :: e2 :: _ =>
      if ojzero (Some e1) && ojzero (Some e2) then [(p, Some (keep b), None)]
      else []
  end.
Proof. destruct es as [ | ? [ | ? [ | ? ?]]]; reflexivity. Qed.

Section WalkDelta.

Variable lo : nat.
Variable fuel' : nat.

(** The walk one level down, as the induction gives it. *)
Hypothesis IHwalk :
  ∀ j h delta pathArr acc,
    rep 0 h j delta → depth j < fuel' → lo ≤ length h →
    ∃ ext new,
      walkDelta fuel' h delta pathArr acc = Some (h ++ ext, acc ++ new) ∧
      Forall2 (row_rep lo (h ++ ext)) (treeWalk norm true j pathArr) new.

Lemma pushChange_row h acc pathArr ob oa b a :
  orep 0 h ob b → orep 0 h oa a → lo ≤ length h →
  ∃ ext new,
    Some (pushChange h acc pathArr b a) = Some (h ++ ext, acc ++ new) ∧
    Forall2 (row_rep lo (h ++ ext))
      [(join (js ".") pathArr, norm <$> ob, norm <$> oa)] new.
Proof.
  intros Hb Ha Hlo.
  destruct (pushChange_rep 0 h acc pathArr ob oa b a Hb Ha)
    as (ext & r & E & Hr).
  exists ext, [r]. rewrite E. split; [reflexivity | ].
  constructor; [ | constructor].
  rewrite <- (app_nil_r (h ++ ext)). by eapply row_rep_mono.
Qed.

Lemma no_row h (acc : list change) :
  ∃ ext new,
    Some (h, acc) = Some (h ++ ext, acc ++ new) ∧
    Forall2 (row_rep lo (h ++ ext)) [] new.
Proof. exists [], []. rewrite !app_nil_r. split; [reflexivity | constructor]. Qed.

Lemma objectEntry_rep h acc pathArr m p :
  m.1 = p.1 → rep 0 h m.2 p.2 → depth m.2 < fuel' → lo ≤ length h →
  ∃ ext new,
    objectEntry (walkDelta fuel') pathArr (h, acc) p
      = Some (h ++ ext, acc ++ new) ∧
    Forall2 (row_rep lo (h ++ ext)) (treeEntry norm true false pathArr m) new.
Proof.
  destruct m as [k j], p as [k' v]; cbn [fst snd]. intros <- Hrep Hd Hlo.
  unfold treeEntry; cbn [fst snd].
  destruct (decide (k = js "_t")) as [-> | Hk]; [apply no_row | ].
  destruct j as [ | b | f | s | items | ms].
  1-4: unfold objectEntry; destruct (decide (k = js "_t")); [done | ];
       inversion Hrep; subst; apply no_row.
  - destruct (as_array_rep _ _ _ _ Hrep) as (es & Ea & Hes).
    rewrite (objectEntry_array _ _ _ _ _ _ _ Hk Ea), objectLeaf_shape.
    destruct Hes as [ | j0 e0 ? ? H0 Hes]; [apply no_row | ].
    destruct Hes as [ | j1 e1 ? ? H1 Hes];
      [apply (pushChange_row _ _ _ None (Some j0)); done | ].
    destruct Hes as [ | j2 e2 ? ? H2 Hes];
      [apply (pushChange_row _ _ _ (Some j0) (Some j1)); done | ].
    rewrite (is_zero_rep 0 h (Some j1) e1 H1).
    rewrite (is_zero_rep 0 h (Some j2) e2 H2).
    destruct (ojzero (Some j1) && ojzero (Some j2)).
    + apply (pushChange_row _ _ _ (Some j0) None); done.
    + apply (pushChange_row _ _ _ (Some j0) (Some j1)); done.
  - destruct (as_object_rep _ _ _ _ Hrep) as (Ea & ps & Eo & _).
    unfold objectEntry, isObject.
    destruct (decide (k = js "_t")); [done | ].
    rewrite Ea, Eo. by apply IHwalk.
Qed.

Lemma arrayEntry_rep h acc pathArr m p :
  m.1 = p.1 → rep 0 h m.2 p.2 → depth m.2 < fuel' → lo ≤ length h →
  ∃ ext new,
    arrayEntry (walkDelta fuel') pathArr (h, acc) p
      = Some (h ++ ext, acc ++ new) ∧
    Forall2 (row_rep lo (h ++ ext)) (treeEntry norm true true pathArr m) new.
Proof.
  destruct m as [k j], p as [k' v]; cbn [fst snd]. intros <- Hrep Hd Hlo.
  unfold treeEntry; cbn [fst snd].
  destruct (decide (k = js "_t")) as [-> | Hk]; [apply no_row | ].
  destruct j as [ | b | f | s | items | ms].
  1-4: unfold arrayEntry; destruct (decide (k = js "_t")); [done | ];
       inversion Hrep; subst; apply no_row.
  - destruct (as_array_rep _ _ _ _ Hrep) as (es & Ea & Hes).
    rewrite (arrayEntry_array _ _ _ _ _ _ _ Hk Ea), arrayLeaf_shape.
    destruct Hes as [ | j0 e0 ? ? H0 Hes]; [apply no_row | ].
    destruct Hes as [ | j1 e1 ? ? H1 Hes];
      [apply (pushChange_row _ _ _ None (Some j0)); done | ].
    destruct Hes as [ | j2 e2 ? ? H2 Hes];
      [apply (pushChange_row _ _ _ (Some j0) (Some j1)); done | ].
    rewrite (is_zero_rep 0 h (Some j1) e1 H1).
    rewrite (is_zero_rep 0 h (Some j2) e2 H2).
    destruct (ojzero (Some j1) && ojzero (Some j2)); [ | apply no_row].
    apply (pushChange_row _ _ _ (Some j0) None); done.
  - destruct (as_object_rep _ _ _ _ Hrep) as (Ea & ps & Eo & _).
    unfold arrayEntry, isObject.
    destruct (decide (k = js "_t")); [done | ].
    rewrite Ea, Eo. by apply IHwalk.
Qed.

Lemma fold_entries_rep
    (step : list jsstring → state → jsstring * val → option state)
    (tree : list jsstring → jsstring * json → list prow) pathArr :
  (∀ h acc m p,
     m.1 = p.1 → rep 0 h m.2 p.2 → depth m.2 < fuel' → lo ≤ length h →
     ∃ ext new,
       step pathArr (h, acc) p = Some (h ++ ext, acc ++ new) ∧
       Forall2 (row_rep lo (h ++ ext)) (tree pathArr m) new) →
  ∀ ms ps h acc,
    Forall2 (λ m p, m.1 = p.1 ∧ rep 0 h m.2 p.2) ms ps →
    Forall (λ m, depth m.2 < fuel') ms → lo ≤ length h →
    ∃ ext new,
      foldM (step pathArr) ps (h, acc) = Some (h ++ ext, acc ++ new) ∧
      Forall2 (row_rep lo (h ++ ext)) (flat_map (tree pathArr) ms) new.
Proof.
  intros Hstep ms. induction ms as [ | m ms IH]; intros ps h acc H2 Hd Hlo;
    inversion H2 as [ | ? p ? ps' [Hk Hr] H2']; subst; simpl.
  - apply no_row.
  - inversion Hd as [ | ? ? Hdm Hd']; subst.
    destruct (Hstep h acc m p Hk Hr Hdm Hlo) as (e1 & n1 & E1 & R1).
    rewrite E1.
    destruct (IH ps' (h ++ e1) (acc ++ n1)) as (e2 & n2 & E2 & R2).
    + eapply Forall2_impl; [exact H2' | ].
      intros m' p' [Hk' Hr']. split; [exact Hk' | by eapply rep_mono].
    + exact Hd'.
    + rewrite length_app. lia.
    + exists (e1 ++ e2), (n1 ++ n2). rewrite E2, !app_assoc.
      split; [reflexivity | ]. apply Forall2_app; [ | exact R2].
      by eapply rows_rep_mono.
Qed.

End WalkDelta.

Lemma json_obj_or_not j : (∃ ms, j = JObj ms) ∨ (∀ ms, j ≠ JObj ms).
Proof. destruct j; try (by right); left; by eexists. Qed.

Lemma depth_members ms fuel :
  depth (JObj ms) < S fuel → Forall (λ m, depth m.2 < fuel) ms.
Proof.
  intros Hd. apply Forall_forall. intros [k j] Hin.
  pose proof (depth_member k j ms Hin). simpl in *. lia.
Qed.

(** [walkDelta] on a delta that holds a tree: it returns, the store
    only grows, and the rows appended hold, in new cells, the rows of
    the walk on the tree. *)
Lemma walkDelta_rep fuel :
  ∀ lo j h delta pathArr acc,
    rep 0 h j delta → depth j < fuel → lo ≤ length h →
    ∃ ext new,
      walkDelta fuel h delta pathArr acc = Some (h ++ ext, acc ++ new) ∧
      Forall2 (row_rep lo (h ++ ext)) (treeWalk norm true j pathArr) new.
Proof.
  induction fuel as [ | fuel IH]; intros lo j h delta pathArr acc Hrep Hd Hlo;
    [lia | ].
  destruct (json_obj_or_not j) as [[ms ->] | Hno].
  - destruct (as_object_rep _ _ _ _ Hrep) as (_ & ps & Eo & Hps).
    cbn [walkDelta]. rewrite Eo, (marker_rep _ _ _ _ Hps), treeWalk_obj.
    destruct (jmarker ms).
    + eapply (fold_entries_rep lo fuel (arrayEntry (walkDelta fuel))
                (treeEntry norm true true));
        [ | exact Hps | by apply depth_members | exact Hlo].
      intros. by apply arrayEntry_rep; [apply IH | ..].
    + eapply (fold_entries_rep lo fuel (objectEntry (walkDelta fuel))
                (treeEntry norm true false));
        [ | exact Hps | by apply depth_members | exact Hlo].
      intros. by apply objectEntry_rep; [apply IH | ..].
  - cbn [walkDelta]. rewrite (as_object_rep_other _ _ _ _ Hrep).
    + replace (treeWalk norm true j pathArr) with (@nil prow);
        [apply no_row | ].
      destruct j; try reflexivity. by destruct (Hno members).
    + exact Hno.
Qed.

Lemma falsy_primitive lo h j v :
  rep lo h j v → truthy v = false → ∀ keep fallback path_,
  treeWalk keep fallback j path_ = [].
Proof. inversion 1; subst; simpl; intros; (reflexivity || discriminate). Qed.

(** [flattenJsonDiff] on a delta that holds a tree. *)
Lemma flattenJsonDiff_rep fuel h j delta :
  rep 0 h j delta → depth j < fuel →
  ∃ ext rs,
    flattenJsonDiff fuel h delta = Some (h ++ ext, rs) ∧
    Forall2 (row_rep (length h) (h ++ ext)) (treeWalk norm true j []) rs.
Proof.
  intros Hrep Hd. unfold flattenJsonDiff, or_empty.
  destruct (truthy delta) eqn:Et.
  - destruct (walkDelta_rep fuel (length h) j h delta [] [] Hrep Hd)
      as (ext & new & E & Hnew); [done | ].
    exists ext, new. split; [exact E | exact Hnew].
  - rewrite (falsy_primitive _ _ _ _ Hrep Et).
    exists [OObj []], []. split; [ | constructor].
    destruct fuel as [ | fuel]; [lia | ]. cbn [walkDelta as_object].
    rewrite list_lookup_middle; reflexivity.
Qed.

(* ----------------------------------------------------------------- *)
(** ** flattenDelta against the walk on trees *)

Lemma walkObjectEntry_array rec h path_ acc k v es :
  k ≠ js "_t" → as_array h v = Some es →
  walkObjectEntry rec h path_ acc (k, v) =
  match es with
  | [] => Some acc
  | [a] => Some (acc ++ [Change (join (js ".") (path_ ++ [k])) VUndef a])
  | [b; a] => Some (acc ++ [Change (join (js ".") (path_ ++ [k])) b a])
  | b :: e1 :: e2 :: _ =>
      if is_zero e1 && is_zero e2
      then Some (acc ++ [Change (join (js ".") (path_ ++ [k])) b VUndef])
      else Some acc
  end.
Proof.
  intros Hk Ea. unfold walkObjectEntry.
  destruct (decide (k = js "_t")); [done | ]. rewrite Ea.
  destruct es as [ | ? [ | ? [ | ? ?]]]; reflexivity.
Qed.

Lemma walkArrayEntry_array rec h path_ acc k v es :
  k ≠ js "_t" → as_array h v = Some es →
  walkArrayEntry rec h path_ acc (k, v) =
  match es with
  | [] => Some acc
  | [a] =>
      Some (acc ++ [Change (join (js ".") (path_ ++ [strip_underscore k])) VUndef a])
  | [b; a] =>
      Some (acc ++ [Change (join (js ".") (path_ ++ [strip_underscore k])) b a])
  | b :: e1 :: e2 :: _ =>
      if is_zero e1 && is_zero e2
      then Some (acc ++ [Change (join (js ".") (path_ ++ [strip_underscore k])) b VUndef])
      else Some acc
  end.
Proof.
  intros Hk Ea. unfold walkArrayEntry.
  destruct (decide (k = js "_t")); [done | ]. rewrite Ea.
  destruct es as [ | ? [ | ? [ | ? ?]]]; reflexivity.
Qed.

Section Walk.

Variable lo : nat.
Variable h : heap.
Variable fuel' : nat.

Hypothesis IHwalk :
  ∀ j d path_ acc,
    rep lo h j d → depth j < fuel' →
    ∃ new,
      walk fuel' h d path_ acc = Some (acc ++ new) ∧
      Forall2 (row_rep lo h) (treeWalk id false j path_) new.

Lemma same_rows (acc : list change) :
  ∃ new, Some acc = Some (acc ++ new) ∧ Forall2 (row_rep lo h) [] new.
Proof. exists []. rewrite app_nil_r. split; [reflexivity | constructor]. Qed.

Lemma one_row (acc : list change) p ob oa b a :
  orep lo h ob b → orep lo h oa a →
  ∃ new,
    Some (acc ++ [Change p b a]) = Some (acc ++ new) ∧
    Forall2 (row_rep lo h) [(p, ob, oa)] new.
Proof.
  intros Hb Ha. exists [Change p b a]. split; [reflexivity | ].
  constructor; [ | constructor]. by repeat split.
Qed.

Lemma walkObjectEntry_rep acc path_ m p :
  m.1 = p.1 → rep lo h m.2 p.2 → depth m.2 < fuel' →
  ∃ new,
    walkObjectEntry (walk fuel' h) h path_ acc p = Some (acc ++ new) ∧
    Forall2 (row_rep lo h) (treeEntry id false false path_ m) new.
Proof.
  destruct m as [k j], p as [k' v]; cbn [fst snd]. intros <- Hrep Hd.
  unfold treeEntry; cbn [fst snd].
  destruct (decide (k = js "_t")) as [-> | Hk]; [apply same_rows | ].
  destruct j as [ | b | f | s | items | ms].
  1-4: unfold walkObjectEntry; destruct (decide (k = js "_t")); [done | ];
       inversion Hrep; subst; apply same_rows.
  - destruct (as_array_rep _ _ _ _ Hrep) as (es & Ea & Hes).
    rewrite (walkObjectEntry_array _ _ _ _ _ _ _ Hk Ea), objectLeaf_shape.
    destruct Hes as [ | j0 e0 ? ? H0 Hes]; [apply same_rows | ].
    destruct Hes as [ | j1 e1 ? ? H1 Hes];
      [by apply (one_row _ _ None (Some j0)) | ].
    destruct Hes as [ | j2 e2 ? ? H2 Hes];
      [by apply (one_row _ _ (Some j0) (Some j1)) | ].
    rewrite (is_zero_rep lo h (Some j1) e1 H1).
    rewrite (is_zero_rep lo h (Some j2) e2 H2).
    destruct (ojzero (Some j1) && ojzero (Some j2)); [ | apply same_rows].
    by apply (one_row _ _ (Some j0) None).
  - destruct (as_object_rep _ _ _ _ Hrep) as (Ea & ps & Eo & _).
    unfold walkObjectEntry, isObject.
    destruct (decide (k = js "_t")); [done | ].
    rewrite Ea, Eo. by apply IHwalk.
Qed.

Lemma walkArrayEntry_rep acc path_ m p :
  m.1 = p.1 → rep lo h m.2 p.2 → depth m.2 < fuel' →
  ∃ new,
    walkArrayEntry (walk fuel' h) h path_ acc p = Some (acc ++ new) ∧
    Forall2 (row_rep lo h) (treeEntry id false true path_ m) new.
Proof.
  destruct m as [k j], p as [k' v]; cbn [fst snd]. intros <- Hrep Hd.
  unfold treeEntry; cbn [fst snd].
  destruct (decide (k = js "_t")) as [-> | Hk]; [apply same_rows | ].
  destruct j as [ | b | f | s | items | ms].
  1-4: unfold walkArrayEntry; destruct (decide (k = js "_t")); [done | ];
       inversion Hrep; subst; apply same_rows.
  - destruct (as_array_rep _ _ _ _ Hrep) as (es & Ea & Hes).
    rewrite (walkArrayEntry_array _ _ _ _ _ _ _ Hk Ea), arrayLeaf_shape.
    destruct Hes as [ | j0 e0 ? ? H0 Hes]; [apply same_rows | ].
    destruct Hes as [ | j1 e1 ? ? H1 Hes];
      [by apply (one_row _ _ None (Some j0)) | ].
    destruct Hes as [ | j2 e2 ? ? H2 Hes];
      [by apply (one_row _ _ (Some j0) (Some j1)) | ].
    rewrite (is_zero_rep lo h (Some j1) e1 H1).
    rewrite (is_zero_rep lo h (Some j2) e2 H2).
    destruct (ojzero (Some j1) && ojzero (Some j2)); [ | apply same_rows].
    by apply (one_row _ _ (Some j0) None).
  - destruct (as_object_rep _ _ _ _ Hrep) as (Ea & ps & Eo & _).
    unfold walkArrayEntry, isObject.
    destruct (decide (k = js "_t")); [done | ].
    rewrite Ea, Eo. by apply IHwalk.
Qed.

Lemma fold_walk_rep
    (step : list jsstring → list change → jsstring * val → option (list change))
    (tree : list jsstring → jsstring * json → list prow) path_ :
  (∀ acc m p,
     m.1 = p.1 → rep lo h m.2 p.2 → depth m.2 < fuel' →
     ∃ new,
       step path_ acc p = Some (acc ++ new) ∧
       Forall2 (row_rep lo h) (tree path_ m) new) →
  ∀ ms ps acc,
    Forall2 (λ m p, m.1 = p.1 ∧ rep lo h m.2 p.2) ms ps →
    Forall (λ m, depth m.2 < fuel') ms →
    ∃ new,
      foldM (step path_) ps acc = Some (acc ++ new) ∧
      Forall2 (row_rep lo h) (flat_map (tree path_) ms) new.
Proof.
  intros Hstep ms. induction ms as [ | m ms IH]; intros ps acc H2 Hd;
    inversion H2 as [ | ? p ? ps' [Hk Hr] H2']; subst; simpl.
  - apply same_rows.
  - inversion Hd as [ | ? ? Hdm Hd']; subst.
    destruct (Hstep acc m p Hk Hr Hdm) as (n1 & E1 & R1). rewrite E1.
    destruct (IH ps' (acc ++ n1) H2' Hd') as (n2 & E2 & R2).
    exists (n1 ++ n2). rewrite E2, app_assoc. split; [reflexivity | ].
    by apply Forall2_app.
Qed.

End Walk.

(** [walk] on a delta that holds a tree: its rows carry the values of
    the delta themselves. *)
Lemma walk_rep fuel :
  ∀ lo h j d path_ acc,
    rep lo h j d → depth j < fuel →
    ∃ new,
      walk fuel h d path_ acc = Some (acc ++ new) ∧
      Forall2 (row_rep lo h) (treeWalk id false j path_) new.
Proof.
  induction fuel as [ | fuel IH]; intros lo h j d path_ acc Hrep Hd; [lia | ].
  destruct (json_obj_or_not j) as [[ms ->] | Hno].
  - destruct (as_object_rep _ _ _ _ Hrep) as (_ & ps & Eo & Hps).
    cbn [walk]. rewrite Eo, (marker_rep _ _ _ _ Hps), treeWalk_obj.
    destruct (jmarker ms).
    + eapply (fold_walk_rep lo h fuel
                (walkArrayEntry (walk fuel h) h) (treeEntry id false true));
        [ | exact Hps | by apply depth_members].
      intros. by apply walkArrayEntry_rep; [apply IH | ..].
    + eapply (fold_walk_rep lo h fuel
                (walkObjectEntry (walk fuel h) h) (treeEntry id false false));
        [ | exact Hps | by apply depth_members].
      intros. by apply walkObjectEntry_rep; [apply IH | ..].
  - cbn [walk]. rewrite (as_object_rep_other _ _ _ _ Hrep).
    + replace (treeWalk id false j path_) with (@nil prow);
        [apply same_rows | ].
      destruct j; try reflexivity. by destruct (Hno members).
    + exact Hno.
Qed.

Lemma row_rep_atom lo h p ob oa r b a :
  row_rep lo h (p, ob, oa) r → atom ob = Some b → atom oa = Some a →
  r = Change p b a.
Proof.
  intros (Hp & Hb & Ha) Eb Ea. destruct r as [p' b' a']; simpl in *. subst p'.
  f_equal.
  - destruct ob as [[ | | | | | ] | ]; simpl in *; simplify_eq;
      try reflexivity; by inversion Hb.
  - destruct oa as [[ | | | | | ] | ]; simpl in *; simplify_eq;
      try reflexivity; by inversion Ha.
Qed.

Lemma rows_rep_atoms lo h ps rs :
  Forall2 (row_rep lo h) ps rs →
  ∀ cs,
    Forall2 (λ p c, atom p.1.2 = Some (before c) ∧ atom p.2 = Some (after c)
                    ∧ p.1.1 = path c) ps cs →
    rs = cs.
Proof.
  induction 1 as [ | [[p ob] oa] r ps rs Hr _ IH]; intros cs Hcs;
    inversion Hcs as [ | ? c ? cs' (Hb & Ha & Hp) Hcs']; subst; [reflexivity | ].
  simpl in *. f_equal; [ | by apply IH].
  rewrite (row_rep_atom _ _ _ _ _ _ _ _ Hr Hb Ha). subst p. by destruct c.
Qed.

(** The rows of a delta whose walk on the tree is known and carries no
    array or object. *)
Lemma flattenJsonDiff_atoms fuel h j delta cs :
  rep 0 h j delta → depth j < fuel →
  Forall2 (λ p c, atom p.1.2 = Some (before c) ∧ atom p.2 = Some (after c)
                  ∧ p.1.1 = path c) (treeWalk norm true j []) cs →
  ∃ ext, flattenJsonDiff fuel h delta = Some (h ++ ext, cs).
Proof.
  intros Hrep Hd Hcs.
  destruct (flattenJsonDiff_rep fuel h j delta Hrep Hd) as (ext & rs & E & Hrs).
  exists ext. rewrite E. by rewrite (rows_rep_atoms _ _ _ _ Hrs cs Hcs).
Qed.

Ltac tree_rows := vm_compute; repeat constructor.

(** C1. In an object-delta node, a key (other than the marker key)
    mapped to an array of three or more elements gives one record whose
    path ends in the key and whose [before] is element 0: a removal
    ([after] absent) when elements 1 and 2 are both zero, and otherwise
    a modification whose [after] is element 1. In particular
    [{x: [9,0,0]}] flattens to [{path: "x", before: 9, after: absent}]
    and [{x: [9,1,2]}] to [{path: "x", before: 9, after: 1}]. *)
Theorem C1_object_delta_long_array :
  (∀ fuel h acc pathArr k v b e1 e2 rest,
     k ≠ js "_t" →
     rep 0 h (JArr (b :: e1 :: e2 :: rest)) v → plain b → plain e1 →
     ∃ ext r,
       objectEntry (walkDelta fuel) pathArr (h, acc) (k, v)
         = Some (h ++ ext, acc ++ [r]) ∧
       path r = join (js ".") (pathArr ++ [k]) ∧
       rep (length h) (h ++ ext) b (before r) ∧
       if ojzero (Some e1) && ojzero (Some e2) then after r = VUndef
       else rep (length h) (h ++ ext) e1 (after r)) ∧
  (∀ fuel h delta,
     rep 0 h delta_removed delta → 2 < fuel →
     ∃ ext, flattenJsonDiff fuel h delta
            = Some (h ++ ext, [Change (js "x") (VNum 9) VUndef])) ∧
  (∀ fuel h delta,
     rep 0 h delta_mismatch delta → 2 < fuel →
     ∃ ext, flattenJsonDiff fuel h delta
            = Some (h ++ ext, [Change (js "x") (VNum 9) (VNum 1)])).
Proof.
  split; [ | split].
  - intros fuel h acc pathArr k v b e1 e2 rest Hk Hrep Hb He1.
    destruct (as_array_rep _ _ _ _ Hrep) as (es & Ea & Hes).
    rewrite (objectEntry_array _ _ _ _ _ _ _ Hk Ea).
    inversion Hes as [ | ? v0 ? es0 H0 Hes0]; subst.
    inversion Hes0 as [ | ? v1 ? es1 H1 Hes1]; subst.
    inversion Hes1 as [ | ? v2 ? es2 H2 Hes2]; subst.
    rewrite (is_zero_rep 0 h (Some e1) v1 H1), (is_zero_rep 0 h (Some e2) v2 H2).
    destruct (ojzero (Some e1) && ojzero (Some e2)).
    + destruct (pushChange_rep 0 h acc (pathArr ++ [k]) (Some b) None v0 VUndef)
        as (ext & r & E & Hp & Hbr & Har); [done.. | ].
      exists ext, r. rewrite E. cbn in Hp, Hbr, Har. rewrite Hb in Hbr. done.
    + destruct (pushChange_rep 0 h acc (pathArr ++ [k]) (Some b) (Some e1) v0 v1)
        as (ext & r & E & Hp & Hbr & Har); [done.. | ].
      exists ext, r. rewrite E. cbn in Hp, Hbr, Har.
      rewrite Hb in Hbr. rewrite He1 in Har. done.
  - intros fuel h delta Hrep Hfuel.
    eapply flattenJsonDiff_atoms; [exact Hrep | simpl; lia | tree_rows].
  - intros fuel h delta Hrep Hfuel.
    eapply flattenJsonDiff_atoms; [exact Hrep | simpl; lia | tree_rows].
Qed.

Ltac holds :=
  repeat first [ reflexivity | lia | discriminate | split | econstructor ].

Lemma C1_object_delta_long_array_witness :
  (∃ ext r,
     objectEntry (walkDelta 1) [] (store_removed, []) (js "x", VRef 0)
       = Some (store_removed ++ ext, [] ++ [r]) ∧
     path r = join (js ".") ([] ++ [js "x"]) ∧
     rep (length store_removed) (store_removed ++ ext) (JNum 9) (before r) ∧
     after r = VUndef) ∧
  (∃ ext, flattenJsonDiff 3 store_removed (VRef 1)
          = Some (store_removed ++ ext, [Change (js "x") (VNum 9) VUndef])) ∧
  (∃ ext, flattenJsonDiff 3 store_mismatch (VRef 1)
          = Some (store_mismatch ++ ext, [Change (js "x") (VNum 9) (VNum 1)])).
Proof.
  destruct C1_object_delta_long_array as (H1 & H2 & H3).
  split; [ | split].
  - apply (H1 1 store_removed [] [] (js "x") (VRef 0)
             (JNum 9) (JNum 0) (JNum 0) []); holds.
  - apply (H2 3 store_removed (VRef 1)); holds.
  - apply (H3 3 store_mismatch (VRef 1)); holds.
Defined.

(** C2 as stated fails: both nodes below carry the marker key and differ
    only in the value under it; the first is walked as an array delta
    (the long array without sentinel is dropped), the second as an
    object delta (it is read as a modification). *)
Lemma C2_counterexample :
  get [(js "_t", VStr (js "a")); (js "x", VRef 0)] (js "_t") ≠ VUndef ∧
  get [(js "_t", VStr (js "b")); (js "x", VRef 0)] (js "_t") ≠ VUndef ∧
  flattenJsonDiff 2 store_marker_a (VRef 1) = Some (store_marker_a, []) ∧
  flattenJsonDiff 2 store_marker_b (VRef 1)
    = Some (store_marker_b, [Change (js "x") (VNum 9) (VNum 1)]).
Proof. repeat split; (discriminate || (vm_compute; reflexivity)). Qed.

Lemma is_str_a_spec v : is_str_a v = true ↔ v = VStr (js "a").
Proof.
  destruct v; simpl; try (split; [discriminate | discriminate]).
  rewrite bool_decide_eq_true. split; [by intros -> | by intros [= ->]].
Qed.

Lemma arrayEntry_marker rec pathArr st v :
  arrayEntry rec pathArr st (js "_t", v) = Some st.
Proof. destruct st. reflexivity. Qed.

Lemma objectEntry_marker rec pathArr st v :
  objectEntry rec pathArr st (js "_t", v) = Some st.
Proof. destruct st. reflexivity. Qed.

(** The value under the marker key plays no part in the loops. *)
Lemma foldM_marker_value
    (step : list obj * list change → list N * val
            → option (list obj * list change)) ps ps' :
  (∀ st v, step st (js "_t", v) = Some st) →
  Forall2 (λ p p', p.1 = p'.1 ∧ (p.1 ≠ js "_t" → p.2 = p'.2)) ps ps' →
  ∀ st, foldM step ps st = foldM step ps' st.
Proof.
  intros Hstep. induction 1 as [ | [k v] [k' v'] ps ps' [Hk Hv] _ IH];
    intros st; [reflexivity | ]. simpl in *. subst k'.
  destruct (decide (k = js "_t")) as [-> | Hne].
  - by rewrite !Hstep.
  - rewrite (Hv Hne). destruct (step st (k, v')); [apply IH | reflexivity].
Qed.

(** C2 (amended). A mapping-shaped node is walked as an array delta
    exactly when the value under its marker key is the string ["a"];
    with any other value there, or without the key, it is walked as an
    object delta. Beyond that test the value plays no part: two nodes
    with the same members, apart from the value under the marker key,
    are walked alike when both or neither have ["a"] there. *)
Theorem C2_marker_value_decides fuel h node ps pathArr acc :
  as_object h node = Some ps →
  (get ps (js "_t") = VStr (js "a") →
   walkDelta (S fuel) h node pathArr acc
     = foldM (arrayEntry (walkDelta fuel) pathArr) ps (h, acc)) ∧
  (get ps (js "_t") ≠ VStr (js "a") →
   walkDelta (S fuel) h node pathArr acc
     = foldM (objectEntry (walkDelta fuel) pathArr) ps (h, acc)) ∧
  (∀ node' ps',
     as_object h node' = Some ps' →
     Forall2 (λ p p', p.1 = p'.1 ∧ (p.1 ≠ js "_t" → p.2 = p'.2)) ps ps' →
     (get ps (js "_t") = VStr (js "a") ↔ get ps' (js "_t") = VStr (js "a")) →
     walkDelta (S fuel) h node pathArr acc
       = walkDelta (S fuel) h node' pathArr acc).
Proof.
  intros Eo. cbn [walkDelta]. rewrite Eo. split; [ | split].
  - intros Hm. by rewrite (proj2 (is_str_a_spec _) Hm).
  - intros Hm. destruct (is_str_a (get ps (js "_t"))) eqn:E; [ | reflexivity].
    by apply is_str_a_spec in E.
  - intros node' ps' Eo' Hps Hiff. rewrite Eo'.
    destruct (is_str_a (get ps (js "_t"))) eqn:E.
    + rewrite (proj2 (is_str_a_spec _) (proj1 Hiff (proj1 (is_str_a_spec _) E))).
      apply foldM_marker_value; [apply arrayEntry_marker | exact Hps].
    + destruct (is_str_a (get ps' (js "_t"))) eqn:E'.
      * apply is_str_a_spec, Hiff, is_str_a_spec in E'. congruence.
      * apply foldM_marker_value; [apply objectEntry_marker | exact Hps].
Qed.

Lemma C2_marker_value_decides_witness :
  walkDelta 2 store_marker_a (VRef 1) [] []
    = foldM (arrayEntry (walkDelta 1) [])
        [(js "_t", VStr (js "a")); (js "x", VRef 0)] (store_marker_a, []) ∧
  walkDelta 2 store_marker_b (VRef 1) [] []
    = foldM (objectEntry (walkDelta 1) [])
        [(js "_t", VStr (js "b")); (js "x", VRef 0)] (store_marker_b, []) ∧
  walkDelta 2 store_markers (VRef 1) [] []
    = walkDelta 2 store_markers (VRef 2) [] [].
Proof.
  split; [ | split].
  - apply (C2_marker_value_decides 1 store_marker_a (VRef 1)
             [(js "_t", VStr (js "a")); (js "x", VRef 0)] [] []);
      reflexivity.
  - apply (C2_marker_value_decides 1 store_marker_b (VRef 1)
             [(js "_t", VStr (js "b")); (js "x", VRef 0)] [] []);
      [reflexivity | discriminate].
  - apply (proj2 (proj2 (C2_marker_value_decides 1 store_markers (VRef 1)
             [(js "_t", VStr (js "b")); (js "x", VRef 0)] [] [] eq_refl))
             (VRef 2) [(js "_t", VNum 5%float); (js "x", VRef 0)]).
    + reflexivity.
    + apply List.Forall2_cons; [split; [reflexivity | intros Hne; by destruct Hne] | ].
      apply List.Forall2_cons; [split; reflexivity | apply List.Forall2_nil].
    + split; discriminate.
Defined.

(** C9. Flattening [null], [undefined], or any other value that is not
    a plain object (an array, a number, a string, a boolean) returns the
    empty list of rows; nothing is thrown. *)
Theorem C9_not_a_mapping fuel h delta :
  0 < fuel → as_object h delta = None →
  flattenJsonDiff fuel h delta = Some ((or_empty h delta).1, []).
Proof.
  intros Hfuel Eo. unfold flattenJsonDiff, or_empty.
  destruct fuel as [ | fuel]; [lia | ].
  destruct (truthy delta); cbn [walkDelta fst].
  - by rewrite Eo.
  - cbn [as_object]. rewrite list_lookup_middle; reflexivity.
Qed.

Lemma C9_not_a_mapping_witness :
  flattenJsonDiff 1 [] VNull = Some ([OObj []], []) ∧
  flattenJsonDiff 1 [] VUndef = Some ([OObj []], []) ∧
  flattenJsonDiff 1 [OArr [VNum 1%float]] (VRef 0)
    = Some ([OArr [VNum 1%float]], []) ∧
  flattenJsonDiff 1 [] (VNum 5%float) = Some ([], []) ∧
  flattenJsonDiff 1 [] (VStr (js "x")) = Some ([], []) ∧
  flattenJsonDiff 1 [] (VBool true) = Some ([], []).
Proof.
  split; [ | split; [ | split; [ | split; [ | split]]]].
  - apply (C9_not_a_mapping 1 [] VNull); [lia | reflexivity].
  - apply (C9_not_a_mapping 1 [] VUndef); [lia | reflexivity].
  - apply (C9_not_a_mapping 1 [OArr [VNum 1%float]] (VRef 0)); [lia | reflexivity].
  - apply (C9_not_a_mapping 1 [] (VNum 5%float)); [lia | reflexivity].
  - apply (C9_not_a_mapping 1 [] (VStr (js "x"))); [lia | reflexivity].
  - apply (C9_not_a_mapping 1 [] (VBool true)); [lia | reflexivity].
Defined.

(** C3. [{items: {_t: "a", "1": [7]}}] flattens to the one record
    [{path: "items.1", before: absent, after: 7}], and so does the delta
    with the index key ["_1"]; in an array-delta node, an entry under a
    key with the underscore prefix is treated as the entry under the key
    without it, so it is emitted under the same path. *)
Theorem C3_array_delta_index_keys :
  (∀ fuel h delta marker_first,
     rep 0 h (delta_items (js "1") marker_first) delta → 3 < fuel →
     ∃ ext, flattenJsonDiff fuel h delta
            = Some (h ++ ext, [Change (js "items.1") VUndef (VNum 7)])) ∧
  (∀ fuel h delta marker_first,
     rep 0 h (delta_items (js "_1") marker_first) delta → 3 < fuel →
     ∃ ext, flattenJsonDiff fuel h delta
            = Some (h ++ ext, [Change (js "items.1") VUndef (VNum 7)])) ∧
  (∀ rec pathArr st k v,
     k ≠ js "t" → strip_underscore k = k →
     strip_underscore (js "_" ++ k) = k ∧
     arrayEntry rec pathArr st (js "_" ++ k, v)
       = arrayEntry rec pathArr st (k, v)).
Proof.
  split; [ | split].
  - intros fuel h delta mf Hrep Hfuel.
    eapply flattenJsonDiff_atoms; [exact Hrep | destruct mf; simpl; lia | ].
    destruct mf; tree_rows.
  - intros fuel h delta mf Hrep Hfuel.
    eapply flattenJsonDiff_atoms; [exact Hrep | destruct mf; simpl; lia | ].
    destruct mf; tree_rows.
  - intros rec pathArr [h acc] k v Hk Hstrip. split; [reflexivity | ].
    unfold arrayEntry. change (js "_" ++ k) with (95%N :: k).
    destruct (decide (95%N :: k = js "_t")) as [E | _].
    { injection E as ->. by destruct Hk. }
    destruct (decide (k = js "_t")) as [-> | _]; [discriminate Hstrip | ].
    cbn [strip_underscore]. rewrite Hstrip. reflexivity.
Qed.

Lemma C3_array_delta_index_keys_witness :
  (∃ ext, flattenJsonDiff 4 (store_items (js "1")) (VRef 2)
          = Some (store_items (js "1") ++ ext,
                  [Change (js "items.1") VUndef (VNum 7)])) ∧
  (∃ ext, flattenJsonDiff 4 (store_items (js "_1")) (VRef 2)
          = Some (store_items (js "_1") ++ ext,
                  [Change (js "items.1") VUndef (VNum 7)])) ∧
  arrayEntry (walkDelta 1) [js "items"] (store_items (js "_1"), [])
    (js "_" ++ js "1", VRef 0)
  = arrayEntry (walkDelta 1) [js "items"] (store_items (js "_1"), [])
      (js "1", VRef 0).
Proof.
  destruct C3_array_delta_index_keys as (H1 & H2 & H3).
  split; [ | split].
  - apply (H1 4 (store_items (js "1")) (VRef 2) false); holds.
  - apply (H2 4 (store_items (js "_1")) (VRef 2) false); holds.
  - apply (H3 (walkDelta 1) [js "items"] (store_items (js "_1"), [])
             (js "1") (VRef 0)); [discriminate | reflexivity].
Defined.

Lemma or_empty_truthy h v : truthy (or_empty h v).2 = true.
Proof. unfold or_empty. by destruct (truthy v) eqn:E. Qed.

Lemma or_empty_idem h v :
  or_empty (or_empty h v).1 (or_empty h v).2 = or_empty h v.
Proof.
  pose proof (or_empty_truthy h v) as Ht.
  destruct (or_empty h v) as [h1 d] eqn:E. simpl in *.
  unfold or_empty at 1. by rewrite Ht.
Qed.

(** [flattenJsonDiff(x || {})] is [flattenJsonDiff(x)]. *)
Lemma flattenJsonDiff_or_empty fuel h v :
  (let '(h1, d) := or_empty h v in flattenJsonDiff fuel h1 d)
  = flattenJsonDiff fuel h v.
Proof.
  pose proof (or_empty_idem h v) as E.
  unfold flattenJsonDiff at 2.
  destruct (or_empty h v) as [h1 d]. simpl in E.
  unfold flattenJsonDiff. by rewrite E.
Qed.

(** [flattenJsonDiff] on a delta that holds a tree or is absent. *)
Lemma flattenJsonDiff_orep fuel h o delta :
  orep 0 h o delta → (∀ j, o = Some j → depth j < fuel) → 0 < fuel →
  ∃ ext rs,
    flattenJsonDiff fuel h delta = Some (h ++ ext, rs) ∧
    Forall2 (row_rep (length h) (h ++ ext)) (treeRows o) rs.
Proof.
  intros Hrep Hd Hfuel. destruct o as [j | ]; simpl in *.
  - apply flattenJsonDiff_rep; [exact Hrep | by apply Hd].
  - subst delta. exists [OObj []], []. split; [ | constructor].
    rewrite C9_not_a_mapping; [reflexivity | exact Hfuel | reflexivity].
Qed.

Section Cells.

Variable Number_toString : float → list N.

Lemma stringify_val_orep lo h o v :
  orep lo h o v →
  stringify_val Number_toString h v = Some (cell Number_toString o).
Proof.
  unfold stringify_val. destruct o as [j | ]; simpl.
  - intros Hrep. by rewrite (JSON_stringify_rep _ _ _ _ Hrep).
  - intros ->. reflexivity.
Qed.

Lemma fullRow_rep lo h p r :
  row_rep lo h p r →
  fullRow Number_toString h r = Some (treeFullRow Number_toString p).
Proof.
  intros (Hp & Hb & Ha). unfold fullRow, treeFullRow.
  rewrite (stringify_val_orep _ _ _ _ Hb), (stringify_val_orep _ _ _ _ Ha).
  simpl. by rewrite Hp.
Qed.

Lemma addedRow_rep lo h p r :
  row_rep lo h p r →
  addedRow Number_toString h r = Some (treeAddedRow Number_toString p).
Proof.
  intros (Hp & Hb & Ha). unfold addedRow, treeAddedRow.
  rewrite (stringify_val_orep _ _ _ _ Ha). simpl. by rewrite Hp.
Qed.

Lemma mapM_rows_rep {A} (f : change → option A) (g : prow → A) lo h ps rs :
  (∀ p r, row_rep lo h p r → f r = Some (g p)) →
  Forall2 (row_rep lo h) ps rs → mapM f rs = Some (map g ps).
Proof.
  intros Hfg H. apply mapM_Some. rewrite Forall2_fmap_r.
  apply Forall2_flip. eapply Forall2_impl; [exact H | ].
  intros p r Hr. by apply Hfg.
Qed.

Lemma is_undefined_rep lo h o v :
  orep lo h o v → is_undefined v = bool_decide (o = None).
Proof.
  destruct o as [j | ]; simpl; [ | by intros ->].
  by inversion 1.
Qed.

Lemma filter_additions_rep lo h ps rs :
  Forall2 (row_rep lo h) ps rs →
  Forall2 (row_rep lo h)
    (List.filter (λ p, bool_decide (p.1.2 = None)) ps)
    (List.filter (λ r, is_undefined (before r)) rs).
Proof.
  induction 1 as [ | p r ps rs Hr _ IH]; simpl; [constructor | ].
  destruct Hr as (Hp & Hb & Ha).
  rewrite (is_undefined_rep _ _ _ _ Hb).
  destruct (bool_decide (p.1.2 = None)); [constructor | ]; auto.
  by repeat split.
Qed.

(** The table of additions, for a delta that holds a tree or is absent. *)
Lemma addedTable_rep fuel h o delta :
  orep 0 h o delta → (∀ j, o = Some j → depth j < fuel) → 0 < fuel →
  ∃ ext,
    addedTable Number_toString fuel h delta
    = Some (h ++ ext, treeAddedTable Number_toString o).
Proof.
  intros Hrep Hd Hfuel. unfold addedTable.
  pose proof (flattenJsonDiff_or_empty fuel h delta) as E.
  destruct (or_empty h delta) as [h1 d]. rewrite E.
  destruct (flattenJsonDiff_orep fuel h o delta Hrep Hd Hfuel)
    as (ext & rs & -> & Hrs).
  exists ext. cbv zeta.
  erewrite mapM_rows_rep;
    [reflexivity | apply addedRow_rep | by apply filter_additions_rep].
Qed.

End Cells.

(** C8. In added-only mode the table is named "Added", has the columns
    [Path, New Value], and has exactly one row for each flattened record
    whose [before] is absent, in order (the path and the stringified
    [after]), and none for the others; for a delta with one addition and
    one modification that is the one row of the addition. *)
Theorem C8_added_only (Number_toString : float → list N) :
  (∀ fuel h o delta,
     orep 0 h o delta → (∀ j, o = Some j → depth j < fuel) → 0 < fuel →
     ∃ ext flat t,
       flattenJsonDiff fuel h delta = Some (h ++ ext, flat) ∧
       addedTable Number_toString fuel h delta = Some (h ++ ext, t) ∧
       name t = js "Added" ∧
       columns t = [js "Path"; js "New Value"] ∧
       Forall2
         (λ r row, ∃ c, stringify_val Number_toString (h ++ ext) (after r)
                          = Some c
                        ∧ row = [VStr (path r); c])
         (List.filter (λ r, is_undefined (before r)) flat) (rows t)) ∧
  (∀ fuel h delta,
     rep 0 h delta_add_mod delta → 2 < fuel →
     ∃ ext,
       addedTable Number_toString fuel h delta
       = Some (h ++ ext,
               Table (js "Added") [js "Path"; js "New Value"]
                 [[VStr (js "a"); VStr (Number_toString 5%float)]])) ∧
  (∀ fuel h,
     2 < fuel →
     templateUpload Number_toString fuel h delta_add_mod
     = AddedEntries
         (Table (js "Added") [js "Path"; js "New Value"]
            [[VStr (js "a"); VStr (Number_toString 5%float)]])).
Proof.
  split; [ | split].
  - intros fuel h o delta Hrep Hd Hfuel.
    destruct (flattenJsonDiff_orep fuel h o delta Hrep Hd Hfuel)
      as (ext & rs & E & Hrs).
    destruct (addedTable_rep Number_toString fuel h o delta Hrep Hd Hfuel)
      as (ext' & E').
    assert (Eh : h ++ ext' = h ++ ext).
    { unfold addedTable in E'.
      pose proof (flattenJsonDiff_or_empty fuel h delta) as Eo.
      destruct (or_empty h delta) as [h1 d]. rewrite Eo, E in E'.
      cbv zeta in E'. destruct (mapM _ _) in E'; simpl in E'; congruence. }
    rewrite Eh in E'.
    exists ext, rs, (treeAddedTable Number_toString o).
    repeat split; try assumption.
    simpl. apply Forall2_fmap_r, Forall2_flip.
    eapply Forall2_impl; [apply (filter_additions_rep _ _ _ _ Hrs) | ].
    intros p r (Hp & Hb & Ha). exists (cell Number_toString p.2).
    split; [by eapply stringify_val_orep | ].
    unfold treeAddedRow. by rewrite Hp.
  - intros fuel h delta Hrep Hfuel.
    destruct (addedTable_rep Number_toString fuel h (Some delta_add_mod) delta)
      as (ext & E); [exact Hrep | intros j [= <-]; simpl; lia | lia | ].
    exists ext. rewrite E. vm_compute. reflexivity.
  - intros fuel h Hfuel. unfold templateUpload.
    destruct (alloc_rep delta_add_mod h) as (e0 & v & -> & Hrep).
    destruct (addedTable_rep Number_toString fuel (h ++ e0)
                (Some delta_add_mod) v) as (ext & E);
      [eapply rep_weaken; [exact Hrep | lia]
      | intros j [= <-]; simpl; lia | lia | ].
    change (is_object_type delta_add_mod && negb (isDelta delta_add_mod))
      with false.
    change (is_object_type delta_add_mod) with true. cbv iota.
    rewrite E. vm_compute. reflexivity.
Qed.

Lemma C8_added_only_witness :
  (∃ ext flat t,
     flattenJsonDiff 3 store_add_mod (VRef 2)
       = Some (store_add_mod ++ ext, flat) ∧
     addedTable integer_toString 3 store_add_mod (VRef 2)
       = Some (store_add_mod ++ ext, t) ∧
     name t = js "Added" ∧
     columns t = [js "Path"; js "New Value"] ∧
     Forall2
       (λ r row, ∃ c, stringify_val integer_toString (store_add_mod ++ ext)
                        (after r) = Some c
                      ∧ row = [VStr (path r); c])
       (List.filter (λ r, is_undefined (before r)) flat) (rows t)) ∧
  (∃ ext,
     addedTable integer_toString 3 store_add_mod (VRef 2)
     = Some (store_add_mod ++ ext,
             Table (js "Added") [js "Path"; js "New Value"]
               [[VStr (js "a"); VStr (js "5")]])) ∧
  templateUpload integer_toString 3 [] delta_add_mod
  = AddedEntries
      (Table (js "Added") [js "Path"; js "New Value"]
         [[VStr (js "a"); VStr (js "5")]]).
Proof.
  destruct (C8_added_only integer_toString) as (H1 & H2 & H3).
  split; [ | split].
  - apply (H1 3 store_add_mod (Some delta_add_mod) (VRef 2)).
    + holds.
    + intros j [= <-]. simpl. lia.
    + lia.
  - apply (H2 3 store_add_mod (VRef 2)); holds.
  - apply (H3 3 []). lia.
Defined.

(* ----------------------------------------------------------------- *)
(** ** Grouping by file *)

Lemma first_seen_from_snoc seen ks k :
  first_seen_from seen (ks ++ [k])
  = first_seen_from seen ks ++ (if decide (k ∈ seen ++ ks) then [] else [k]).
Proof.
  revert seen. induction ks as [ | a ks IH]; intros seen; simpl.
  - rewrite app_nil_r. destruct (decide (k ∈ seen)); reflexivity.
  - destruct (decide (a ∈ seen)) as [Ha | Ha].
    + rewrite IH. f_equal.
      destruct (decide (k ∈ seen ++ ks)), (decide (k ∈ seen ++ a :: ks));
        try reflexivity; exfalso; set_solver.
    + simpl. rewrite IH. f_equal. f_equal.
      destruct (decide (k ∈ (a :: seen) ++ ks)), (decide (k ∈ seen ++ a :: ks));
        try reflexivity; exfalso; set_solver.
Qed.

Lemma first_seen_snoc ks k :
  first_seen (ks ++ [k])
  = first_seen ks ++ (if decide (k ∈ ks) then [] else [k]).
Proof. apply first_seen_from_snoc. Qed.

Lemma elem_of_first_seen_from seen ks k :
  k ∈ first_seen_from seen ks ↔ k ∈ ks ∧ k ∉ seen.
Proof.
  revert seen. induction ks as [ | a ks IH]; intros seen; simpl.
  - set_solver.
  - destruct (decide (a ∈ seen)).
    + rewrite IH. set_solver.
    + rewrite elem_of_cons, IH. destruct (decide (k = a)); set_solver.
Qed.

Lemma elem_of_first_seen ks k : k ∈ first_seen ks ↔ k ∈ ks.
Proof. unfold first_seen. rewrite elem_of_first_seen_from. set_solver. Qed.

Lemma NoDup_first_seen_from seen ks : NoDup (first_seen_from seen ks).
Proof.
  revert seen. induction ks as [ | a ks IH]; intros seen; simpl.
  - constructor.
  - destruct (decide (a ∈ seen)); [apply IH | ].
    constructor; [ | apply IH]. rewrite elem_of_first_seen_from. set_solver.
Qed.

Lemma NoDup_first_seen ks : NoDup (first_seen ks).
Proof. apply NoDup_first_seen_from. Qed.

Lemma select_snoc {A} k (recs : list (list N * A)) k' r :
  select k (recs ++ [(k', r)])
  = select k recs ++ (if decide (k' = k) then [r] else []).
Proof.
  unfold select. rewrite List.filter_app, fmap_app. f_equal. simpl.
  destruct (decide (k' = k)) as [-> | Hne].
  - by rewrite bool_decide_eq_true_2.
  - by rewrite bool_decide_eq_false_2.
Qed.

Section Grouping.

Variable g : list N → list change.

Lemma map_has_keys ks k :
  map_has (map (λ f, (f, g f)) ks) k = bool_decide (k ∈ ks).
Proof.
  induction ks as [ | a ks IH]; simpl; [reflexivity | ].
  destruct (decide (a = k)) as [-> | Hne].
  - symmetry. apply bool_decide_eq_true_2. by left.
  - rewrite IH. apply bool_decide_ext. set_solver.
Qed.

Lemma map_set_new ks k v :
  k ∉ ks →
  map_set (map (λ f, (f, g f)) ks) k v = map (λ f, (f, g f)) ks ++ [(k, v)].
Proof.
  induction ks as [ | a ks IH]; intros Hk; simpl; [reflexivity | ].
  destruct (decide (a = k)) as [-> | Hne]; [set_solver | ].
  rewrite IH; [reflexivity | set_solver].
Qed.

Lemma map_push_new ks k v r :
  k ∉ ks →
  map_push (map (λ f, (f, g f)) ks ++ [(k, v)]) k r
  = map (λ f, (f, g f)) ks ++ [(k, v ++ [r])].
Proof.
  induction ks as [ | a ks IH]; intros Hk; simpl.
  - destruct (decide (k = k)); [reflexivity | done].
  - destruct (decide (a = k)) as [-> | Hne]; [set_solver | ].
    rewrite IH; [reflexivity | set_solver].
Qed.

Lemma map_push_present ks k r :
  NoDup ks → k ∈ ks →
  map_push (map (λ f, (f, g f)) ks) k r
  = map (λ f, (f, g f ++ (if decide (k = f) then [r] else []))) ks.
Proof.
  induction 1 as [ | a ks Ha Hnd IH]; intros Hk; [set_solver | ]. simpl.
  destruct (decide (a = k)) as [-> | Hne].
  - destruct (decide (k = k)); [ | done]. f_equal.
    apply map_ext_in. intros f Hf%list_elem_of_In.
    destruct (decide (k = f)) as [-> | _]; [done | by rewrite app_nil_r].
  - destruct (decide (k = a)) as [-> | _]; [done | ].
    rewrite app_nil_r, IH; [reflexivity | set_solver].
Qed.

End Grouping.

Lemma change_eta r : Change (path r) (before r) (after r) = r.
Proof. by destruct r. Qed.

(** Lines 103-104 file one more row. *)
Lemma groupRow_grouped recs f r :
  groupRow f (grouped recs) r = grouped (recs ++ [(f, r)]).
Proof.
  unfold groupRow, grouped. rewrite change_eta, fmap_app. simpl.
  rewrite first_seen_snoc, (map_has_keys (λ f, select f recs)).
  rewrite map_app.
  destruct (decide (f ∈ first_seen recs.*1)) as [Hin | Hnin].
  - rewrite bool_decide_eq_true_2 by exact Hin.
    destruct (decide (f ∈ recs.*1)) as [_ | Hn].
    2: { rewrite elem_of_first_seen in Hin. contradiction. }
    rewrite app_nil_r.
    rewrite (map_push_present (λ f, select f recs));
      [ | apply NoDup_first_seen | exact Hin].
    apply map_ext. intros f'. by rewrite select_snoc.
  - rewrite bool_decide_eq_false_2 by exact Hnin.
    destruct (decide (f ∈ recs.*1)) as [Hy | _];
      [rewrite <- elem_of_first_seen in Hy; contradiction | ].
    rewrite (map_set_new (λ f, select f recs)) by exact Hnin.
    rewrite (map_push_new (λ f, select f recs)) by exact Hnin.
    simpl. rewrite select_snoc. destruct (decide (f = f)); [ | done].
    f_equal; [ | f_equal; f_equal].
    + apply map_ext_in. intros f' Hf'%list_elem_of_In.
      rewrite select_snoc. destruct (decide (f = f')) as [<- | _]; [done | ].
      by rewrite app_nil_r.
    + assert (E : select f recs = []); [ | by rewrite E].
      unfold select. clear -Hnin. rewrite elem_of_first_seen in Hnin.
      induction recs as [ | [k x] recs IH]; [reflexivity | ]. simpl in *.
      destruct (decide (k = f)) as [-> | Hne]; [set_solver | ].
      rewrite bool_decide_eq_false_2 by exact Hne. apply IH. set_solver.
Qed.

Lemma foldl_groupRow recs f rs :
  foldl (groupRow f) (grouped recs) rs = grouped (recs ++ map (pair f) rs).
Proof.
  revert recs. induction rs as [ | r rs IH]; intros recs; simpl.
  - by rewrite app_nil_r.
  - rewrite groupRow_grouped, IH, <- app_assoc. reflexivity.
Qed.

Lemma filed_rep_keys h ts rs : Forall2 (filed_rep h) ts rs → ts.*1 = rs.*1.
Proof.
  induction 1 as [ | t r ts rs [Hk _] _ IH]; [reflexivity | ].
  rewrite !fmap_cons. by f_equal.
Qed.

Lemma filed_rep_select h ts rs f :
  Forall2 (filed_rep h) ts rs →
  Forall2 (row_rep 0 h) (select f ts) (select f rs).
Proof.
  unfold select.
  induction 1 as [ | t r ts rs [Hk Hr] _ IH]; simpl; [constructor | ].
  rewrite Hk. destruct (bool_decide (r.1 = f)); simpl; [by constructor | exact IH].
Qed.

Lemma filed_rep_mono h ext ts rs :
  Forall2 (filed_rep h) ts rs → Forall2 (filed_rep (h ++ ext)) ts rs.
Proof.
  intros H. eapply Forall2_impl; [exact H | ].
  intros t r [Hk Hr]. split; [exact Hk | ]. eapply row_rep_mono; [exact Hr | lia].
Qed.

Lemma filed_rep_pair h f ps rs :
  Forall2 (row_rep 0 h) ps rs →
  Forall2 (filed_rep h) (map (pair f) ps) (map (pair f) rs).
Proof.
  induction 1; simpl; constructor; [by split | assumption].
Qed.

(** Lines 99-106: the loop over the items files the rows of all deltas,
    in order. *)
Lemma foldM_groupItem_rep fuel h0 jitems items :
  Forall2 (item_rep h0) jitems items →
  Forall (λ t, ∀ j, t.2 = Some j → depth j < fuel) jitems → 0 < fuel →
  ∀ e0 ts rs,
    Forall2 (filed_rep (h0 ++ e0)) ts rs →
    ∃ ext rs',
      foldM (groupItem fuel) items (h0 ++ e0, grouped rs)
        = Some (h0 ++ e0 ++ ext, grouped rs') ∧
      Forall2 (filed_rep (h0 ++ e0 ++ ext)) (ts ++ reportRows jitems) rs'.
Proof.
  intros Hitems. induction Hitems as [ | t it jitems items [Hf Hd] _ IH];
    intros Hdepth Hfuel e0 ts rs Hrs.
  - exists [], rs. simpl. rewrite !app_nil_r. done.
  - inversion Hdepth as [ | ? ? Hdt Hdepth']; subst.
    cbn [foldM groupItem].
    pose proof (flattenJsonDiff_or_empty fuel (h0 ++ e0) (diff it)) as E.
    destruct (or_empty (h0 ++ e0) (diff it)) as [h1 d]. rewrite E.
    destruct (flattenJsonDiff_orep fuel (h0 ++ e0) t.2 (diff it))
      as (e1 & flat & -> & Hflat); [by eapply orep_mono | exact Hdt | exact Hfuel | ].
    rewrite foldl_groupRow, <- app_assoc.
    destruct (IH Hdepth' Hfuel (e0 ++ e1) (ts ++ map (pair t.1) (treeRows t.2))
                (rs ++ map (pair (file it)) flat)) as (ext & rs' & E' & Hrs').
    + rewrite app_assoc. apply Forall2_app; [by apply filed_rep_mono | ].
      rewrite Hf. apply filed_rep_pair.
      eapply rows_rep_mono with (ext := []) in Hflat; [ | apply Nat.le_0_l].
      by rewrite app_nil_r in Hflat.
    + exists (e1 ++ ext), rs'.
      replace (h0 ++ e0 ++ e1 ++ ext) with (h0 ++ (e0 ++ e1) ++ ext)
        by (by rewrite <- !app_assoc).
      split; [exact E' | ].
      change (reportRows (t :: jitems))
        with (map (pair t.1) (treeRows t.2) ++ reportRows jitems).
      by rewrite (app_assoc ts).
Qed.

Section Tables.

Variable Number_toString : float → list N.

Lemma fileTable_rep h ts rs f :
  Forall2 (filed_rep h) ts rs →
  fileTable Number_toString h (f, select f rs)
  = Some (Table f [js "Path"; js "Old Value"; js "New Value"]
            (map (treeFullRow Number_toString) (select f ts))).
Proof.
  intros H. unfold fileTable. cbn [fst snd].
  erewrite mapM_rows_rep;
    [reflexivity | apply fullRow_rep | by apply filed_rep_select].
Qed.

(** The table builder of [/api/tables/fromReport] on a report whose
    deltas hold trees (or are absent): it returns the tables of the
    trees. *)
Lemma tablesFromReport_rep fuel h jitems items :
  Forall2 (item_rep h) jitems items →
  Forall (λ t, ∀ j, t.2 = Some j → depth j < fuel) jitems → 0 < fuel →
  ∃ ext,
    tablesFromReport Number_toString fuel h items
    = Some (h ++ ext, treeTables Number_toString jitems).
Proof.
  intros Hitems Hdepth Hfuel. unfold tablesFromReport.
  destruct (foldM_groupItem_rep fuel h jitems items Hitems Hdepth Hfuel
              [] [] []) as (ext & rs & E & Hrs); [constructor | ].
  rewrite app_nil_r in E. change (h ++ [] ++ ext) with (h ++ ext) in E, Hrs.
  change (@nil (list N * list change)) with (grouped (@nil (list N * change))).
  rewrite E. exists ext. simpl in Hrs.
  assert (Em : mapM (fileTable Number_toString (h ++ ext)) (grouped rs)
               = Some (treeTables Number_toString jitems)).
  { apply mapM_Some. unfold grouped, treeTables.
    rewrite (filed_rep_keys _ _ _ Hrs).
    apply Forall2_fmap, Forall_Forall2_diag, Forall_forall. intros f _.
    by apply fileTable_rep. }
  rewrite Em. reflexivity.
Qed.

End Tables.

(** C7 as stated fails: of the two distinct files below only the one
    with flattened records gets a table. *)
Lemma C7_counterexample :
  map file items_report = [js "a.json"; js "b.json"; js "a.json"] ∧
  option_map snd (tablesFromReport integer_toString 2 store_report items_report)
  = Some [Table (js "a.json") [js "Path"; js "Old Value"; js "New Value"]
            [[VStr (js "x"); VUndef; VStr (js "1")];
             [VStr (js "y"); VStr (js "2"); VStr (js "3")]]].
Proof. split; vm_compute; reflexivity. Qed.

Lemma first_seen_from_pairs {A} seen f (ps : list A) rest :
  first_seen_from seen ((map (pair f) ps).*1 ++ rest)
  = if decide (f ∈ seen) then first_seen_from seen rest
    else match ps with
         | [] => first_seen_from seen rest
         | _ :: _ => f :: first_seen_from (f :: seen) rest
         end.
Proof.
  revert seen. induction ps as [ | p ps IH]; intros seen.
  - simpl. by destruct (decide (f ∈ seen)).
  - cbn [map fmap list_fmap app fst first_seen_from].
    destruct (decide (f ∈ seen)) as [Hin | Hnin].
    + specialize (IH seen). destruct (decide (f ∈ seen)); [exact IH | done].
    + f_equal. specialize (IH (f :: seen)).
      destruct (decide (f ∈ f :: seen)) as [_ | Hn]; [exact IH | set_solver].
Qed.

(** C7 (amended). In per-file-full mode the builder returns one table
    for each distinct file that has at least one flattened record, in
    the order in which the files get their first record; each table is
    named after its file, has the columns [Path, Old Value, New Value]
    and has as rows exactly the records of that file's deltas, in
    order. For the files [a, b, a] with deltas that each have a record,
    these are two tables, [a] then [b]. *)
Theorem C7_per_file_tables (Number_toString : float → list N) fuel h
    jitems items :
  Forall2 (item_rep h) jitems items →
  Forall (λ t, ∀ j, t.2 = Some j → depth j < fuel) jitems → 0 < fuel →
  ∃ ext ts,
    tablesFromReport Number_toString fuel h items = Some (h ++ ext, ts) ∧
    NoDup (map name ts) ∧
    (∀ f, f ∈ map name ts ↔ ∃ p, (f, p) ∈ reportRows jitems) ∧
    map name ts = first_seen (reportRows jitems).*1 ∧
    Forall (λ t, columns t = [js "Path"; js "Old Value"; js "New Value"] ∧
                 rows t = map (treeFullRow Number_toString)
                            (select (name t) (reportRows jitems))) ts ∧
    (∀ a b o1 o2 o3,
       jitems = [(a, o1); (b, o2); (a, o3)] → a ≠ b →
       treeRows o1 ≠ [] → treeRows o2 ≠ [] →
       map name ts = [a; b]).
Proof.
  intros Hitems Hdepth Hfuel.
  destruct (tablesFromReport_rep Number_toString fuel h jitems items
              Hitems Hdepth Hfuel) as (ext & E).
  exists ext, (treeTables Number_toString jitems).
  assert (Hnames : map name (treeTables Number_toString jitems)
                   = first_seen (reportRows jitems).*1).
  { unfold treeTables. rewrite map_map. simpl. apply map_id. }
  split; [exact E | ]. rewrite Hnames.
  split; [apply NoDup_first_seen | ].
  split; [ | split; [reflexivity | split]].
  - intros f. rewrite elem_of_first_seen, list_elem_of_fmap. split.
    + intros ([f' p] & -> & Hin). by exists p.
    + intros (p & Hin). by exists (f, p).
  - unfold treeTables. apply Forall_forall. intros t Ht.
    apply list_elem_of_In, in_map_iff in Ht. destruct Ht as (f & <- & _).
    split; reflexivity.
  - intros a b o1 o2 o3 -> Hab H1 H2. unfold reportRows, first_seen.
    cbn [flat_map fst snd]. rewrite app_nil_r, !fmap_app.
    rewrite first_seen_from_pairs.
    destruct (decide (a ∈ [])) as [Hin | _]; [by apply elem_of_nil in Hin | ].
    destruct (treeRows o1) as [ | p1 ps1]; [done | ]. f_equal.
    rewrite first_seen_from_pairs.
    destruct (decide (b ∈ [a])) as [Hin | _]; [set_solver | ].
    destruct (treeRows o2) as [ | p2 ps2]; [done | ]. f_equal.
    rewrite <- (app_nil_r (_.*1)), first_seen_from_pairs.
    destruct (decide (a ∈ [b; a])) as [_ | Hn]; [reflexivity | set_solver].
Qed.

Ltac items_hold :=
  repeat (apply List.Forall2_cons; [holds | ]); apply List.Forall2_nil.
Ltac depths_hold :=
  repeat (apply List.Forall_cons; [intros ? [= <-]; simpl; lia | ]);
  apply List.Forall_nil.

Lemma C7_per_file_tables_witness :
  ∃ ext ts,
    tablesFromReport integer_toString 3 store_report_full items_report_full
      = Some (store_report_full ++ ext, ts) ∧
    NoDup (map name ts) ∧
    (∀ f, f ∈ map name ts ↔ ∃ p, (f, p) ∈ reportRows trees_report_full) ∧
    map name ts = first_seen (reportRows trees_report_full).*1 ∧
    Forall (λ t, columns t = [js "Path"; js "Old Value"; js "New Value"] ∧
                 rows t = map (treeFullRow integer_toString)
                            (select (name t) (reportRows trees_report_full)))
      ts ∧
    (∀ a b o1 o2 o3,
       trees_report_full = [(a, o1); (b, o2); (a, o3)] → a ≠ b →
       treeRows o1 ≠ [] → treeRows o2 ≠ [] →
       map name ts = [a; b]).
Proof.
  apply (C7_per_file_tables integer_toString 3 store_report_full
           trees_report_full items_report_full).
  - items_hold.
  - depths_hold.
  - lia.
Defined.

(** C10. Flattening the same delta a second time, in the store the
    first call left, gives rows that are deeply equal to the first
    ones: same paths, same trees under [before] and [after]. Building
    the tables of the same report a second time, or the table of
    additions of the same delta, gives exactly the same tables, rows in
    the same order. *)
Theorem C10_deterministic (Number_toString : float → list N) :
  (∀ fuel h o delta,
     orep 0 h o delta → (∀ j, o = Some j → depth j < fuel) → 0 < fuel →
     ∃ e1 rs1 e2 rs2,
       flattenJsonDiff fuel h delta = Some (h ++ e1, rs1) ∧
       flattenJsonDiff fuel (h ++ e1) delta = Some (h ++ e1 ++ e2, rs2) ∧
       Forall2 (deep_equal (h ++ e1 ++ e2)) rs1 rs2) ∧
  (∀ fuel h jitems items,
     Forall2 (item_rep h) jitems items →
     Forall (λ t, ∀ j, t.2 = Some j → depth j < fuel) jitems → 0 < fuel →
     ∃ e1 e2 ts,
       tablesFromReport Number_toString fuel h items = Some (h ++ e1, ts) ∧
       tablesFromReport Number_toString fuel (h ++ e1) items
         = Some (h ++ e1 ++ e2, ts)) ∧
  (∀ fuel h o delta,
     orep 0 h o delta → (∀ j, o = Some j → depth j < fuel) → 0 < fuel →
     ∃ e1 e2 t,
       addedTable Number_toString fuel h delta = Some (h ++ e1, t) ∧
       addedTable Number_toString fuel (h ++ e1) delta
         = Some (h ++ e1 ++ e2, t)).
Proof.
  split; [ | split].
  - intros fuel h o delta Hrep Hd Hfuel.
    destruct (flattenJsonDiff_orep fuel h o delta Hrep Hd Hfuel)
      as (e1 & rs1 & E1 & H1).
    destruct (flattenJsonDiff_orep fuel (h ++ e1) o delta)
      as (e2 & rs2 & E2 & H2); [by eapply orep_mono | exact Hd | exact Hfuel | ].
    exists e1, rs1, e2, rs2. rewrite <- app_assoc in E2.
    split; [exact E1 | split; [exact E2 | ]].
    rewrite app_assoc.
    eapply rows_rep_mono with (lo' := 0) (ext := e2) in H1; [ | lia].
    eapply rows_rep_mono with (lo' := 0) (ext := []) in H2; [ | lia].
    rewrite app_nil_r in H2.
    clear -H1 H2. revert rs2 H2.
    induction H1 as [ | p r1 ps rs1 (Hp1 & Hb1 & Ha1) _ IH]; intros rs2 H2;
      inversion H2 as [ | ? r2 ? rs2' (Hp2 & Hb2 & Ha2) H2']; subst;
      constructor; [ | by apply IH].
    split; [congruence | split; eexists; eauto].
  - intros fuel h jitems items Hitems Hdepth Hfuel.
    destruct (tablesFromReport_rep Number_toString fuel h jitems items
                Hitems Hdepth Hfuel) as (e1 & E1).
    destruct (tablesFromReport_rep Number_toString fuel (h ++ e1) jitems items)
      as (e2 & E2); [ | exact Hdepth | exact Hfuel | ].
    { eapply Forall2_impl; [exact Hitems | ].
      intros t it [Hf Hr]. split; [exact Hf | by eapply orep_mono]. }
    exists e1, e2, (treeTables Number_toString jitems).
    rewrite <- app_assoc in E2. by split.
  - intros fuel h o delta Hrep Hd Hfuel.
    destruct (addedTable_rep Number_toString fuel h o delta Hrep Hd Hfuel)
      as (e1 & E1).
    destruct (addedTable_rep Number_toString fuel (h ++ e1) o delta)
      as (e2 & E2); [by eapply orep_mono | exact Hd | exact Hfuel | ].
    exists e1, e2, (treeAddedTable Number_toString o).
    rewrite <- app_assoc in E2. by split.
Qed.

Lemma C10_deterministic_witness :
  (∃ e1 rs1 e2 rs2,
     flattenJsonDiff 3 store_add_mod (VRef 2) = Some (store_add_mod ++ e1, rs1) ∧
     flattenJsonDiff 3 (store_add_mod ++ e1) (VRef 2)
       = Some (store_add_mod ++ e1 ++ e2, rs2) ∧
     Forall2 (deep_equal (store_add_mod ++ e1 ++ e2)) rs1 rs2) ∧
  (∃ e1 e2 ts,
     tablesFromReport integer_toString 3 store_report_full items_report_full
       = Some (store_report_full ++ e1, ts) ∧
     tablesFromReport integer_toString 3 (store_report_full ++ e1)
       items_report_full
       = Some (store_report_full ++ e1 ++ e2, ts)) ∧
  (∃ e1 e2 t,
     addedTable integer_toString 3 store_add_mod (VRef 2)
       = Some (store_add_mod ++ e1, t) ∧
     addedTable integer_toString 3 (store_add_mod ++ e1) (VRef 2)
       = Some (store_add_mod ++ e1 ++ e2, t)).
Proof.
  destruct (C10_deterministic integer_toString) as (H1 & H2 & H3).
  split; [ | split].
  - apply (H1 3 store_add_mod (Some delta_add_mod) (VRef 2));
      [holds | intros j [= <-]; simpl; lia | lia].
  - apply (H2 3 store_report_full trees_report_full items_report_full);
      [items_hold | depths_hold | lia].
  - apply (H3 3 store_add_mod (Some delta_add_mod) (VRef 2));
      [holds | intros j [= <-]; simpl; lia | lia].
Defined.

(** C4 as stated fails: on [{x: [9,1,2]}] the core flattener emits a
    modification and the PDF generator's flattener emits nothing. *)
Lemma C4_counterexample :
  flattenJsonDiff 2 store_mismatch (VRef 1)
    = Some (store_mismatch, [Change (js "x") (VNum 9) (VNum 1)]) ∧
  flattenDelta 2 store_mismatch (VRef 1) = Some (store_mismatch, []).
Proof. split; vm_compute; reflexivity. Qed.

Lemma flat_map_ext_Forall {A B} (f g : A → list B) l :
  Forall (λ x, f x = g x) l → flat_map f l = flat_map g l.
Proof. induction 1 as [ | x l E _ IH]; simpl; [reflexivity | by rewrite E, IH]. Qed.

Lemma flat_map_map_Forall {A B} (f g : A → list B) (k : B → B) l :
  Forall (λ x, f x = map k (g x)) l → flat_map f l = map k (flat_map g l).
Proof.
  induction 1 as [ | x l E _ IH]; simpl; [reflexivity | ].
  by rewrite E, IH, map_app.
Qed.

(** Without such arrays the degraded modification never fires. *)
Lemma treeWalk_sentinel_only keep j :
  ∀ path_, sentinel_only j = true →
           treeWalk keep true j path_ = treeWalk keep false j path_.
Proof.
  induction j as [ | b | f | s | items IH | ms IH] using json_strong_ind;
    intros path_ Hs; try reflexivity.
  rewrite !treeWalk_obj. apply flat_map_ext_Forall.
  cbn [sentinel_only] in Hs. rewrite forallb_forall in Hs.
  apply Forall_forall. intros [k e] Hin.
  rewrite Forall_forall in IH. specialize (IH _ Hin). simpl in IH.
  specialize (Hs _ (proj1 (list_elem_of_In _ _) Hin)). simpl in Hs.
  unfold treeEntry; cbn [fst snd].
  destruct (decide (k = js "_t")); [reflexivity | ].
  destruct e as [ | | | | es | ms']; try reflexivity.
  - destruct (jmarker ms); [reflexivity | ].
    rewrite !objectLeaf_shape.
    destruct es as [ | b0 [ | b1 [ | b2 rest]]]; try reflexivity.
    cbn in Hs. change (ojzero (Some b1) && ojzero (Some b2) = true) in Hs.
    by rewrite Hs.
  - by apply IH.
Qed.

Lemma arrayLeaf_norm p es :
  arrayLeaf norm p es = map norm_row (arrayLeaf id p es).
Proof.
  rewrite !arrayLeaf_shape.
  destruct es as [ | ? [ | ? [ | ? ?]]]; try reflexivity.
  destruct (ojzero _ && ojzero _); reflexivity.
Qed.

Lemma objectLeaf_norm fallback p es :
  objectLeaf norm fallback p es = map norm_row (objectLeaf id fallback p es).
Proof.
  rewrite !objectLeaf_shape.
  destruct es as [ | ? [ | ? [ | ? ?]]]; try reflexivity.
  destruct (ojzero _ && ojzero _); [reflexivity | ].
  destruct fallback; reflexivity.
Qed.

(** The walk with clones gives the round trips of the rows of the walk
    without. *)
Lemma treeWalk_norm fallback j :
  ∀ path_, treeWalk norm fallback j path_
           = map norm_row (treeWalk id fallback j path_).
Proof.
  induction j as [ | b | f | s | items IH | ms IH] using json_strong_ind;
    intros path_; try reflexivity.
  rewrite !treeWalk_obj. apply flat_map_map_Forall.
  apply Forall_forall. intros [k e] Hin.
  rewrite Forall_forall in IH. specialize (IH _ Hin). simpl in IH.
  unfold treeEntry; cbn [fst snd].
  destruct (decide (k = js "_t")); [reflexivity | ].
  destruct e as [ | | | | es | ms']; try reflexivity.
  - destruct (jmarker ms); [apply arrayLeaf_norm | apply objectLeaf_norm].
  - apply IH.
Qed.

Lemma plain_items items : plain (JArr items) → Forall plain items.
Proof.
  unfold plain. simpl. intros [= E]. apply Forall_forall. intros j Hj.
  apply list_elem_of_In in Hj.
  induction items as [ | a items IH]; [destruct Hj | ].
  simpl in E. injection E as Ea E. destruct Hj as [<- | Hj]; auto.
Qed.

Lemma plain_members ms : plain (JObj ms) → Forall (λ m, plain m.2) ms.
Proof.
  unfold plain. simpl. intros [= E]. apply Forall_forall. intros m Hm.
  apply list_elem_of_In in Hm.
  induction ms as [ | [k a] ms IH]; [destruct Hm | ].
  simpl in E. injection E as Ea E. destruct Hm as [<- | Hm]; auto.
Qed.

Lemma lookup_plain items i : Forall plain items → norm <$> items !! i = items !! i.
Proof.
  intros HF. destruct (items !! i) as [j | ] eqn:E; [ | reflexivity].
  simpl. f_equal. rewrite Forall_forall in HF. apply HF.
  by eapply list_elem_of_lookup_2.
Qed.

(** On a JSON value the round trip changes nothing. *)
Lemma treeWalk_plain fallback j :
  ∀ path_, plain j →
           treeWalk norm fallback j path_ = treeWalk id fallback j path_.
Proof.
  induction j as [ | b | f | s | items IH | ms IH] using json_strong_ind;
    intros path_ Hp; try reflexivity.
  rewrite !treeWalk_obj. apply flat_map_ext_Forall.
  apply Forall_forall. intros [k e] Hin.
  rewrite Forall_forall in IH. specialize (IH _ Hin). simpl in IH.
  pose proof (plain_members _ Hp) as Hms. rewrite Forall_forall in Hms.
  specialize (Hms _ Hin). simpl in Hms.
  unfold treeEntry; cbn [fst snd].
  destruct (decide (k = js "_t")); [reflexivity | ].
  destruct e as [ | | | | es | ms']; try reflexivity.
  - pose proof (plain_items _ Hms) as Hes.
    unfold arrayLeaf, objectLeaf.
    rewrite !(lookup_plain _ _ Hes), !option_fmap_id. reflexivity.
  - by apply IH.
Qed.

(** [flattenDelta] on a delta that holds a tree: the rows carry the
    values of the delta. *)
Lemma flattenDelta_rep fuel lo h j delta :
  rep lo h j delta → depth j < fuel →
  ∃ ext rs,
    flattenDelta fuel h delta = Some (h ++ ext, rs) ∧
    Forall2 (row_rep lo h) (treeWalk id false j []) rs.
Proof.
  intros Hrep Hd. unfold flattenDelta, or_empty.
  destruct (truthy delta) eqn:Et.
  - destruct (walk_rep fuel lo h j delta [] [] Hrep Hd) as (new & E & Hnew).
    rewrite E. exists [], new. rewrite app_nil_r. split; [reflexivity | exact Hnew].
  - rewrite (falsy_primitive _ _ _ _ Hrep Et).
    exists [OObj []], []. split; [ | constructor].
    destruct fuel as [ | fuel]; [lia | ]. cbn [walk as_object].
    rewrite list_lookup_middle; reflexivity.
Qed.

(** C4 (amended). On a delta in which no object-delta node maps a key
    to an array of three or more elements without the removal sentinel,
    [flattenJsonDiff] and [flattenDelta] return as many records, with
    pairwise equal paths; each [before]/[after] of [flattenDelta] is the
    value of the delta itself, and the one of [flattenJsonDiff] is its
    JSON round trip in new cells. When the delta is a JSON value
    (numbers finite, zero unsigned), the two lists are deeply equal. *)
Theorem C4_flatteners_agree fuel h j delta :
  rep 0 h j delta → depth j < fuel → sentinel_only j = true →
  ∃ e1 rs1 e2 rs2,
    flattenJsonDiff fuel h delta = Some (h ++ e1, rs1) ∧
    flattenDelta fuel h delta = Some (h ++ e2, rs2) ∧
    Forall2 (λ r1 r2,
               path r1 = path r2 ∧
               round_trip (length h) (h ++ e1) (before r2) (before r1) ∧
               round_trip (length h) (h ++ e1) (after r2) (after r1))
      rs1 rs2 ∧
    (plain j → Forall2 (deep_equal (h ++ e1)) rs1 rs2).
Proof.
  intros Hrep Hd Hs.
  destruct (flattenJsonDiff_rep fuel h j delta Hrep Hd) as (e1 & rs1 & E1 & H1).
  destruct (flattenDelta_rep fuel 0 h j delta Hrep Hd)
    as (e2 & rs2 & E2 & H2).
  exists e1, rs1, e2, rs2. split; [exact E1 | split; [exact E2 | ]].
  rewrite (treeWalk_sentinel_only norm j [] Hs) in H1.
  eapply rows_rep_mono with (lo' := 0) (ext := e1) in H2; [ | lia].
  split.
  - rewrite treeWalk_norm in H1. apply Forall2_fmap_l in H1.
    clear -H1 H2. revert rs1 H1.
    induction H2 as [ | p r2 ps rs2 (Hp2 & Hb2 & Ha2) _ IH]; intros rs1 H1;
      inversion H1 as [ | ? r1 ? rs1' (Hp1 & Hb1 & Ha1) H1']; subst;
      constructor; [ | by apply IH].
    split; [simpl in Hp1; congruence | ].
    split; [exists p.1.2 | exists p.2]; by split.
  - intros Hp. rewrite (treeWalk_plain false j [] Hp) in H1.
    eapply rows_rep_mono with (lo' := 0) (ext := []) in H1; [ | lia].
    rewrite app_nil_r in H1.
    clear -H1 H2. revert rs1 H1.
    induction H2 as [ | p r2 ps rs2 (Hp2 & Hb2 & Ha2) _ IH]; intros rs1 H1;
      inversion H1 as [ | ? r1 ? rs1' (Hp1 & Hb1 & Ha1) H1']; subst;
      constructor; [ | by apply IH].
    split; [congruence | split; eexists; eauto].
Qed.

Lemma C4_flatteners_agree_witness :
  ∃ e1 rs1 e2 rs2,
    flattenJsonDiff 3 store_add_mod (VRef 2) = Some (store_add_mod ++ e1, rs1) ∧
    flattenDelta 3 store_add_mod (VRef 2) = Some (store_add_mod ++ e2, rs2) ∧
    Forall2 (λ r1 r2,
               path r1 = path r2 ∧
               round_trip (length store_add_mod) (store_add_mod ++ e1)
                 (before r2) (before r1) ∧
               round_trip (length store_add_mod) (store_add_mod ++ e1)
                 (after r2) (after r1))
      rs1 rs2 ∧
    (plain delta_add_mod → Forall2 (deep_equal (store_add_mod ++ e1)) rs1 rs2).
Proof.
  apply (C4_flatteners_agree 3 store_add_mod delta_add_mod (VRef 2));
    [holds | simpl; lia | reflexivity].
Defined.

(* ----------------------------------------------------------------- *)
(** ** What cannot be serialized *)

Lemma ser_elems_ret (rec : val → res (option json)) es js :
  ser_elems rec es = RRet js → ∀ e, e ∈ es → ∃ x, rec e = RRet x.
Proof.
  revert js. induction es as [ | a es IH]; intros js E e He;
    [by apply elem_of_nil in He | ].
  simpl in E. destruct (rec a) as [ | | x] eqn:Ea; try discriminate.
  simpl in E. destruct (ser_elems rec es) as [ | | xs] eqn:Ees; try discriminate.
  apply elem_of_cons in He as [-> | He]; [by eexists | by eapply IH].
Qed.

Lemma ser_props_ret (rec : val → res (option json)) ps ms :
  ser_props rec ps = RRet ms → ∀ k e, (k, e) ∈ ps → ∃ x, rec e = RRet x.
Proof.
  revert ms. induction ps as [ | [k' a] ps IH]; intros ms E k e He;
    [by apply elem_of_nil in He | ].
  simpl in E. destruct (rec a) as [ | | x] eqn:Ea; try discriminate.
  simpl in E. destruct (ser_props rec ps) as [ | | xs] eqn:Eps; try discriminate.
  apply elem_of_cons in He as [[= -> ->] | He]; [by eexists | by eapply IH].
Qed.

(** A serialization that returns has met none of the objects on its
    stack. *)
Lemma serialize_ret_reach fuel :
  ∀ h stack v x, serialize fuel h stack v = RRet x →
                 ∀ l, reach h v l → l ∉ stack.
Proof.
  induction fuel as [ | fuel IH]; intros h stack v x E l Hreach;
    destruct v as [ | | b | f | s | l0]; try (by inversion Hreach);
    simpl in E; try discriminate.
  destruct (decide (l0 ∈ stack)) as [ | Hnin]; [discriminate | ].
  destruct (h !! l0) as [[es | ps] | ] eqn:El; [ | | discriminate].
  - destruct (ser_elems _ es) as [ | | js] eqn:Ees; try discriminate.
    inversion Hreach as [ | ? es' e ? El' He Hr | ? ps' k e ? El' He Hr]; subst;
      [exact Hnin | | congruence].
    rewrite El in El'. injection El' as <-.
    destruct (ser_elems_ret _ _ _ Ees e He) as (x' & Ex').
    pose proof (IH _ _ _ _ Ex' l Hr). set_solver.
  - destruct (ser_props _ ps) as [ | | ms] eqn:Eps; try discriminate.
    inversion Hreach as [ | ? es' e ? El' He Hr | ? ps' k e ? El' He Hr]; subst;
      [exact Hnin | congruence | ].
    rewrite El in El'. injection El' as <-.
    destruct (ser_props_ret _ _ _ Eps k e He) as (x' & Ex').
    pose proof (IH _ _ _ _ Ex' l Hr). set_solver.
Qed.

(** [JSON.stringify] throws on an object that contains itself. *)
Lemma cyclic_throws h l : cyclic h l → JSON_stringify h (VRef l) = RThrow.
Proof.
  intros (e & Hchild & Hreach).
  destruct (JSON_stringify h (VRef l)) as [ | | x] eqn:E;
    [by apply JSON_stringify_total in E | reflexivity | exfalso].
  unfold JSON_stringify in E. simpl in E.
  destruct (decide (l ∈ [])) as [Hin | _]; [by apply elem_of_nil in Hin | ].
  destruct Hchild as [(es & El & He) | (ps & k & El & He)]; rewrite El in E.
  - destruct (ser_elems _ es) as [ | | js] eqn:Ees; try discriminate.
    destruct (ser_elems_ret _ _ _ Ees e He) as (x' & Ex').
    pose proof (serialize_ret_reach _ _ _ _ _ Ex' l Hreach). set_solver.
  - destruct (ser_props _ ps) as [ | | ms] eqn:Eps; try discriminate.
    destruct (ser_props_ret _ _ _ Eps k e He) as (x' & Ex').
    pose proof (serialize_ret_reach _ _ _ _ _ Ex' l Hreach). set_solver.
Qed.

(* ----------------------------------------------------------------- *)
(** ** The walk returns *)

Lemma clone_extends h v : ∃ ext v', clone h v = (h ++ ext, v').
Proof.
  unfold clone. destruct (JSON_stringify h v) as [ | | [j | ]].
  1, 2, 4: exists [], v; by rewrite app_nil_r.
  destruct (alloc_rep j h) as (ext & v' & E & _). by exists ext, v'.
Qed.

Lemma pushChange_extends h acc pathArr b a :
  ∃ ext r, pushChange h acc pathArr b a = (h ++ ext, acc ++ [r]).
Proof.
  unfold pushChange.
  destruct (clone_extends h b) as (e1 & b' & ->).
  destruct (clone_extends (h ++ e1) a) as (e2 & a' & ->).
  exists (e1 ++ e2), (Change (join (js ".") pathArr) b' a').
  by rewrite app_assoc.
Qed.

Lemma walkable_mono h ext n v : walkable h n v → walkable (h ++ ext) n v.
Proof.
  induction 1 as [n v Hleaf | n l ps El _ IH].
  - apply walkable_leaf. intros l Hl. destruct (Hleaf l Hl) as (es & El).
    exists es. by apply lookup_app_l_Some.
  - eapply walkable_node; [by apply lookup_app_l_Some | exact IH].
Qed.

Section WalkReturns.

Variable fuel' : nat.
Variable n : nat.

Hypothesis IHwalk :
  ∀ h delta pathArr acc,
    walkable h n delta →
    ∃ ext new, walkDelta fuel' h delta pathArr acc = Some (h ++ ext, acc ++ new).

Lemma returns_here (h : list obj) (acc : list change) :
  ∃ ext new, Some (h, acc) = Some (h ++ ext, acc ++ new).
Proof. exists [], []. by rewrite !app_nil_r. Qed.

Lemma returns_push h acc pathArr b a :
  ∃ ext new,
    Some (pushChange h acc pathArr b a) = Some (h ++ ext, acc ++ new).
Proof.
  destruct (pushChange_extends h acc pathArr b a) as (ext & r & ->).
  by exists ext, [r].
Qed.

Lemma objectEntry_returns h acc pathArr k e :
  walkable h n e →
  ∃ ext new,
    objectEntry (walkDelta fuel') pathArr (h, acc) (k, e)
    = Some (h ++ ext, acc ++ new).
Proof.
  intros Hw. destruct (decide (k = js "_t")) as [-> | Hk].
  { unfold objectEntry. destruct (decide (js "_t" = js "_t")); [ | done].
    apply returns_here. }
  destruct (as_array h e) as [es | ] eqn:Ea.
  - rewrite (objectEntry_array _ _ _ _ _ _ _ Hk Ea).
    destruct es as [ | ? [ | ? [ | ? ?]]];
      [apply returns_here | apply returns_push.. | ].
    destruct (is_zero _ && is_zero _); apply returns_push.
  - unfold objectEntry. destruct (decide (k = js "_t")); [done | ].
    rewrite Ea. destruct (isObject h e); [by apply IHwalk | apply returns_here].
Qed.

Lemma arrayEntry_returns h acc pathArr k e :
  walkable h n e →
  ∃ ext new,
    arrayEntry (walkDelta fuel') pathArr (h, acc) (k, e)
    = Some (h ++ ext, acc ++ new).
Proof.
  intros Hw. destruct (decide (k = js "_t")) as [-> | Hk].
  { unfold arrayEntry. destruct (decide (js "_t" = js "_t")); [ | done].
    apply returns_here. }
  destruct (as_array h e) as [es | ] eqn:Ea.
  - rewrite (arrayEntry_array _ _ _ _ _ _ _ Hk Ea).
    destruct es as [ | ? [ | ? [ | ? ?]]];
      [apply returns_here | apply returns_push.. | ].
    destruct (is_zero _ && is_zero _); [apply returns_push | apply returns_here].
  - unfold arrayEntry. destruct (decide (k = js "_t")); [done | ].
    rewrite Ea. destruct (isObject h e); [by apply IHwalk | apply returns_here].
Qed.

Lemma fold_entries_returns
    (step : list (list N) → list obj * list change → list N * val
            → option (list obj * list change)) pathArr h0 :
  (∀ h acc k e,
     walkable h n e →
     ∃ ext new, step pathArr (h, acc) (k, e) = Some (h ++ ext, acc ++ new)) →
  ∀ ps e0 acc,
    (∀ k e, (k, e) ∈ ps → walkable h0 n e) →
    ∃ ext new,
      foldM (step pathArr) ps (h0 ++ e0, acc)
      = Some (h0 ++ e0 ++ ext, acc ++ new).
Proof.
  intros Hstep ps. induction ps as [ | [k e] ps IH]; intros e0 acc Hps.
  - exists [], []. simpl. by rewrite !app_nil_r.
  - simpl.
    destruct (Hstep (h0 ++ e0) acc k e) as (e1 & n1 & ->).
    { apply walkable_mono, (Hps k). by left. }
    destruct (IH (e0 ++ e1) (acc ++ n1)) as (e2 & n2 & E).
    { intros k' e' Hin. apply (Hps k'). by right. }
    exists (e1 ++ e2), (n1 ++ n2). rewrite <- !app_assoc in *. exact E.
Qed.

End WalkReturns.

(** The walk returns on every delta whose plain objects are nested to a
    bounded depth, whatever its arrays hold. *)
Lemma walkDelta_returns fuel :
  ∀ n h delta pathArr acc,
    walkable h n delta → n < fuel →
    ∃ ext new, walkDelta fuel h delta pathArr acc = Some (h ++ ext, acc ++ new).
Proof.
  induction fuel as [ | fuel IH]; intros n h delta pathArr acc Hw Hn; [lia | ].
  cbn [walkDelta].
  inversion Hw as [? ? Hleaf | n' l ps El Hps]; subst.
  - assert (Eo : as_object h delta = None).
    { destruct delta as [ | | | | | l]; try reflexivity.
      destruct (Hleaf l eq_refl) as (es & El). simpl. by rewrite El. }
    rewrite Eo. apply returns_here.
  - cbn [as_object]. rewrite El.
    assert (IH' : ∀ h delta pathArr acc, walkable h n' delta →
              ∃ ext new, walkDelta fuel h delta pathArr acc
                         = Some (h ++ ext, acc ++ new)).
    { intros. eapply IH; [eassumption | lia]. }
    destruct (is_str_a (get ps (js "_t"))).
    + destruct (fold_entries_returns n' (arrayEntry (walkDelta fuel)) pathArr h
                  (λ h acc k e, arrayEntry_returns fuel n' IH' h acc pathArr k e)
                  ps [] acc Hps) as (ext & new & E).
      rewrite app_nil_r in E. by exists ext, new.
    + destruct (fold_entries_returns n' (objectEntry (walkDelta fuel)) pathArr h
                  (λ h acc k e, objectEntry_returns fuel n' IH' h acc pathArr k e)
                  ps [] acc Hps) as (ext & new & E).
      rewrite app_nil_r in E. by exists ext, new.
Qed.

Lemma flattenJsonDiff_returns fuel n h delta :
  walkable h n delta → n < fuel →
  ∃ ext rs, flattenJsonDiff fuel h delta = Some (h ++ ext, rs).
Proof.
  intros Hw Hn. unfold flattenJsonDiff, or_empty.
  destruct (truthy delta).
  - destruct (walkDelta_returns fuel n h delta [] [] Hw Hn) as (ext & new & ->).
    by exists ext, new.
  - exists [OObj []], []. destruct fuel as [ | fuel]; [lia | ].
    cbn [walkDelta as_object]. rewrite list_lookup_middle; reflexivity.
Qed.

(* ----------------------------------------------------------------- *)
(** ** Copies and the source *)

Lemma rep_reach lo h v l : reach h v l → ∀ j, rep lo h j v → lo ≤ l.
Proof.
  induction 1 as [l | l es e l' El He _ IH | l ps k e l' El He _ IH];
    intros j Hrep.
  - by inversion Hrep.
  - inversion Hrep as [ | | | | items ? es' Hlo El' Hes | ms ? ps' Hlo El' Hps];
      subst; [ | congruence].
    rewrite El in El'. injection El' as <-.
    apply list_elem_of_lookup in He as (i & Hi).
    destruct (Forall2_lookup_r _ _ _ _ _ Hes Hi) as (j' & _ & Hj').
    by eapply IH.
  - inversion Hrep as [ | | | | items ? es' Hlo El' Hes | ms ? ps' Hlo El' Hps];
      subst; [congruence | ].
    rewrite El in El'. injection El' as <-.
    apply list_elem_of_lookup in He as (i & Hi).
    destruct (Forall2_lookup_r _ _ _ _ _ Hps Hi) as (m & _ & _ & Hm).
    by eapply IH.
Qed.

(** Writing to a cell allocated later leaves a value and what it holds
    as they were. *)
Lemma rep_insert_later h ext j v l o :
  rep 0 h j v → length h ≤ l → rep 0 (<[l := o]> (h ++ ext)) j v.
Proof.
  intros Hrep Hl. rewrite insert_app_r_alt by exact Hl.
  by eapply rep_mono.
Qed.

(** C6 (amended). Every record of [flattenJsonDiff] on a JSON delta
    carries under [before] and [after] the serialization round trip of
    the value of the delta, built in cells of its own: writing to any
    cell a record leads to leaves the delta as it was. A value that
    cannot be serialized (one that contains itself, for instance) is
    returned by [clone] as it is, the store untouched, and the walk
    returns for every delta whose plain objects are nested to a bounded
    depth, whatever its arrays hold. *)
Theorem C6_clones :
  (∀ fuel h j delta,
     rep 0 h j delta → depth j < fuel →
     ∃ ext rs,
       flattenJsonDiff fuel h delta = Some (h ++ ext, rs) ∧
       Forall2 (row_rep (length h) (h ++ ext)) (treeWalk norm true j []) rs ∧
       ∀ r l o,
         r ∈ rs →
         reach (h ++ ext) (before r) l ∨ reach (h ++ ext) (after r) l →
         length h ≤ l ∧ rep 0 (<[l := o]> (h ++ ext)) j delta) ∧
  (∀ h v,
     (∀ j, JSON_stringify h v = RRet (Some j) →
           ∃ ext v', clone h v = (h ++ ext, v') ∧
                     rep (length h) (h ++ ext) j v') ∧
     (JSON_stringify h v = RThrow → clone h v = (h, v))) ∧
  (∀ h l,
     cyclic h l →
     JSON_stringify h (VRef l) = RThrow ∧ clone h (VRef l) = (h, VRef l)) ∧
  (∀ fuel n h delta,
     walkable h n delta → n < fuel →
     ∃ ext rs, flattenJsonDiff fuel h delta = Some (h ++ ext, rs)).
Proof.
  split; [ | split; [ | split]].
  - intros fuel h j delta Hrep Hd.
    destruct (flattenJsonDiff_rep fuel h j delta Hrep Hd) as (ext & rs & E & Hrs).
    exists ext, rs. split; [exact E | split; [exact Hrs | ]].
    intros r l o Hr Hreach.
    assert (Hl : length h ≤ l).
    { apply list_elem_of_lookup in Hr as (i & Hi).
      destruct (Forall2_lookup_r _ _ _ _ _ Hrs Hi) as (p & _ & _ & Hb & Ha).
      destruct Hreach as [Hreach | Hreach].
      - destruct (p.1.2) as [jb | ]; simpl in Hb;
          [by eapply rep_reach | rewrite Hb in Hreach; inversion Hreach].
      - destruct (p.2) as [ja | ]; simpl in Ha;
          [by eapply rep_reach | rewrite Ha in Hreach; inversion Hreach]. }
    split; [exact Hl | by apply rep_insert_later].
  - intros h v. split.
    + intros j E. unfold clone. rewrite E. apply alloc_rep.
    + intros E. unfold clone. by rewrite E.
  - intros h l Hc. pose proof (cyclic_throws h l Hc) as E.
    split; [exact E | ]. unfold clone. by rewrite E.
  - apply flattenJsonDiff_returns.
Qed.

Lemma C6_clones_witness :
  (∃ ext rs r l,
     flattenJsonDiff 4 store_copy (VRef 2) = Some (store_copy ++ ext, rs) ∧
     Forall2 (row_rep (length store_copy) (store_copy ++ ext))
       (treeWalk norm true delta_copy []) rs ∧
     r ∈ rs ∧ after r ≠ VRef 0 ∧ reach (store_copy ++ ext) (after r) l ∧
     length store_copy ≤ l ∧
     ∀ o, rep 0 (<[l := o]> (store_copy ++ ext)) delta_copy (VRef 2)) ∧
  (∃ ext v',
     clone store_copy (VRef 0) = (store_copy ++ ext, v') ∧
     rep (length store_copy) (store_copy ++ ext)
       (JObj [(js "a", JNum 1%float)]) v') ∧
  clone store_self (VRef 0) = (store_self, VRef 0) ∧
  (JSON_stringify store_cyclic (VRef 0) = RThrow
   ∧ clone store_cyclic (VRef 0) = (store_cyclic, VRef 0)) ∧
  (∃ ext rs, flattenJsonDiff 2 store_cyclic (VRef 2)
             = Some (store_cyclic ++ ext, rs)) ∧
  flattenJsonDiff 2 store_cyclic (VRef 2)
  = Some (store_cyclic, [Change (js "x") VUndef (VRef 0)]).
Proof.
  destruct C6_clones as (H1 & H2 & H3 & H4).
  split; [ | split; [ | split; [ | split; [ | split]]]].
  - destruct (H1 4 store_copy delta_copy (VRef 2)) as (ext & rs & E & Hrs & Hno);
      [holds | simpl; lia | ].
    assert (Eq : ext = [OObj [(js "a", VNum 1%float)]]
                 ∧ rs = [Change (js "x") VUndef (VRef 3)]).
    { vm_compute in E. injection E as <- <-. split; reflexivity. }
    destruct Eq as [-> ->].
    exists [OObj [(js "a", VNum 1%float)]], [Change (js "x") VUndef (VRef 3)],
      (Change (js "x") VUndef (VRef 3)), 3.
    split; [exact E | ]. split; [exact Hrs | ].
    split; [by left | ]. split; [discriminate | ].
    split; [constructor | ].
    split; [simpl; lia | ].
    intros o. apply (Hno (Change (js "x") VUndef (VRef 3)) 3 o); [by left | ].
    right. constructor.
  - destruct (H2 store_copy (VRef 0)) as [Hc _].
    apply (Hc (JObj [(js "a", JNum 1%float)])). vm_compute. reflexivity.
  - destruct (H2 store_self (VRef 0)) as [_ Ht]. apply Ht.
    vm_compute. reflexivity.
  - apply (H3 store_cyclic 0). exists (VRef 0). split.
    + left. exists [VRef 0]. split; [reflexivity | by left].
    + constructor.
  - apply (H4 2 1 store_cyclic (VRef 2)); [ | lia].
    eapply walkable_node; [reflexivity | ].
    intros k e [[= -> ->] | Hin%elem_of_nil]%elem_of_cons; [ | done].
    apply walkable_leaf. intros l [= <-]. by eexists.
  - vm_compute. reflexivity.
Defined.

(** On a delta that contains itself through a plain object the walk
    visits the object again and again with a longer path. *)
Lemma walkDelta_self fuel :
  ∀ pathArr acc, walkDelta fuel store_self (VRef 0) pathArr acc = None.
Proof.
  induction fuel as [ | fuel IH]; intros pathArr acc; [reflexivity | ].
  cbn [walkDelta as_object store_self lookup list_lookup].
  change (is_str_a (get [(js "self", VRef 0)] (js "_t"))) with false.
  cbv iota. cbn [foldM]. unfold objectEntry.
  rewrite decide_False by discriminate.
  change (as_array [OObj [(js "self", VRef 0)]] (VRef 0)) with (@None (list val)).
  change (isObject [OObj [(js "self", VRef 0)]] (VRef 0)) with true.
  cbv iota. by rewrite (IH (pathArr ++ [js "self"]) acc).
Qed.

(** C6 as stated fails on the delta [d] with [d.self = d]: it cannot be
    serialized and [clone] returns it as it is, yet flattening it never
    returns: however deep the call stack may grow, the walk exhausts
    it. *)
Lemma C6_counterexample :
  JSON_stringify store_self (VRef 0) = RThrow ∧
  clone store_self (VRef 0) = (store_self, VRef 0) ∧
  (∀ fuel, flattenJsonDiff fuel store_self (VRef 0) = None).
Proof.
  split; [vm_compute; reflexivity | ]. split; [vm_compute; reflexivity | ].
  intros fuel. unfold flattenJsonDiff, or_empty. cbn [truthy].
  apply walkDelta_self.
Qed.

Lemma slice_prefix (s : list N) (n : Z) :
  (0 ≤ n)%Z → (n ≤ Z.of_nat (length s))%Z → slice s 0 n = take (Z.to_nat n) s.
Proof.
  intros H0 Hn. unfold slice.
  change (0 <? 0)%Z with false. cbv iota.
  destruct (n <? 0)%Z eqn:E; [apply Z.ltb_lt in E; lia | ].
  rewrite (Z.min_l 0) by lia. rewrite (Z.min_l n) by exact Hn.
  rewrite Z.sub_0_r. reflexivity.
Qed.

(** C5, what [safeCellTruncated] does. A text longer than [maxLen] (at
    least 1) is cut to its first [maxLen - 1] code units and the marker
    literal is appended; the literal is three code units long, so the
    display string has [maxLen + 2] code units, not [maxLen]. One
    footnote is appended: the untruncated text, the row number from 1,
    and the column name (or, when that is empty, the column number from
    1). A text of at most [maxLen] code units is returned as it is,
    without a footnote. On the cell ["abcdef"] with [maxLen = 3] the
    display string is ["ab"] followed by the three code units. *)
Theorem C5_truncation (Number_toString : float → list N)
    (ToString : list obj → val → list N) :
  (∀ h v fns maxLen tableName rowIdx colIdx colName,
     let text := dequote (safeCell Number_toString ToString h v) in
     (0 < maxLen)%Z → (maxLen < Z.of_nat (length text))%Z →
     safeCellTruncated Number_toString ToString h v fns maxLen tableName
       rowIdx colIdx colName
     = (take (Z.to_nat (maxLen - 1)) text ++ ellipsis_marker,
        fns ++ [Footnote (if truthy tableName then tableName
                          else VStr (js "Table"))
                  (rowIdx + 1)
                  (if truthy colName then inl colName
                   else inr (colIdx + 1)%Z)
                  text]) ∧
     Z.of_nat (length (safeCellTruncated Number_toString ToString h v fns
                         maxLen tableName rowIdx colIdx colName).1)
     = (maxLen + 2)%Z) ∧
  (∀ h v fns maxLen tableName rowIdx colIdx colName,
     let text := dequote (safeCell Number_toString ToString h v) in
     (Z.of_nat (length text) ≤ maxLen)%Z →
     safeCellTruncated Number_toString ToString h v fns maxLen tableName
       rowIdx colIdx colName
     = (text, fns)) ∧
  safeCellTruncated Number_toString ToString [] (VStr (js "abcdef")) [] 3
    (VStr (js "a.json")) 0 2 (VStr (js "New Value"))
  = ([97; 98; 226; 8364; 166]%N,
     [Footnote (VStr (js "a.json")) 1 (inl (VStr (js "New Value")))
        (js "abcdef")]).
Proof.
  split; [ | split].
  - intros h v fns maxLen tableName rowIdx colIdx colName text H0 Hlen.
    unfold safeCellTruncated. fold text.
    destruct (maxLen <? Z.of_nat (length text))%Z eqn:E;
      [ | apply Z.ltb_ge in E; lia].
    rewrite slice_prefix by lia. split; [reflexivity | ].
    cbn [fst]. rewrite length_app, length_take. simpl length. lia.
  - intros h v fns maxLen tableName rowIdx colIdx colName text Hlen.
    unfold safeCellTruncated. fold text.
    destruct (maxLen <? Z.of_nat (length text))%Z eqn:E;
      [apply Z.ltb_lt in E; lia | reflexivity].
  - vm_compute. reflexivity.
Qed.

Lemma C5_truncation_witness :
  (safeCellTruncated integer_toString object_ToString [] (VStr (js "abcdef"))
     [] 3 (VStr (js "a.json")) 0 2 (VStr (js "New Value"))
   = (take (Z.to_nat (3 - 1)) (js "abcdef") ++ ellipsis_marker,
      [] ++ [Footnote (VStr (js "a.json")) (0 + 1) (inl (VStr (js "New Value")))
               (js "abcdef")]) ∧
   Z.of_nat (length (safeCellTruncated integer_toString object_ToString []
                       (VStr (js "abcdef")) [] 3 (VStr (js "a.json")) 0 2
                       (VStr (js "New Value"))).1)
   = (3 + 2)%Z) ∧
  safeCellTruncated integer_toString object_ToString [] (VStr (js "abc"))
    [] 3 (VStr (js "a.json")) 0 2 (VStr (js "New Value"))
  = (js "abc", []).
Proof.
  destruct (C5_truncation integer_toString object_ToString) as (H1 & H2 & _).
  split.
  - apply (H1 [] (VStr (js "abcdef")) [] 3%Z (VStr (js "a.json")) 0%Z 2%Z
             (VStr (js "New Value"))); [lia | vm_compute; reflexivity].
  - apply (H2 [] (VStr (js "abc")) [] 3%Z (VStr (js "a.json")) 0%Z 2%Z
             (VStr (js "New Value"))). vm_compute. discriminate.
Defined.

(* ================================================================= *)
(** * Part III: further properties of the code *)
(* ================================================================= *)

(* ----------------------------------------------------------------- *)
(** ** Quoting and reading back *)

Lemma hexval_hexdigit d : (d < 16)%N → hexval (hexdigit d) = Some d.
Proof.
  intros Hd. unfold hexval, hexdigit. destruct (N.ltb_spec d 10).
  - replace ((48 <=? 48 + d)%N && (48 + d <=? 57)%N) with true
      by (symmetry; apply andb_true_iff; split; apply N.leb_le; lia).
    f_equal. lia.
  - replace ((48 <=? 87 + d)%N && (87 + d <=? 57)%N) with false
      by (symmetry; apply andb_false_iff; right; apply N.leb_gt; lia).
    replace ((97 <=? 87 + d)%N && (87 + d <=? 102)%N) with true
      by (symmetry; apply andb_true_iff; split; apply N.leb_le; lia).
    f_equal. lia.
Qed.

Lemma hex_digits_value c :
  (c < 65536)%N →
  (4096 * ((c / 4096) mod 16) + 256 * ((c / 256) mod 16)
   + 16 * ((c / 16) mod 16) + c mod 16 = c)%N.
Proof.
  intros Hc.
  pose proof (N.div_mod c 16 ltac:(lia)) as E0.
  pose proof (N.div_mod (c / 16) 16 ltac:(lia)) as E1.
  pose proof (N.div_mod (c / 256) 16 ltac:(lia)) as E2.
  rewrite N.Div0.div_div in E1. rewrite N.Div0.div_div in E2.
  change (16 * 16)%N with 256%N in E1. change (256 * 16)%N with 4096%N in E2.
  assert (c / 4096 < 16)%N as E3 by (apply N.Div0.div_lt_upper_bound; lia).
  rewrite (N.mod_small (c / 4096) 16) by done.
  lia.
Qed.

Lemma parse_chars_unicode_escape c rest :
  (c < 65536)%N →
  parse_chars (unicode_escape c ++ rest)
  = match parse_chars rest with Some r => Some (c :: r) | None => None end.
Proof.
  intros Hc. unfold unicode_escape.
  cbn [app parse_chars N.eqb Pos.eqb].
  rewrite !hexval_hexdigit by (apply N.mod_lt; lia).
  by rewrite hex_digits_value.
Qed.

Lemma parse_chars_plain c rest :
  c ≠ 34%N → c ≠ 92%N → (32 ≤ c)%N →
  parse_chars (c :: rest)
  = match parse_chars rest with Some r => Some (c :: r) | None => None end.
Proof.
  intros H1 H2 H3. cbn [parse_chars].
  rewrite (proj2 (N.eqb_neq c 34)), (proj2 (N.eqb_neq c 92)) by done.
  by rewrite (proj2 (N.ltb_ge c 32)).
Qed.

(** [JSON.parse] reads the text of QuoteJSONString back to the string. *)
Lemma parse_chars_quote_units n :
  ∀ s, length s ≤ n → Forall (λ c, (c < 65536)%N) s →
       parse_chars (quote_units s ++ [34%N]) = Some s.
Proof.
  induction n as [ | n IH]; intros s Hn Hs.
  { destruct s; [reflexivity | simpl in Hn; lia]. }
  destruct s as [ | c rest]; [reflexivity | ].
  apply Forall_cons in Hs as [Hc Hrest]. simpl in Hn.
  assert (IHrest := IH rest ltac:(lia) Hrest).
  cbn [quote_units].
  destruct (N.eqb_spec c 8) as [-> | ?];
    [change (js "\b") with [92; 98]%N; cbn; by rewrite IHrest | ].
  destruct (N.eqb_spec c 9) as [-> | ?];
    [change (js "\t") with [92; 116]%N; cbn; by rewrite IHrest | ].
  destruct (N.eqb_spec c 10) as [-> | ?];
    [change (js "\n") with [92; 110]%N; cbn; by rewrite IHrest | ].
  destruct (N.eqb_spec c 12) as [-> | ?];
    [change (js "\f") with [92; 102]%N; cbn; by rewrite IHrest | ].
  destruct (N.eqb_spec c 13) as [-> | ?];
    [change (js "\r") with [92; 114]%N; cbn; by rewrite IHrest | ].
  destruct (N.eqb_spec c 34) as [-> | ?]; [cbn; by rewrite IHrest | ].
  destruct (N.eqb_spec c 92) as [-> | ?]; [cbn; by rewrite IHrest | ].
  destruct (N.ltb_spec c 32).
  { rewrite <- app_assoc, parse_chars_unicode_escape by done. by rewrite IHrest. }
  unfold is_high_surrogate, is_low_surrogate.
  destruct (N.leb_spec 55296 c); cbn [andb].
  - destruct (N.leb_spec c 56319); cbn [andb].
    + destruct rest as [ | d rest'].
      * rewrite parse_chars_unicode_escape by done. reflexivity.
      * destruct (N.leb_spec 56320 d); cbn [andb];
          [destruct (N.leb_spec d 57343); cbn [andb] | ].
        -- apply Forall_cons in Hrest as [Hd Hrest']. simpl in Hn.
           change ((c :: d :: quote_units rest') ++ [34%N])
             with (c :: d :: (quote_units rest' ++ [34%N])).
           rewrite !parse_chars_plain by lia.
           by rewrite (IH rest' ltac:(lia) Hrest').
        -- rewrite <- app_assoc, parse_chars_unicode_escape by done.
           by rewrite IHrest.
        -- rewrite <- app_assoc, parse_chars_unicode_escape by done.
           by rewrite IHrest.
    + destruct (N.leb_spec 56320 c); cbn [andb];
        [destruct (N.leb_spec c 57343); cbn [andb] | lia].
      * rewrite <- app_assoc, parse_chars_unicode_escape by done.
        by rewrite IHrest.
      * change ((c :: quote_units rest) ++ [34%N])
          with (c :: (quote_units rest ++ [34%N])).
        rewrite parse_chars_plain by lia. by rewrite IHrest.
  - destruct (N.leb_spec 56320 c); cbn [andb]; [lia | ].
    change ((c :: quote_units rest) ++ [34%N])
      with (c :: (quote_units rest ++ [34%N])).
    rewrite parse_chars_plain by lia. by rewrite IHrest.
Qed.

Lemma JSON_parse_string_quote s :
  Forall (λ c, (c < 65536)%N) s → JSON_parse_string (quote s) = Some s.
Proof. intros Hs. by apply (parse_chars_quote_units (length s)). Qed.

(* ----------------------------------------------------------------- *)
(** ** Cells *)

Lemma last_quote s : last (quote s) = Some 34%N.
Proof. unfold quote. by rewrite app_assoc, last_snoc. Qed.

Lemma length_quote s : 2 ≤ length (quote s).
Proof. unfold quote. rewrite !length_app. simpl. lia. Qed.

Lemma dequote_quote s : Forall (λ c, (c < 65536)%N) s → dequote (quote s) = s.
Proof.
  intros Hs. unfold dequote.
  rewrite (proj2 (Nat.leb_le _ _) (length_quote s)), last_quote.
  rewrite JSON_parse_string_quote by done. reflexivity.
Qed.

(** X1. A string that a table builder of index.js wrote with
    [JSON.stringify] is shown by a cell of the document as the string
    itself: [JSON.parse] reads the quoted text back to the string, so
    [dequote(safeCell(text))] is the string, whatever 16-bit code units
    it is made of (quotes, backslashes, control characters and lone
    surrogates included). *)
Theorem X1_string_cell_round_trip (Number_toString : float → list N)
    (ToString : list obj → val → list N) h s :
  Forall (λ c, (c < 65536)%N) s →
  JSON_parse_string (quote s) = Some s ∧
  stringify_val Number_toString h (VStr s) = Some (VStr (quote s)) ∧
  dequote (safeCell Number_toString ToString h (VStr (quote s))) = s.
Proof.
  intros Hs. split; [by apply JSON_parse_string_quote | ]. split.
  - unfold stringify_val, JSON_stringify. destruct (length h); reflexivity.
  - cbn [safeCell]. by apply dequote_quote.
Qed.

Lemma X1_string_cell_round_trip_witness :
  JSON_parse_string (quote [97; 34; 98; 92]%N) = Some [97; 34; 98; 92]%N ∧
  stringify_val integer_toString [] (VStr [97; 34; 98; 92]%N)
    = Some (VStr (quote [97; 34; 98; 92]%N)) ∧
  dequote (safeCell integer_toString object_ToString []
             (VStr (quote [97; 34; 98; 92]%N))) = [97; 34; 98; 92]%N.
Proof.
  apply (X1_string_cell_round_trip integer_toString object_ToString []
           [97; 34; 98; 92]%N).
  repeat (apply List.Forall_cons; [reflexivity | ]). apply List.Forall_nil.
Defined.

Lemma parse_chars_length n :
  ∀ s r, length s ≤ n → parse_chars s = Some r → length r + 1 ≤ length s.
Proof.
  induction n as [ | n IH]; intros s r Hn E.
  { destruct s; [discriminate | simpl in Hn; lia]. }
  destruct s as [ | c rest]; [discriminate | ]. simpl in Hn.
  cbn [parse_chars] in E.
  destruct (c =? 34)%N.
  { destruct rest; [ | discriminate]. injection E as <-. simpl. lia. }
  destruct (c =? 92)%N.
  - destruct rest as [ | e rest']; [discriminate | ]. simpl in Hn.
    destruct (e =? 117)%N.
    + destruct rest' as [ | x3 [ | x2 [ | x1 [ | x0 rest'']]]]; try discriminate.
      simpl in Hn.
      destruct (hexval x3), (hexval x2), (hexval x1), (hexval x0);
        try discriminate.
      destruct (parse_chars rest'') as [r' | ] eqn:E'; [ | discriminate].
      injection E as <-. apply IH in E'; [ | lia]. simpl. lia.
    + destruct (unescape e); [ | discriminate].
      destruct (parse_chars rest') as [r' | ] eqn:E'; [ | discriminate].
      injection E as <-. apply IH in E'; [ | lia]. simpl. lia.
  - destruct (c <? 32)%N; [discriminate | ].
    destruct (parse_chars rest) as [r' | ] eqn:E'; [ | discriminate].
    injection E as <-. apply IH in E'; [ | lia]. simpl. lia.
Qed.

Lemma length_slice_inner (s : list N) :
  2 ≤ length s → length (slice s 1 (-1)) + 2 = length s.
Proof.
  intros Hs. unfold slice. cbn [Z.ltb Z.compare].
  rewrite length_take, length_drop. lia.
Qed.

(** X2. [dequote] never lengthens a text. A text of two code units or
    more that begins and ends with a double quote is never shown as it
    is: the result is at least two code units shorter (the string the
    text denotes, or the text without its first and last code unit when
    it does not parse). Every other text, a lone quote among them, is
    left as it is. *)
Theorem X2_dequote_shortens str :
  length (dequote str) ≤ length str ∧
  (2 ≤ length str → head str = Some 34%N → last str = Some 34%N →
   length (dequote str) + 2 ≤ length str ∧ dequote str ≠ str) ∧
  (¬ (2 ≤ length str ∧ head str = Some 34%N ∧ last str = Some 34%N) →
   dequote str = str).
Proof.
  assert (Hq : 2 ≤ length str → head str = Some 34%N → last str = Some 34%N →
               length (dequote str) + 2 ≤ length str).
  { intros E2 Eh El. unfold dequote.
    rewrite (proj2 (Nat.leb_le _ _) E2), Eh, El.
    rewrite !bool_decide_eq_true_2 by done. cbn [andb].
    destruct (JSON_parse_string str) as [r | ] eqn:E.
    - destruct str as [ | c rest]; [discriminate | ].
      simpl in Eh. injection Eh as ->. cbn [JSON_parse_string] in E.
      apply (parse_chars_length (length rest)) in E; [ | lia]. simpl. lia.
    - rewrite <- (length_slice_inner str E2). lia. }
  assert (Hn : ¬ (2 ≤ length str ∧ head str = Some 34%N ∧ last str = Some 34%N) →
               dequote str = str).
  { intros Hno. unfold dequote.
    destruct (2 <=? length str) eqn:E2; cbn [andb]; [ | reflexivity].
    destruct (bool_decide (head str = Some 34%N)) eqn:Eh; cbn [andb];
      [ | reflexivity].
    destruct (bool_decide (last str = Some 34%N)) eqn:El; cbn [andb];
      [ | reflexivity].
    exfalso. apply Hno. apply Nat.leb_le in E2.
    apply bool_decide_eq_true in Eh, El. done. }
  split; [ | split; [ | exact Hn]].
  - destruct (decide (2 ≤ length str ∧ head str = Some 34%N
                      ∧ last str = Some 34%N)) as [(E2 & Eh & El) | Hno].
    + specialize (Hq E2 Eh El). lia.
    + by rewrite (Hn Hno).
  - intros E2 Eh El. specialize (Hq E2 Eh El). split; [exact Hq | ].
    intros E. rewrite E in Hq. lia.
Qed.

Lemma X2_dequote_shortens_witness :
  (length (dequote [34; 97; 34; 98; 34]%N) + 2 ≤ length [34; 97; 34; 98; 34]%N
   ∧ dequote [34; 97; 34; 98; 34]%N ≠ [34; 97; 34; 98; 34]%N) ∧
  dequote [34%N] = [34%N].
Proof.
  destruct (X2_dequote_shortens [34; 97; 34; 98; 34]%N) as (_ & H2 & _).
  destruct (X2_dequote_shortens [34%N]) as (_ & _ & H3).
  split.
  - apply H2; [simpl; lia | reflexivity | reflexivity].
  - apply H3. intros (Hlen & _). simpl in Hlen. lia.
Defined.

(* ----------------------------------------------------------------- *)
(** ** Cells of values that hold a tree, and of cyclic ones *)

(** X3. [safeCell] on a value that holds a JSON tree never falls back
    to [String(v)]: it is the empty string for [null], the string
    itself for a string, and the JSON text of the tree otherwise. On
    an object that contains itself [JSON.stringify] throws, and the
    cell is [String(v)]. *)
Theorem X3_safeCell_values (Number_toString : float → list N)
    (ToString : list obj → val → list N) :
  (∀ lo h j v,
     rep lo h j v →
     safeCell Number_toString ToString h v
     = match j with
       | JNull => []
       | JStr s => s
       | _ => JSON_text Number_toString (norm j)
       end) ∧
  (∀ h l, cyclic h l →
          safeCell Number_toString ToString h (VRef l) = ToString h (VRef l)).
Proof.
  split.
  - intros lo h j v Hrep.
    pose proof (JSON_stringify_rep lo h j v Hrep) as E.
    destruct Hrep; cbn [safeCell]; try reflexivity; by rewrite E.
  - intros h l Hc. cbn [safeCell]. by rewrite (cyclic_throws h l Hc).
Qed.

Lemma X3_safeCell_values_witness :
  safeCell integer_toString object_ToString store_add_mod (VRef 2)
  = JSON_text integer_toString (norm delta_add_mod) ∧
  safeCell integer_toString object_ToString store_self (VRef 0)
  = object_ToString store_self (VRef 0).
Proof.
  destruct (X3_safeCell_values integer_toString object_ToString) as [H1 H2].
  split.
  - apply (H1 0 store_add_mod delta_add_mod (VRef 2)). holds.
  - apply (H2 store_self 0). exists (VRef 0). split.
    + right. exists [(js "self", VRef 0)], (js "self").
      split; [reflexivity | by left].
    + constructor.
Defined.

(* ----------------------------------------------------------------- *)
(** ** Tables of the document *)

Section Drawn.

Variable Number_toString : float → list N.
Variable ToString : list obj → val → list N.

(** The footnotes already there play no part in what a cell adds. *)
Lemma safeCellTruncated_frame h v fns maxLen tableName rowIdx colIdx colName :
  safeCellTruncated Number_toString ToString h v fns maxLen tableName rowIdx
    colIdx colName
  = ((safeCellTruncated Number_toString ToString h v [] maxLen tableName
        rowIdx colIdx colName).1,
     fns ++ (safeCellTruncated Number_toString ToString h v [] maxLen tableName
               rowIdx colIdx colName).2).
Proof.
  unfold safeCellTruncated.
  destruct (_ <? _)%Z; simpl; [reflexivity | by rewrite app_nil_r].
Qed.

Lemma cellOf_note h columns maxLen title idx row i :
  length (cellOf Number_toString ToString h columns maxLen title idx row i).2
  = if tooLong Number_toString ToString h maxLen (elem row i) then 1 else 0.
Proof.
  unfold cellOf, safeCellTruncated, tooLong. by destruct (_ <? _)%Z.
Qed.

Lemma cellsPass_fold h columns maxLen title idx row is_ :
  ∀ texts fns,
    foldl (λ st i,
             let '(text, fns) :=
               safeCellTruncated Number_toString ToString h (elem row i) st.2
                 maxLen title (Z.of_nat idx) (Z.of_nat i) (elem columns i) in
             (st.1 ++ [text], fns))
      (texts, fns) is_
    = (texts ++ map (λ i, (cellOf Number_toString ToString h columns maxLen
                             title idx row i).1) is_,
       fns ++ flat_map (λ i, (cellOf Number_toString ToString h columns maxLen
                                title idx row i).2) is_).
Proof.
  induction is_ as [ | i is_ IH]; intros texts fns.
  - simpl. by rewrite !app_nil_r.
  - cbn [foldl fst snd]. rewrite safeCellTruncated_frame.
    rewrite IH. cbn [map flat_map]. unfold cellOf.
    by rewrite <- !app_assoc.
Qed.

Lemma cellsPass_eq h columns maxLen title idx row fns :
  cellsPass Number_toString ToString h columns maxLen title idx row fns
  = (map (λ i, (cellOf Number_toString ToString h columns maxLen title idx
                  row i).1) (seq 0 (length columns)),
     fns ++ flat_map (λ i, (cellOf Number_toString ToString h columns maxLen
                              title idx row i).2) (seq 0 (length columns))).
Proof. unfold cellsPass. by rewrite cellsPass_fold. Qed.

Lemma drawRows_eq h columns maxLen title rows :
  ∀ drawn fns idx,
    drawRows Number_toString ToString h columns maxLen title (drawn, fns) idx
      rows
    = (drawn ++
       imap (λ k row,
               map (λ i, (cellOf Number_toString ToString h columns maxLen
                            title (idx + k) row i).1)
                 (seq 0 (length columns))) rows,
       fns ++
       concat
         (imap (λ k row,
                  let notes :=
                    flat_map (λ i, (cellOf Number_toString ToString h columns
                                      maxLen title (idx + k) row i).2)
                      (seq 0 (length columns)) in
                  notes ++ notes) rows)).
Proof.
  induction rows as [ | row rows IH]; intros drawn fns idx.
  - simpl. by rewrite !app_nil_r.
  - cbn [drawRows]. unfold drawRow. cbn [fst snd].
    rewrite !cellsPass_eq, IH. cbn [imap concat].
    rewrite Nat.add_0_r, <- !app_assoc. cbn [app].
    f_equal; [f_equal; f_equal | f_equal; f_equal; f_equal; f_equal];
      apply imap_ext; intros k r _; unfold compose;
      by replace (idx + S k) with (S idx + k) by lia.
Qed.

Lemma notes_length h columns maxLen title rows :
  ∀ idx,
    length
      (concat
         (imap (λ k row,
                  let notes :=
                    flat_map (λ i, (cellOf Number_toString ToString h columns
                                      maxLen title (idx + k) row i).2)
                      (seq 0 (length columns)) in
                  notes ++ notes) rows))
    = 2 * sum_list
            (map (λ row,
                    length (List.filter (tooLong Number_toString ToString h maxLen)
                              (map (elem row) (seq 0 (length columns)))))
               rows).
Proof.
  induction rows as [ | row rows IH]; intros idx; [reflexivity | ].
  cbn [imap concat map sum_list]. rewrite !length_app.
  rewrite (imap_ext _ (λ k r,
             let notes :=
               flat_map (λ i, (cellOf Number_toString ToString h columns
                                 maxLen title (S idx + k) r i).2)
                 (seq 0 (length columns)) in
             notes ++ notes) rows) by
    (intros k r _; unfold compose;
     by replace (idx + S k) with (S idx + k) by lia).
  rewrite (IH (S idx)), Nat.add_0_r.
  assert (Hrow : ∀ is_,
    length (flat_map (λ i, (cellOf Number_toString ToString h columns maxLen
                              title idx row i).2) is_)
    = length (List.filter (tooLong Number_toString ToString h maxLen)
                (map (elem row) is_))).
  { induction is_ as [ | i is_ IHi]; [reflexivity | ].
    cbn [flat_map map List.filter]. rewrite length_app, cellOf_note, IHi.
    by destruct (tooLong _ _ _ _ _). }
  rewrite Hrow. unfold id. lia.
Qed.

Lemma drawn_cells h columns maxLen title rows :
  (0 < maxLen)%Z →
  ∀ idx,
    Forall2 (λ (row : list val) texts,
               length texts = length columns ∧
               Forall (λ t, (Z.of_nat (length t) ≤ maxLen + 2)%Z) texts ∧
               ∀ i, i < length columns →
                    tooLong Number_toString ToString h maxLen (elem row i)
                    = false →
                    texts !! i
                    = Some (dequote (safeCell Number_toString ToString h
                                       (elem row i))))
      rows
      (imap (λ k row,
               map (λ i, (cellOf Number_toString ToString h columns maxLen
                            title (idx + k) row i).1)
                 (seq 0 (length columns))) rows).
Proof.
  intros Hpos.
  induction rows as [ | row rows IH]; intros idx; [constructor | ].
  cbn [imap]. constructor.
  - split; [by rewrite length_map, length_seq | ]. split.
    + apply Forall_fmap, Forall_forall. intros i _. simpl.
      unfold cellOf, safeCellTruncated.
      destruct (Z.ltb_spec maxLen
                  (Z.of_nat (length (dequote (safeCell Number_toString ToString
                                                h (elem row i)))))).
      * cbn [fst]. rewrite slice_prefix by lia.
        rewrite length_app, length_take. simpl. lia.
      * cbn [fst]. lia.
    + intros i Hi Hshort.
      rewrite list_lookup_fmap, lookup_seq_lt by done. simpl.
      unfold cellOf, safeCellTruncated. unfold tooLong in Hshort.
      by rewrite Hshort.
  - rewrite (imap_ext _ (λ k r,
               map (λ i, (cellOf Number_toString ToString h columns maxLen
                            title (S idx + k) r i).1)
                 (seq 0 (length columns))) rows) by
      (intros k r _; unfold compose;
       by replace (idx + S k) with (S idx + k) by lia).
    apply IH.
Qed.

End Drawn.

(** X4. [drawTable] calls [safeCellTruncated] twice for every cell,
    once to measure and once to draw, on the same [footnotes] array:
    every row leaves its footnotes twice in a row, and the array grows
    by two entries for each over-long cell among the first
    [columns.length] cells of each row. *)
Theorem X4_drawTable_footnotes (Number_toString : float → list N)
    (ToString : list obj → val → list N) h columns rows title maxCellLen fns :
  let maxLen := maxCellLen_or maxCellLen in
  let notes idx row :=
    flat_map (λ i, (cellOf Number_toString ToString h columns maxLen title
                      idx row i).2) (seq 0 (length columns)) in
  (drawTable Number_toString ToString h columns rows title maxCellLen fns).2
  = fns ++ concat (imap (λ idx row, notes idx row ++ notes idx row) rows) ∧
  length (drawTable Number_toString ToString h columns rows title maxCellLen
            fns).2
  = length fns
    + 2 * sum_list
            (map (λ row,
                    length (List.filter (tooLong Number_toString ToString h maxLen)
                              (map (elem row) (seq 0 (length columns)))))
               rows).
Proof.
  intros maxLen notes. unfold drawTable. rewrite drawRows_eq. cbn [snd].
  fold maxLen. split; [reflexivity | ].
  rewrite length_app. f_equal.
  apply (notes_length Number_toString ToString h columns maxLen title rows 0).
Qed.

(** X5. With a positive [maxCellLen] (or the default 140), [drawTable]
    draws one row of texts per row of the table, each of exactly
    [columns.length] texts whatever the length of the row; no text is
    longer than [maxCellLen + 2] code units, and a cell whose text fits
    is drawn as [dequote(safeCell(cell))]. *)
Theorem X5_drawTable_cells (Number_toString : float → list N)
    (ToString : list obj → val → list N) h columns rows title maxCellLen fns :
  (0 < maxCellLen_or maxCellLen)%Z →
  Forall2 (λ (row : list val) texts,
             length texts = length columns ∧
             Forall (λ t, (Z.of_nat (length t) ≤ maxCellLen_or maxCellLen + 2)%Z)
               texts ∧
             ∀ i, i < length columns →
                  tooLong Number_toString ToString h (maxCellLen_or maxCellLen)
                    (elem row i) = false →
                  texts !! i
                  = Some (dequote (safeCell Number_toString ToString h
                                     (elem row i))))
    rows
    (drawTable Number_toString ToString h columns rows title maxCellLen fns).1.
Proof.
  intros Hpos. unfold drawTable. rewrite drawRows_eq. cbn [fst app].
  by apply (drawn_cells Number_toString ToString h columns _ title rows Hpos 0).
Qed.

Lemma X5_drawTable_cells_witness :
  Forall2 (λ (row : list val) texts,
             length texts = length columns_sample ∧
             Forall (λ t, (Z.of_nat (length t) ≤ maxCellLen_or (Some 3%Z) + 2)%Z)
               texts ∧
             ∀ i, i < length columns_sample →
                  tooLong integer_toString object_ToString []
                    (maxCellLen_or (Some 3%Z)) (elem row i) = false →
                  texts !! i
                  = Some (dequote (safeCell integer_toString object_ToString []
                                     (elem row i))))
    rows_sample
    (drawTable integer_toString object_ToString [] columns_sample rows_sample
       (VStr (js "a.json")) (Some 3%Z) []).1.
Proof.
  apply (X5_drawTable_cells integer_toString object_ToString [] columns_sample
           rows_sample (VStr (js "a.json")) (Some 3%Z) []).
  reflexivity.
Defined.

(* ----------------------------------------------------------------- *)
(** ** What the upload heuristic lets through *)

Lemma flat_map_nil_Forall {A B} (f : A → list B) l :
  Forall (λ x, f x = []) l → flat_map f l = [].
Proof. induction 1 as [ | x l E _ IH]; simpl; [reflexivity | by rewrite E, IH]. Qed.

(** A tree that [isDelta] rejects has no array below its objects, and
    so no row. *)
Lemma isDelta_false_no_rows keep fallback j :
  ∀ path_, isDelta j = false → treeWalk keep fallback j path_ = [].
Proof.
  induction j as [ | b | f | s | items IH | ms IH] using json_strong_ind;
    intros path_ Hd; try reflexivity.
  rewrite treeWalk_obj. apply flat_map_nil_Forall.
  cbn [isDelta] in Hd. apply orb_false_iff in Hd as [_ Hd].
  apply Forall_forall. intros [k e] Hin.
  rewrite Forall_forall in IH. specialize (IH _ Hin). simpl in IH.
  assert (He : match e with JArr _ => true | JObj _ => isDelta e | _ => false end
               = false).
  { destruct (match e with JArr _ => true | JObj _ => isDelta e | _ => false end)
      eqn:E; [ | reflexivity].
    rewrite <- Hd. symmetry. apply existsb_exists. exists (k, e).
    split; [by apply list_elem_of_In | exact E]. }
  unfold treeEntry; cbn [fst snd].
  destruct (decide (k = js "_t")); [reflexivity | ].
  destruct e as [ | | | | es | ms']; try reflexivity; [discriminate | ].
  by apply IH.
Qed.

(* ----------------------------------------------------------------- *)
(** ** Paths *)

Lemma join_cons sep p q :
  q ≠ [] → join sep (p :: q) = p ++ sep ++ join sep q.
Proof. destruct q; [congruence | reflexivity]. Qed.

Lemma join_app sep q r :
  q ≠ [] → r ≠ [] → join sep (q ++ r) = join sep q ++ sep ++ join sep r.
Proof.
  intros Hq Hr. induction q as [ | a q IH]; [congruence | ].
  destruct q as [ | b q].
  - change ([a] ++ r) with (a :: r). by rewrite join_cons.
  - change ((a :: b :: q) ++ r) with (a :: (b :: q) ++ r).
    rewrite join_cons by (simpl; congruence).
    rewrite IH by congruence. rewrite (join_cons sep a (b :: q)) by congruence.
    by rewrite <- !app_assoc.
Qed.

Lemma arrayLeaf_under keep pre p es :
  arrayLeaf keep (pre ++ p) es = map (under pre) (arrayLeaf keep p es).
Proof.
  rewrite !arrayLeaf_shape.
  destruct es as [ | ? [ | ? [ | ? ?]]]; try reflexivity.
  destruct (ojzero _ && ojzero _); reflexivity.
Qed.

Lemma objectLeaf_under keep fallback pre p es :
  objectLeaf keep fallback (pre ++ p) es
  = map (under pre) (objectLeaf keep fallback p es).
Proof.
  rewrite !objectLeaf_shape.
  destruct es as [ | ? [ | ? [ | ? ?]]]; try reflexivity.
  destruct (ojzero _ && ojzero _); [reflexivity | ].
  destruct fallback; reflexivity.
Qed.

(** Walking a node under a path gives the rows of the node walked under
    the rest of the path, with the joined prefix in front. *)
Lemma treeWalk_under keep fallback j :
  ∀ q p, q ≠ [] →
         treeWalk keep fallback j (q ++ p)
         = map (under (join (js ".") q ++ js ".")) (treeWalk keep fallback j p).
Proof.
  induction j as [ | b | f | s | items IH | ms IH] using json_strong_ind;
    intros q p Hq; try reflexivity.
  rewrite !treeWalk_obj. apply flat_map_map_Forall.
  apply Forall_forall. intros [k e] Hin.
  rewrite Forall_forall in IH. specialize (IH _ Hin). simpl in IH.
  unfold treeEntry; cbn [fst snd].
  destruct (decide (k = js "_t")); [reflexivity | ].
  rewrite <- !app_assoc.
  destruct e as [ | | | | es | ms']; try reflexivity.
  - rewrite join_app by (try done; by destruct p).
    rewrite (app_assoc (join (js ".") q)).
    destruct (jmarker ms); [apply arrayLeaf_under | apply objectLeaf_under].
  - by apply IH.
Qed.

(* ----------------------------------------------------------------- *)
(** ** The sides of a row *)

Lemma arrayLeaf_sides keep p es :
  Forall (λ r : prow, r.1.1 = p ∧ (r.1.2 ≠ None ∨ r.2 ≠ None))
    (arrayLeaf keep p es).
Proof.
  rewrite arrayLeaf_shape.
  destruct es as [ | ? [ | ? [ | ? ?]]]; [constructor | | | ];
    try destruct (ojzero _ && ojzero _);
    repeat first [ apply List.Forall_nil
                 | apply List.Forall_cons;
                   [split; [reflexivity | simpl; (by left) || (by right)] | ] ].
Qed.

Lemma objectLeaf_sides keep fallback p es :
  Forall (λ r : prow, r.1.1 = p ∧ (r.1.2 ≠ None ∨ r.2 ≠ None))
    (objectLeaf keep fallback p es).
Proof.
  rewrite objectLeaf_shape.
  destruct es as [ | ? [ | ? [ | ? ?]]]; [constructor | | | ];
    try destruct (ojzero _ && ojzero _); try destruct fallback;
    repeat first [ apply List.Forall_nil
                 | apply List.Forall_cons;
                   [split; [reflexivity | simpl; (by left) || (by right)] | ] ].
Qed.

Lemma Forall_flat_map_Forall {A B} (P : B → Prop) (f : A → list B) l :
  Forall (λ x, Forall P (f x)) l → Forall P (flat_map f l).
Proof.
  induction 1 as [ | x l E _ IH]; simpl; [constructor | by apply Forall_app].
Qed.

(** No row of a tree has both sides absent. *)
Lemma treeWalk_sides keep fallback j :
  ∀ path_, Forall (λ r : prow, r.1.2 ≠ None ∨ r.2 ≠ None)
             (treeWalk keep fallback j path_).
Proof.
  induction j as [ | b | f | s | items IH | ms IH] using json_strong_ind;
    intros path_; try constructor.
  rewrite treeWalk_obj. apply Forall_flat_map_Forall.
  apply Forall_forall. intros [k e] Hin.
  rewrite Forall_forall in IH. specialize (IH _ Hin). simpl in IH.
  unfold treeEntry; cbn [fst snd].
  destruct (decide (k = js "_t")); [constructor | ].
  destruct e as [ | | | | es | ms']; try constructor.
  - destruct (jmarker ms);
      [eapply Forall_impl; [apply arrayLeaf_sides | ]
      | eapply Forall_impl; [apply objectLeaf_sides | ]]; intros ? [_ ?]; done.
  - apply IH.
Qed.

(* ----------------------------------------------------------------- *)
(** ** The rows of the two walks *)

Lemma sublist_flat_map_Forall {A B} (f g : A → list B) l :
  Forall (λ x, f x `sublist_of` g x) l → flat_map f l `sublist_of` flat_map g l.
Proof.
  induction 1 as [ | x l E _ IH]; simpl; [constructor | by apply sublist_app].
Qed.

(** The walk without the degraded modification finds a sub-list of the
    rows of the walk with it. *)
Lemma treeWalk_fallback_sublist keep j :
  ∀ path_, treeWalk keep false j path_ `sublist_of` treeWalk keep true j path_.
Proof.
  induction j as [ | b | f | s | items IH | ms IH] using json_strong_ind;
    intros path_; try constructor.
  rewrite !treeWalk_obj. apply sublist_flat_map_Forall.
  apply Forall_forall. intros [k e] Hin.
  rewrite Forall_forall in IH. specialize (IH _ Hin). simpl in IH.
  unfold treeEntry; cbn [fst snd].
  destruct (decide (k = js "_t")); [constructor | ].
  destruct e as [ | | | | es | ms']; try constructor.
  - destruct (jmarker ms); [reflexivity | ].
    rewrite !objectLeaf_shape.
    destruct es as [ | ? [ | ? [ | ? ?]]]; try reflexivity.
    destruct (ojzero _ && ojzero _); [reflexivity | ].
    apply sublist_nil_l.
  - apply IH.
Qed.

Lemma Forall2_sublist_l {A B} (R : A → B → Prop) xs ys xs' :
  Forall2 R xs ys → xs' `sublist_of` xs →
  ∃ ys', ys' `sublist_of` ys ∧ Forall2 R xs' ys'.
Proof.
  intros HF. revert xs'.
  induction HF as [ | x y xs ys Hxy _ IH]; intros xs' Hs.
  - apply sublist_nil_r in Hs as ->. exists []. split; constructor.
  - inversion Hs as [ | ? l1 ? Hs' | ? l1 ? Hs']; subst.
    + destruct (IH _ Hs') as (ys' & ? & ?). exists (y :: ys').
      split; [by apply sublist_skip | by constructor].
    + destruct (IH _ Hs') as (ys' & ? & ?). exists ys'.
      split; [by apply sublist_cons | done].
Qed.

(* ----------------------------------------------------------------- *)
(** ** Grouping keeps every entry *)

Lemma select_cons {A} k k' (r : A) recs :
  select k ((k', r) :: recs)
  = (if decide (k' = k) then [r] else []) ++ select k recs.
Proof.
  unfold select. cbn [List.filter fst]. 
  destruct (decide (k' = k)) as [-> | Hne].
  - by rewrite bool_decide_eq_true_2.
  - by rewrite bool_decide_eq_false_2.
Qed.

Lemma select_skip {A} (k : list N) (r : list N * A) recs ks :
  r.1 ∉ ks →
  flat_map (λ f, select f (r :: recs)) ks = flat_map (λ f, select f recs) ks.
Proof.
  intros Hk. apply flat_map_ext_Forall, Forall_forall. intros f Hf.
  destruct r as [k' a]. rewrite select_cons.
  destruct (decide (k' = f)) as [-> | ?]; [ | reflexivity].
  exfalso. apply Hk. by apply list_elem_of_In.
Qed.

Lemma select_all {A} (recs : list (list N * A)) ks :
  NoDup ks → (∀ k, k ∈ recs.*1 → k ∈ ks) →
  flat_map (λ f, select f recs) ks ≡ₚ recs.*2.
Proof.
  intros Hnd. induction recs as [ | [k a] recs IH]; intros Hks.
  - simpl. rewrite flat_map_nil_Forall; [done | ].
    apply Forall_forall. intros; reflexivity.
  - assert (Hk : k ∈ ks) by (apply Hks; simpl; left).
    apply list_elem_of_split in Hk as (l1 & l2 & ->).
    apply NoDup_app in Hnd as Hnd'. destruct Hnd' as (_ & H1 & Hnd2).
    apply NoDup_cons in Hnd2 as [H2 _].
    assert (IH' := IH ltac:(intros k' Hk'; apply Hks; simpl; by right)).
    rewrite flat_map_app in IH' |- *. cbn [flat_map] in IH' |- *.
    rewrite (select_skip k (k, a) recs l1), (select_skip k (k, a) recs l2);
      [ | simpl; done | simpl; intros Hin; apply (H1 k); [done | left] ].
    rewrite select_cons, decide_True by done.
    simpl. rewrite <- IH'. symmetry. apply Permutation_middle.
Qed.

Lemma grouped_all {A} (recs : list (list N * A)) :
  flat_map snd (grouped recs) ≡ₚ recs.*2.
Proof.
  unfold grouped. rewrite flat_map_concat_map, map_map. simpl.
  rewrite <- flat_map_concat_map.
  apply select_all; [apply NoDup_first_seen | ].
  intros k Hk. by apply elem_of_first_seen.
Qed.

Lemma select_first_seen_nonempty {A} (recs : list (list N * A)) f :
  f ∈ first_seen recs.*1 → select f recs ≠ [].
Proof.
  rewrite elem_of_first_seen. intros Hf.
  apply list_elem_of_fmap in Hf as ([k a] & -> & Hin).
  apply list_elem_of_split in Hin as (l1 & l2 & ->).
  unfold select. rewrite List.filter_app. cbn [List.filter fst].
  rewrite bool_decide_eq_true_2 by done.
  rewrite fmap_app. simpl. by destruct ((List.filter _ l1).*2).
Qed.

Lemma rep_defined lo h j v : rep lo h j v → v ≠ VUndef.
Proof. by destruct 1. Qed.

Lemma Forall2_Forall_r_impl {A B} (R : A → B → Prop) (P : A → Prop)
    (Q : B → Prop) xs ys :
  (∀ x y, R x y → P x → Q y) → Forall2 R xs ys → Forall P xs → Forall Q ys.
Proof.
  intros HR. induction 1 as [ | x y xs ys Hxy _ IH]; intros HP; constructor.
  - apply (HR x y Hxy). by inversion HP.
  - apply IH. by inversion HP.
Qed.

(** X6. A parsed file that the heuristic [isDelta] rejects (case 1 of
    [/api/template/upload], which forwards it) has no record:
    [flattenJsonDiff] and [flattenDelta] both return the empty list on
    it. Forwarding such a file never keeps an addition out of the table
    of case 2. *)
Theorem X6_upload_gate fuel h j delta :
  rep 0 h j delta → depth j < fuel → isDelta j = false →
  (∃ ext, flattenJsonDiff fuel h delta = Some (h ++ ext, [])) ∧
  (∃ ext, flattenDelta fuel h delta = Some (h ++ ext, [])).
Proof.
  intros Hrep Hd Hno. split.
  - destruct (flattenJsonDiff_rep fuel h j delta Hrep Hd) as (ext & rs & E & Hrs).
    rewrite (isDelta_false_no_rows norm true j [] Hno) in Hrs.
    inversion Hrs; subst. by exists ext.
  - destruct (flattenDelta_rep fuel 0 h j delta Hrep Hd) as (ext & rs & E & Hrs).
    rewrite (isDelta_false_no_rows id false j [] Hno) in Hrs.
    inversion Hrs; subst. by exists ext.
Qed.

Lemma X6_upload_gate_witness :
  (∃ ext, flattenJsonDiff 2 store_template (VRef 0)
          = Some (store_template ++ ext, [])) ∧
  (∃ ext, flattenDelta 2 store_template (VRef 0)
          = Some (store_template ++ ext, [])).
Proof.
  apply (X6_upload_gate 2 store_template tree_template (VRef 0));
    [holds | simpl; lia | reflexivity].
Defined.

Lemma forwardTemplate_caught (fetch : list N → fetched) template :
  forwardTemplate fetch template = Caught ↔
  fetch template = Rejected ∨
  ∃ status, fetch template = Response true status (Some JNull).
Proof.
  unfold forwardTemplate. destruct (fetch template) as [ | ok status body].
  - split; [by left | done].
  - split.
    + destruct ok; cbn [negb]; [ | discriminate].
      destruct body as [[ | | | | | ms] | ]; simpl; try discriminate.
      * intros _. right. by exists status.
      * destruct (jget ms (js "result")) as [r | ];
          [destruct (jtruthy r) | ]; discriminate.
    + intros [? | (status' & [= -> -> ->])]; [discriminate | reflexivity].
Qed.

(** X7. The answer of [/api/template/upload] to a file that parsed as
    JSON. When the value is an array or an object that [isDelta]
    accepts, the answer is the table of additions, built without any
    request to the service, and the [catch] is not reached. Otherwise
    the request is sent on, with the JSON text of the value as template
    when it is an array or an object and the text of the file when it
    is not, and the answer is made from what [fetch] comes to. The
    handler ends in its [catch] exactly when the request is sent on and
    [fetch] rejects, or the service answers ok with the JSON value
    [null]. A top-level array that [isDelta] accepts gets a table
    without rows. *)
Theorem X7_upload_answer (Number_toString : float → list N)
    (JSON_parse : list N → option json) (fetch : list N → fetched)
    fuel h text parsed :
  JSON_parse text = Some parsed → depth parsed < fuel →
  let local := is_object_type parsed && isDelta parsed in
  let template :=
    if is_object_type parsed then JSON_text Number_toString (norm parsed)
    else text in
  let answer :=
    uploadHandler Number_toString JSON_parse fetch fuel h (Some text) in
  (local = true →
   answer = AddedResult (treeAddedTable Number_toString (Some parsed))) ∧
  (local = false → answer = forwardTemplate fetch template) ∧
  (answer = Caught ↔
   local = false ∧
   (fetch template = Rejected ∨
    ∃ status, fetch template = Response true status (Some JNull))) ∧
  (∀ items, parsed = JArr items →
            treeAddedTable Number_toString (Some parsed)
            = Table (js "Added") [js "Path"; js "New Value"] []).
Proof.
  intros Hparse Hd local template answer.
  assert (Hlocal : local = true →
            answer = AddedResult (treeAddedTable Number_toString (Some parsed))).
  { subst local answer. intros Hl. unfold uploadHandler. rewrite Hparse.
    destruct (alloc_rep parsed h) as (e0 & v & -> & Hrep).
    apply andb_true_iff in Hl as [-> ->]. cbn [andb negb].
    destruct (addedTable_rep Number_toString fuel (h ++ e0) (Some parsed) v)
      as (ext & E);
      [eapply rep_weaken; [exact Hrep | lia] | intros j [= <-]; exact Hd | lia | ].
    by rewrite E. }
  assert (Hsent : local = false → answer = forwardTemplate fetch template).
  { subst local template answer. intros Hl. unfold uploadHandler.
    rewrite Hparse. destruct (alloc parsed h) as [h0 json_].
    destruct (is_object_type parsed); [ | reflexivity].
    cbn [andb] in Hl. rewrite Hl. reflexivity. }
  split; [exact Hlocal | split; [exact Hsent | ]].
  split; [ | by intros items ->].
  destruct local eqn:El.
  - rewrite (Hlocal eq_refl). split; [discriminate | by intros [? _]].
  - rewrite (Hsent eq_refl), forwardTemplate_caught. split; [by split | by intros [_ ?]].
Qed.

Lemma X7_upload_answer_witness :
  (uploadHandler integer_toString parse_sample (λ _, Rejected) 3 []
     (Some (JSON_text integer_toString delta_add_mod))
   = AddedResult (treeAddedTable integer_toString (Some delta_add_mod))) ∧
  (uploadHandler integer_toString parse_sample (λ _, Rejected) 1 []
     (Some (quote (js "x")))
   = Caught).
Proof.
  split.
  - apply (X7_upload_answer integer_toString parse_sample (λ _, Rejected) 3 []
             (JSON_text integer_toString delta_add_mod) delta_add_mod);
      [vm_compute; reflexivity | simpl; lia | reflexivity].
  - apply (X7_upload_answer integer_toString parse_sample (λ _, Rejected) 1 []
             (quote (js "x")) (JStr (js "x")));
      [vm_compute; reflexivity | simpl; lia | ].
    split; [reflexivity | by left].
Defined.

(** X8. [walkDelta] called on a delta under a non-empty path returns
    the records that [flattenJsonDiff] returns for the delta alone, in
    the same order: each path is the joined prefix, a dot, and the path
    of the record of the delta alone, and [before] and [after] hold the
    same trees. *)
Theorem X8_walk_under_path fuel h j delta q acc :
  rep 0 h j delta → depth j < fuel → q ≠ [] →
  ∃ e0 rs0 ext new,
    flattenJsonDiff fuel h delta = Some (h ++ e0, rs0) ∧
    walkDelta fuel (h ++ e0) delta q acc = Some (h ++ e0 ++ ext, acc ++ new) ∧
    Forall2 (λ r0 r,
               path r = join (js ".") q ++ js "." ++ path r0 ∧
               same_tree (h ++ e0 ++ ext) (before r0) (before r) ∧
               same_tree (h ++ e0 ++ ext) (after r0) (after r))
      rs0 new.
Proof.
  intros Hrep Hd Hq.
  destruct (flattenJsonDiff_rep fuel h j delta Hrep Hd) as (e0 & rs0 & E0 & H0).
  destruct (walkDelta_rep fuel 0 j (h ++ e0) delta q acc) as (ext & new & E & Hn);
    [by apply rep_mono with (lo := 0) | done | lia | ].
  exists e0, rs0, ext, new. rewrite <- app_assoc in E.
  split; [exact E0 | split; [exact E | ]].
  rewrite <- (app_nil_r q) in Hn. rewrite treeWalk_under in Hn by done.
  rewrite <- app_assoc in Hn.
  apply (proj1 (Forall2_fmap_l _ _ _ _)) in Hn.
  eapply rows_rep_mono with (lo' := 0) (ext := ext) in H0; [ | lia].
  rewrite <- app_assoc in H0.
  clear -H0 Hn. revert new Hn.
  induction H0 as [ | p r0 ps rs0 (Hp0 & Hb0 & Ha0) _ IH]; intros new Hn;
    inversion Hn as [ | ? r ? new' (Hp & Hb & Ha) Hn']; subst;
    constructor; [ | by apply IH].
  split; [simpl in Hp; rewrite Hp, Hp0; by rewrite <- app_assoc | ].
  split; [exists p.1.2 | exists p.2]; by split.
Qed.

Lemma X8_walk_under_path_witness :
  ∃ e0 rs0 ext new,
    flattenJsonDiff 3 store_add_mod (VRef 2) = Some (store_add_mod ++ e0, rs0) ∧
    walkDelta 3 (store_add_mod ++ e0) (VRef 2) [js "cfg"; js "0"] []
      = Some (store_add_mod ++ e0 ++ ext, [] ++ new) ∧
    Forall2 (λ r0 r,
               path r = join (js ".") [js "cfg"; js "0"] ++ js "." ++ path r0 ∧
               same_tree (store_add_mod ++ e0 ++ ext) (before r0) (before r) ∧
               same_tree (store_add_mod ++ e0 ++ ext) (after r0) (after r))
      rs0 new.
Proof.
  apply (X8_walk_under_path 3 store_add_mod delta_add_mod (VRef 2)
           [js "cfg"; js "0"] []); [holds | simpl; lia | discriminate].
Defined.

(** X9. No record of a JSON delta has both sides absent: every record
    of [flattenJsonDiff], and every record of [flattenDelta], has a
    [before] or an [after] that is not [undefined]. *)
Theorem X9_record_sides fuel h j delta :
  rep 0 h j delta → depth j < fuel →
  (∃ ext rs, flattenJsonDiff fuel h delta = Some (h ++ ext, rs) ∧
             Forall (λ r, before r ≠ VUndef ∨ after r ≠ VUndef) rs) ∧
  (∃ ext rs, flattenDelta fuel h delta = Some (h ++ ext, rs) ∧
             Forall (λ r, before r ≠ VUndef ∨ after r ≠ VUndef) rs).
Proof.
  intros Hrep Hd.
  assert (Hside : ∀ lo h' p r,
            row_rep lo h' p r → p.1.2 ≠ None ∨ p.2 ≠ None →
            before r ≠ VUndef ∨ after r ≠ VUndef).
  { intros lo h' [[p ob] oa] r (_ & Hb & Ha) [Hs | Hs]; simpl in *.
    - left. destruct ob; [by eapply rep_defined | done].
    - right. destruct oa; [by eapply rep_defined | done]. }
  split.
  - destruct (flattenJsonDiff_rep fuel h j delta Hrep Hd) as (ext & rs & E & Hrs).
    exists ext, rs. split; [exact E | ].
    eapply Forall2_Forall_r_impl; [apply Hside | exact Hrs | apply treeWalk_sides].
  - destruct (flattenDelta_rep fuel 0 h j delta Hrep Hd) as (ext & rs & E & Hrs).
    exists ext, rs. split; [exact E | ].
    eapply Forall2_Forall_r_impl; [apply Hside | exact Hrs | apply treeWalk_sides].
Qed.

Lemma X9_record_sides_witness :
  (∃ ext rs, flattenJsonDiff 3 store_add_mod (VRef 2)
             = Some (store_add_mod ++ ext, rs) ∧
             Forall (λ r, before r ≠ VUndef ∨ after r ≠ VUndef) rs) ∧
  (∃ ext rs, flattenDelta 3 store_add_mod (VRef 2)
             = Some (store_add_mod ++ ext, rs) ∧
             Forall (λ r, before r ≠ VUndef ∨ after r ≠ VUndef) rs).
Proof.
  apply (X9_record_sides 3 store_add_mod delta_add_mod (VRef 2));
    [holds | simpl; lia].
Defined.

(** X10. Every row of the table of additions is a pair of strings, the
    path and the JSON text of the new value: the New Value cell of an
    addition is never [undefined]. *)
Theorem X10_added_cells (Number_toString : float → list N) fuel h o delta :
  orep 0 h o delta → (∀ j, o = Some j → depth j < fuel) → 0 < fuel →
  ∃ ext t,
    addedTable Number_toString fuel h delta = Some (h ++ ext, t) ∧
    Forall (λ row, ∃ p s, row = [VStr p; VStr s]) (rows t).
Proof.
  intros Hrep Hd Hfuel.
  destruct (addedTable_rep Number_toString fuel h o delta Hrep Hd Hfuel)
    as (ext & E).
  exists ext, (treeAddedTable Number_toString o). split; [exact E | ].
  simpl. apply Forall_fmap, Forall_forall. intros [[p ob] oa] Hin.
  apply list_elem_of_In, filter_In in Hin as [Hin Hb].
  apply bool_decide_eq_true in Hb. simpl in Hb. subst ob.
  assert (Hs : oa ≠ None).
  { destruct o as [j | ]; [ | destruct Hin].
    pose proof (treeWalk_sides norm true j []) as HF.
    rewrite Forall_forall in HF.
    destruct (HF _ (proj2 (list_elem_of_In _ _) Hin)) as [? | ?]; done. }
  destruct oa as [a | ]; [ | done].
  by exists p, (JSON_text Number_toString (norm a)).
Qed.

Lemma X10_added_cells_witness :
  ∃ ext t,
    addedTable integer_toString 3 store_add_mod (VRef 2)
      = Some (store_add_mod ++ ext, t) ∧
    Forall (λ row, ∃ p s, row = [VStr p; VStr s]) (rows t).
Proof.
  apply (X10_added_cells integer_toString 3 store_add_mod (Some delta_add_mod)
           (VRef 2)); [holds | intros j [= <-]; simpl; lia | lia].
Defined.

(** X11. The records of [flattenDelta] (the tables of the document)
    are among those of [flattenJsonDiff] (the tables of index.js): they
    match, in order, a sub-list of them, path by path, and the values
    of [flattenJsonDiff] are the JSON round trips of those of
    [flattenDelta]. *)
Theorem X11_pdf_rows_among_table_rows fuel h j delta :
  rep 0 h j delta → depth j < fuel →
  ∃ e1 rs1 e2 rs2 sub,
    flattenJsonDiff fuel h delta = Some (h ++ e1, rs1) ∧
    flattenDelta fuel h delta = Some (h ++ e2, rs2) ∧
    sub `sublist_of` rs1 ∧
    Forall2 (λ r1 r2,
               path r1 = path r2 ∧
               round_trip (length h) (h ++ e1) (before r2) (before r1) ∧
               round_trip (length h) (h ++ e1) (after r2) (after r1))
      sub rs2.
Proof.
  intros Hrep Hd.
  destruct (flattenJsonDiff_rep fuel h j delta Hrep Hd) as (e1 & rs1 & E1 & H1).
  destruct (flattenDelta_rep fuel 0 h j delta Hrep Hd)
    as (e2 & rs2 & E2 & H2).
  destruct (Forall2_sublist_l _ _ _ _ H1 (treeWalk_fallback_sublist norm j []))
    as (sub & Hsub & H1').
  exists e1, rs1, e2, rs2, sub.
  split; [exact E1 | split; [exact E2 | split; [exact Hsub | ]]].
  eapply rows_rep_mono with (lo' := 0) (ext := e1) in H2; [ | lia].
  rewrite treeWalk_norm in H1'. apply Forall2_fmap_l in H1'.
  clear -H1' H2. revert sub H1'.
  induction H2 as [ | p r2 ps rs2 (Hp2 & Hb2 & Ha2) _ IH]; intros rs1 H1;
    inversion H1 as [ | ? r1 ? rs1' (Hp1 & Hb1 & Ha1) H1']; subst;
    constructor; [ | by apply IH].
  split; [simpl in Hp1; congruence | ].
  split; [exists p.1.2 | exists p.2]; by split.
Qed.

Lemma X11_pdf_rows_among_table_rows_witness :
  ∃ e1 rs1 e2 rs2 sub,
    flattenJsonDiff 3 store_mismatch (VRef 1) = Some (store_mismatch ++ e1, rs1) ∧
    flattenDelta 3 store_mismatch (VRef 1) = Some (store_mismatch ++ e2, rs2) ∧
    sub `sublist_of` rs1 ∧
    Forall2 (λ r1 r2,
               path r1 = path r2 ∧
               round_trip (length store_mismatch) (store_mismatch ++ e1)
                 (before r2) (before r1) ∧
               round_trip (length store_mismatch) (store_mismatch ++ e1)
                 (after r2) (after r1))
      sub rs2.
Proof.
  apply (X11_pdf_rows_among_table_rows 3 store_mismatch delta_mismatch (VRef 1));
    [holds | simpl; lia].
Defined.

Lemma flat_map_map_r {A B C} (g : B → C) (f : A → list B) l :
  flat_map (λ x, map g (f x)) l = map g (flat_map f l).
Proof.
  induction l as [ | x l IH]; simpl; [reflexivity | by rewrite IH, map_app].
Qed.

(** X12. The tables of [/api/tables/fromReport] hold every record of
    the report exactly once: their rows, taken together, are a
    permutation of the rows of the records in report order, and no
    table is empty. *)
Theorem X12_tables_keep_records (Number_toString : float → list N) fuel h
    jitems items :
  Forall2 (item_rep h) jitems items →
  Forall (λ t, ∀ j, t.2 = Some j → depth j < fuel) jitems → 0 < fuel →
  ∃ ext ts,
    tablesFromReport Number_toString fuel h items = Some (h ++ ext, ts) ∧
    flat_map rows ts
      ≡ₚ map (treeFullRow Number_toString) (reportRows jitems).*2 ∧
    Forall (λ t, rows t ≠ []) ts.
Proof.
  intros Hitems Hd Hfuel.
  destruct (tablesFromReport_rep Number_toString fuel h jitems items
              Hitems Hd Hfuel) as (ext & E).
  exists ext, (treeTables Number_toString jitems). split; [exact E | ].
  unfold treeTables. set (recs := reportRows jitems). split.
  - rewrite flat_map_concat_map, map_map. cbn [rows].
    rewrite <- flat_map_concat_map.
    rewrite (flat_map_map_r (treeFullRow Number_toString)
               (λ f, select f recs)).
    apply Permutation_map, select_all;
      [apply NoDup_first_seen | intros k Hk; by apply elem_of_first_seen].
  - apply Forall_fmap, Forall_forall. intros f Hf. simpl.
    pose proof (select_first_seen_nonempty recs f Hf).
    destruct (select f recs); [done | discriminate].
Qed.

Lemma X12_tables_keep_records_witness :
  ∃ ext ts,
    tablesFromReport integer_toString 3 store_report_full items_report_full
      = Some (store_report_full ++ ext, ts) ∧
    flat_map rows ts
      ≡ₚ map (treeFullRow integer_toString) (reportRows trees_report_full).*2 ∧
    Forall (λ t, rows t ≠ []) ts.
Proof.
  apply (X12_tables_keep_records integer_toString 3 store_report_full
           trees_report_full items_report_full).
  - items_hold.
  - depths_hold.
  - lia.
Defined.

(* ----------------------------------------------------------------- *)
(** ** The two endpoints of a report *)

Lemma foldl_snoc_map {A B} (f : A → B) (acc : list B) xs :
  foldl (λ acc x, acc ++ [f x]) acc xs = acc ++ map f xs.
Proof.
  revert acc. induction xs as [ | x xs IH]; intros acc; simpl.
  - by rewrite app_nil_r.
  - by rewrite IH, <- app_assoc.
Qed.

Lemma groupItem_changesItem fuel items :
  ∀ h cs,
    foldM (groupItem fuel) items (h, grouped (map filed cs))
    = match foldM (changesItem fuel) items (h, cs) with
      | Some (h', cs') => Some (h', grouped (map filed cs'))
      | None => None
      end.
Proof.
  induction items as [ | it items IH]; intros h cs; [reflexivity | ].
  cbn [foldM]. unfold groupItem at 1, changesItem at 1.
  destruct (or_empty h (diff it)) as [h1 d].
  destruct (flattenJsonDiff fuel h1 d) as [[h2 flat] | ]; [ | reflexivity].
  rewrite foldl_groupRow, foldl_snoc_map, <- IH. f_equal. f_equal. f_equal.
  rewrite map_app, map_map. f_equal.
  apply map_ext. intros r. unfold filed. simpl. by rewrite change_eta.
Qed.

(** X13. On every store, [/api/tables/fromReport] files exactly the
    rows that [/api/genai/fromReport] sends as [changes]: it fails when
    the other does, and otherwise ends in the same store and makes its
    tables from the grouping of those rows by file, files in order of
    first appearance and rows in the order sent. *)
Theorem X13_tables_group_changes (Number_toString : float → list N) fuel h items :
  tablesFromReport Number_toString fuel h items
  = match changesFromReport fuel h items with
    | Some (h', cs) =>
        ts ← mapM (fileTable Number_toString h') (grouped (map filed cs));
        Some (h', ts)
    | None => None
    end.
Proof.
  unfold tablesFromReport, changesFromReport.
  change (@nil (list N * list change)) with (grouped (map filed [])).
  rewrite groupItem_changesItem.
  by destruct (foldM (changesItem fuel) items (h, [])) as [[h' cs] | ].
Qed.

(* ----------------------------------------------------------------- *)
(** ** [flattenDelta] hands out the values of the delta *)

Lemma held_member h l ps k e v :
  h !! l = Some (OObj ps) → (k, e) ∈ ps → held h e v → held h (VRef l) v.
Proof.
  intros Hl Hin (l' & es & Hr & Hes & Hv). exists l', es.
  split; [by eapply reach_prop | done].
Qed.

Lemma shares_member h l ps k e r :
  h !! l = Some (OObj ps) → (k, e) ∈ ps → shares h e r → shares h (VRef l) r.
Proof.
  intros Hl Hin [[Hb | Hb] [Ha | Ha]]; split; auto;
    right; by eapply held_member.
Qed.

Lemma as_array_held h v es x : as_array h v = Some es → x ∈ es → held h v x.
Proof.
  destruct v as [ | | | | | l]; try discriminate. simpl.
  destruct (h !! l) as [[es' | ps] | ] eqn:E; try discriminate.
  intros [= ->] Hx. exists l, es. split; [constructor | done].
Qed.

Lemma fold_shares h
    (step : list (list N) → list change → list N * val → option (list change))
    p l ps :
  h !! l = Some (OObj ps) →
  (∀ acc k e rows, step p acc (k, e) = Some rows →
                   ∃ new, rows = acc ++ new ∧ Forall (shares h e) new) →
  ∀ qs acc rows,
    qs ⊆ ps → foldM (step p) qs acc = Some rows →
    ∃ new, rows = acc ++ new ∧ Forall (shares h (VRef l)) new.
Proof.
  intros Hl Hstep. induction qs as [ | [k e] qs IH]; intros acc rows Hsub E.
  - injection E as <-. exists []. by rewrite app_nil_r.
  - cbn [foldM] in E.
    destruct (step p acc (k, e)) as [acc' | ] eqn:E1; [ | discriminate].
    destruct (Hstep _ _ _ _ E1) as (n1 & -> & H1).
    destruct (IH _ _ ltac:(set_solver) E) as (n2 & -> & H2).
    exists (n1 ++ n2). split; [by rewrite app_assoc | ].
    apply Forall_app. split; [ | done].
    eapply Forall_impl; [exact H1 | ].
    intros r Hr. apply (shares_member h l ps k e r Hl); [ | done].
    apply Hsub. by left.
Qed.

Section Shares.

Variable h : list obj.
Variable rec : val → list (list N) → list change → option (list change).

Hypothesis rec_shares :
  ∀ e p acc rows, rec e p acc = Some rows →
                  ∃ new, rows = acc ++ new ∧ Forall (shares h e) new.

Lemma leaf_shares v es (is_sentinel : bool) acc p rows :
  as_array h v = Some es →
  match es with
  | [] => Some acc
  | [a] => Some (acc ++ [Change p VUndef a])
  | [b; a] => Some (acc ++ [Change p b a])
  | b :: e1 :: e2 :: _ =>
      if is_sentinel then Some (acc ++ [Change p b VUndef]) else Some acc
  end = Some rows →
  ∃ new, rows = acc ++ new ∧ Forall (shares h v) new.
Proof.
  intros Hes E.
  assert (H0 : ∀ x, x ∈ es → held h v x) by (intros; by eapply as_array_held).
  destruct es as [ | b [ | e1 [ | e2 rest]]].
  - injection E as <-. exists []. by rewrite app_nil_r.
  - injection E as <-. eexists; split; [reflexivity | ].
    apply List.Forall_cons; [ | constructor].
    split; simpl; [by left | right; apply H0; by left].
  - injection E as <-. eexists; split; [reflexivity | ].
    apply List.Forall_cons; [ | constructor].
    split; simpl; right; apply H0; [by left | right; by left].
  - destruct is_sentinel; injection E as <-.
    + eexists; split; [reflexivity | ].
      apply List.Forall_cons; [ | constructor].
      split; simpl; [right; apply H0; by left | by left].
    + exists []. by rewrite app_nil_r.
Qed.

Lemma walkObjectEntry_shares p acc k e rows :
  walkObjectEntry rec h p acc (k, e) = Some rows →
  ∃ new, rows = acc ++ new ∧ Forall (shares h e) new.
Proof.
  destruct (decide (k = js "_t")) as [-> | Hk].
  { unfold walkObjectEntry. rewrite decide_True by done.
    intros [= <-]. exists []. by rewrite app_nil_r. }
  destruct (as_array h e) as [es | ] eqn:Ea.
  - rewrite (walkObjectEntry_array _ _ _ _ _ _ _ Hk Ea).
    intros E. eapply (leaf_shares e es (match es with
                                         | _ :: e1 :: e2 :: _ =>
                                             is_zero e1 && is_zero e2
                                         | _ => false
                                         end)); [done | ].
    by destruct es as [ | ? [ | ? [ | ? ?]]].
  - unfold walkObjectEntry. rewrite decide_False, Ea by done.
    destruct (isObject h e); [apply rec_shares | ].
    intros [= <-]. exists []. by rewrite app_nil_r.
Qed.

Lemma walkArrayEntry_shares p acc k e rows :
  walkArrayEntry rec h p acc (k, e) = Some rows →
  ∃ new, rows = acc ++ new ∧ Forall (shares h e) new.
Proof.
  destruct (decide (k = js "_t")) as [-> | Hk].
  { unfold walkArrayEntry. rewrite decide_True by done.
    intros [= <-]. exists []. by rewrite app_nil_r. }
  destruct (as_array h e) as [es | ] eqn:Ea.
  - rewrite (walkArrayEntry_array _ _ _ _ _ _ _ Hk Ea).
    intros E. eapply (leaf_shares e es (match es with
                                         | _ :: e1 :: e2 :: _ =>
                                             is_zero e1 && is_zero e2
                                         | _ => false
                                         end)); [done | ].
    by destruct es as [ | ? [ | ? [ | ? ?]]].
  - unfold walkArrayEntry. rewrite decide_False, Ea by done.
    destruct (isObject h e); [apply rec_shares | ].
    intros [= <-]. exists []. by rewrite app_nil_r.
Qed.

End Shares.

Lemma walk_shares fuel h :
  ∀ d p acc rows,
    walk fuel h d p acc = Some rows →
    ∃ new, rows = acc ++ new ∧ Forall (shares h d) new.
Proof.
  induction fuel as [ | fuel IH]; intros d p acc rows E; [discriminate | ].
  cbn [walk] in E.
  destruct (as_object h d) as [ps | ] eqn:Eo.
  - destruct d as [ | | | | | l]; try discriminate. simpl in Eo.
    destruct (h !! l) as [[es | ps'] | ] eqn:El; try discriminate.
    injection Eo as ->.
    destruct (is_str_a _).
    + eapply (fold_shares h _ p l ps El);
        [ | reflexivity | exact E].
      intros. by eapply walkArrayEntry_shares.
    + eapply (fold_shares h _ p l ps El);
        [ | reflexivity | exact E].
      intros. by eapply walkObjectEntry_shares.
  - injection E as <-. exists []. by rewrite app_nil_r.
Qed.

(** X14. [flattenDelta] copies nothing: when it returns, the store is
    the one [delta || {}] left (the given store when [delta] is
    truthy), and each [before] and [after] of its rows is absent or is
    an element of an array reached from the delta, the very value the
    delta holds. *)
Theorem X14_flattenDelta_shares fuel h delta h' rs :
  flattenDelta fuel h delta = Some (h', rs) →
  h' = (or_empty h delta).1 ∧
  (truthy delta = true → h' = h) ∧
  Forall (shares h' (or_empty h delta).2) rs.
Proof.
  unfold flattenDelta. destruct (or_empty h delta) as [h0 d] eqn:Eo.
  destruct (walk fuel h0 d [] []) as [rows | ] eqn:E; [ | discriminate].
  intros [= <- <-]. split; [reflexivity | ]. split.
  - intros Ht. unfold or_empty in Eo. rewrite Ht in Eo. by injection Eo.
  - simpl. destruct (walk_shares _ _ _ _ _ _ E) as (new & -> & Hnew). done.
Qed.

Lemma X14_flattenDelta_shares_witness :
  store_add_mod = (or_empty store_add_mod (VRef 2)).1 ∧
  (truthy (VRef 2) = true → store_add_mod = store_add_mod) ∧
  Forall (shares store_add_mod (or_empty store_add_mod (VRef 2)).2)
    [Change (js "a") VUndef (VNum 5%float);
     Change (js "b") (VNum 1%float) (VNum 2%float)].
Proof.
  apply (X14_flattenDelta_shares 3 store_add_mod (VRef 2)). reflexivity.
Defined.

(* ----------------------------------------------------------------- *)
(** ** The summary of a report *)

Lemma changeType_cases b a :
  changeType b a
  = if negb (nonempty b) && nonempty a then js "added"
    else if nonempty b && negb (nonempty a) then js "removed"
    else js "modified".
Proof. unfold changeType. by destruct (nonempty b), (nonempty a). Qed.

Lemma length_filter_3 {A} (p q r : A → bool) l :
  (∀ x, x ∈ l →
        (p x = true ∧ q x = false ∧ r x = false) ∨
        (p x = false ∧ q x = true ∧ r x = false) ∨
        (p x = false ∧ q x = false ∧ r x = true)) →
  length (List.filter p l) + length (List.filter q l)
  + length (List.filter r l) = length l.
Proof.
  induction l as [ | x l IH]; intros H; [reflexivity | ].
  cbn [List.filter].
  assert (Hl := IH ltac:(intros y Hy; apply H; by right)).
  destruct (H x ltac:(by left)) as [(-> & -> & ->) | [(-> & -> & ->) | (-> & -> & ->)]];
    simpl; lia.
Qed.

(** X15. The summary of a report partitions its files: [added],
    [removed] and [modified] add up to [totalJsonFilesChanged], the
    number of files. A file counts as added when only its new text is
    non-empty, as removed when only its old text is, and as modified in
    every other case, also when both texts are empty. *)
Theorem X15_summary_counts (files : list changed_file) :
  let s := summary (map reportItem files) in
  totalJsonFilesChanged s = length files ∧
  added s + removed s + modified s = totalJsonFilesChanged s ∧
  added s
  = length (List.filter (λ f, negb (nonempty (beforeStr f)) && nonempty (afterStr f))
              files) ∧
  removed s
  = length (List.filter (λ f, nonempty (beforeStr f) && negb (nonempty (afterStr f)))
              files) ∧
  modified s
  = length (List.filter (λ f, bool_decide (nonempty (beforeStr f)
                                           = nonempty (afterStr f))) files).
Proof.
  intros s. subst s. cbn [summary totalJsonFilesChanged added removed modified].
  assert (Hcount : ∀ (t : list N) (g : changed_file → bool),
            (∀ f, bool_decide (changeType (beforeStr f) (afterStr f) = t) = g f) →
            length (List.filter (λ i, bool_decide (ri_changeType i = t))
                      (map reportItem files))
            = length (List.filter g files)).
  { intros t g Hg. induction files as [ | f fs IH]; [reflexivity | ].
    cbn [map List.filter reportItem ri_changeType]. rewrite Hg.
    destruct (g f); simpl; by rewrite IH. }
  split; [by rewrite length_map | ]. split.
  - apply length_filter_3. intros i Hi.
    apply list_elem_of_In, in_map_iff in Hi as (f & <- & _).
    cbn [reportItem ri_changeType]. rewrite changeType_cases.
    destruct (nonempty (beforeStr f)), (nonempty (afterStr f)); cbn;
      auto 10.
  - split; [ | split]; apply Hcount; intros f; rewrite changeType_cases;
      by destruct (nonempty (beforeStr f)), (nonempty (afterStr f)).
Qed.

(* ----------------------------------------------------------------- *)
(** ** Trimming *)

Lemma trimStart_head s c r : trimStart s = c :: r → is_space c = false.
Proof.
  induction s as [ | a s IH]; [discriminate | ]. cbn [trimStart].
  destruct (is_space a) eqn:E; [exact IH | ]. by intros [= <- _].
Qed.

Lemma trimStart_suffix s : ∃ w, s = w ++ trimStart s.
Proof.
  induction s as [ | a s (w & IH)]; [by exists [] | ]. cbn [trimStart].
  destruct (is_space a); [ | by exists []].
  exists (a :: w). simpl. by rewrite <- IH.
Qed.

Lemma trimStart_id c r : is_space c = false → trimStart (c :: r) = c :: r.
Proof. intros E. cbn [trimStart]. by rewrite E. Qed.

Lemma trimStart_space c r : is_space c = true → trimStart (c :: r) = trimStart r.
Proof. intros E. cbn [trimStart]. by rewrite E. Qed.

Lemma trimEnd_snoc_id r c : is_space c = false → trimEnd (r ++ [c]) = r ++ [c].
Proof.
  intros E. unfold trimEnd. rewrite reverse_snoc, trimStart_id by done.
  by rewrite reverse_cons, reverse_involutive.
Qed.

Lemma trimEnd_prefix s : ∃ w, s = trimEnd s ++ w.
Proof.
  unfold trimEnd. destruct (trimStart_suffix (reverse s)) as (w & E).
  exists (reverse w). rewrite <- reverse_app, <- E. by rewrite reverse_involutive.
Qed.

Lemma trimEnd_last s r c : trimEnd s = r ++ [c] → is_space c = false.
Proof.
  unfold trimEnd. intros E. apply (f_equal reverse) in E.
  rewrite reverse_involutive, reverse_snoc in E. by eapply trimStart_head.
Qed.

Lemma trim_head s c r : trim s = c :: r → is_space c = false.
Proof.
  unfold trim. intros E. destruct (trimEnd_prefix (trimStart s)) as (w & Ew).
  rewrite E in Ew. by eapply trimStart_head.
Qed.

Lemma trim_last s r c : trim s = r ++ [c] → is_space c = false.
Proof. unfold trim. apply trimEnd_last. Qed.

(** A text that neither begins nor ends with white space is its own
    trim. *)
Lemma trim_id c r c' :
  is_space c = false → last (c :: r) = Some c' → is_space c' = false →
  trim (c :: r) = c :: r.
Proof.
  intros Hc Hl Hc'. unfold trim. rewrite trimStart_id by done.
  apply last_Some in Hl as (r' & ->). by apply trimEnd_snoc_id.
Qed.

Lemma trim_idem s : trim (trim s) = trim s.
Proof.
  destruct (trim s) as [ | c r] eqn:E; [reflexivity | ].
  destruct (last (c :: r)) as [c' | ] eqn:El; [ | by apply last_None in El].
  apply (trim_id c r c'); [by eapply trim_head | done | ].
  apply last_Some in El as (r' & Er). rewrite Er in E. by eapply trim_last.
Qed.

Lemma trim_fixed_ends s :
  trim s = s → s ≠ [] →
  ∃ c r c', s = c :: r ∧ is_space c = false ∧
            last s = Some c' ∧ is_space c' = false.
Proof.
  intros E Hs. destruct s as [ | c r]; [done | ].
  destruct (last (c :: r)) as [c' | ] eqn:El; [ | by apply last_None in El].
  exists c, r, c'. split; [done | ]. split; [by eapply trim_head | ].
  split; [done | ].
  apply last_Some in El as (r' & Er). rewrite Er in E. by eapply trim_last.
Qed.

Lemma last_app_nonempty {A} (a b : list A) : b ≠ [] → last (a ++ b) = last b.
Proof.
  intros Hb. destruct b as [ | x b _] using rev_ind; [done | ].
  by rewrite app_assoc, !last_snoc.
Qed.

(** A non-empty prefix that does not begin with white space, before a
    trimmed text that is not empty. *)
Lemma trim_prefixed c a t :
  is_space c = false → trim t = t → t ≠ [] → trim (c :: a ++ t) = c :: a ++ t.
Proof.
  intros Hc Ht Hne.
  destruct (trim_fixed_ends t Ht Hne) as (c0 & r0 & c' & -> & _ & Hl & Hc').
  apply (trim_id c _ c'); [done | | done].
  change (c :: a ++ c0 :: r0) with ((c :: a) ++ c0 :: r0).
  by rewrite last_app_nonempty.
Qed.

(* ----------------------------------------------------------------- *)
(** ** Lines *)

Lemma split_on_clean sep a :
  Forall (λ c, c ≠ sep) a → split_on sep a = [a].
Proof.
  induction 1 as [ | c a Hc _ IH]; [reflexivity | ].
  cbn [split_on]. rewrite (proj2 (N.eqb_neq c sep)) by done. by rewrite IH.
Qed.

Lemma split_on_app sep a rest :
  Forall (λ c, c ≠ sep) a →
  split_on sep (a ++ sep :: rest) = a :: split_on sep rest.
Proof.
  induction 1 as [ | c a Hc _ IH].
  - cbn [app split_on]. by rewrite N.eqb_refl.
  - cbn [app split_on]. rewrite (proj2 (N.eqb_neq c sep)) by done. by rewrite IH.
Qed.

Lemma strip_cr_id p : last p ≠ Some 13%N → strip_cr p = p.
Proof.
  intros Hl. unfold strip_cr.
  destruct p as [ | x p _] using rev_ind; [reflexivity | ].
  rewrite reverse_snoc. rewrite last_snoc in Hl.
  destruct (decide (x = 13%N)) as [-> | Hx]; [done | ].
  destruct x as [ | x]; [done | ].
  repeat (destruct x as [x | x | ]; try done).
Qed.

Lemma strip_crs_id ps :
  Forall (λ p, last p ≠ Some 13%N) ps → strip_crs ps = ps.
Proof.
  induction 1 as [ | p ps Hp _ IH]; [reflexivity | ].
  cbn [strip_crs]. destruct ps as [ | q ps]; [reflexivity | ].
  by rewrite strip_cr_id, IH.
Qed.

(* ----------------------------------------------------------------- *)
(** ** The lines of a template *)

Lemma templateLine_line data sec raw line :
  trim raw = line → line ≠ [] →
  templateLine (data, sec) raw
  = match after_header (js "title") line with
    | Some value =>
        (TemplateData (trim value) (description data) (changes data), false)
    | None =>
        match after_header (js "description") line with
        | Some value =>
            (TemplateData (title data) (trim value) (changes data), false)
        | None =>
            match after_header (js "changes") line with
            | Some _ => (data, true)
            | None =>
                if sec then
                  match bullet line with
                  | Some m =>
                      (TemplateData (title data) (description data)
                         (changes data ++ [m]), sec)
                  | None => (data, sec)
                  end
                else (data, sec)
            end
        end
    end.
Proof. intros <- Hl. unfold templateLine. by destruct (trim raw). Qed.

Lemma trim_after_colon (word t : list N) c a :
  word = c :: a → is_space c = false → trim t = t →
  ∃ v, trim (word ++ [58; 32]%N ++ t) = word ++ [58%N] ++ v ∧ trim v = t.
Proof.
  intros -> Hc Ht. destruct t as [ | c0 r0].
  - exists []. split; [ | reflexivity]. rewrite app_nil_r.
    unfold trim. rewrite <- app_comm_cons, trimStart_id by done.
    rewrite app_comm_cons, (app_assoc _ [58%N] [32%N]).
    unfold trimEnd. rewrite reverse_snoc, trimStart_space by reflexivity.
    rewrite reverse_snoc, trimStart_id by reflexivity.
    by rewrite reverse_cons, reverse_involutive, app_nil_r.
  - exists (32%N :: c0 :: r0). split.
    + rewrite <- app_comm_cons, app_assoc.
      rewrite (trim_prefixed c (a ++ [58; 32]%N) (c0 :: r0)) by done.
      by rewrite <- app_assoc.
    + unfold trim. rewrite trimStart_space by reflexivity. exact Ht.
Qed.

Lemma header_title v : after_header (js "title") (js "Title" ++ [58%N] ++ v) = Some v.
Proof. vm_compute. reflexivity. Qed.

Lemma header_description v :
  after_header (js "title") (js "Description" ++ [58%N] ++ v) = None ∧
  after_header (js "description") (js "Description" ++ [58%N] ++ v) = Some v.
Proof. split; vm_compute; reflexivity. Qed.

Lemma header_changes v :
  after_header (js "title") (js "Changes" ++ [58%N] ++ v) = None ∧
  after_header (js "description") (js "Changes" ++ [58%N] ++ v) = None ∧
  after_header (js "changes") (js "Changes" ++ [58%N] ++ v) = Some v.
Proof. repeat split; vm_compute; reflexivity. Qed.

Lemma header_bullet v :
  after_header (js "title") (js "- " ++ v) = None ∧
  after_header (js "description") (js "- " ++ v) = None ∧
  after_header (js "changes") (js "- " ++ v) = None.
Proof. repeat split; vm_compute; reflexivity. Qed.

Lemma templateLine_title data sec t :
  trim t = t →
  templateLine (data, sec) (js "Title: " ++ t)
  = (TemplateData t (description data) (changes data), false).
Proof.
  intros Ht.
  destruct (trim_after_colon (js "Title") t 84%N (js "itle"))
    as (v & E & Ev); [reflexivity | reflexivity | done | ].
  change (js "Title" ++ [58; 32]%N ++ t) with (js "Title: " ++ t) in E.
  rewrite (templateLine_line data sec _ _ E) by done.
  by rewrite header_title, Ev.
Qed.

Lemma templateLine_description data sec t :
  trim t = t →
  templateLine (data, sec) (js "Description: " ++ t)
  = (TemplateData (title data) t (changes data), false).
Proof.
  intros Ht.
  destruct (trim_after_colon (js "Description") t 68%N (js "escription"))
    as (v & E & Ev); [reflexivity | reflexivity | done | ].
  change (js "Description" ++ [58; 32]%N ++ t) with (js "Description: " ++ t)
    in E.
  rewrite (templateLine_line data sec _ _ E) by done.
  destruct (header_description v) as [-> ->]. by rewrite Ev.
Qed.

Lemma templateLine_changes data sec :
  templateLine (data, sec) (js "Changes:") = (data, true).
Proof.
  assert (E : trim (js "Changes:") = js "Changes" ++ [58%N] ++ [])
    by (vm_compute; reflexivity).
  rewrite (templateLine_line data sec _ _ E) by done.
  by destruct (header_changes []) as (-> & -> & ->).
Qed.

Lemma templateLine_bullet data c :
  change_ok c →
  templateLine (data, true) (js "- " ++ c)
  = (TemplateData (title data) (description data) (changes data ++ [c]), true).
Proof.
  intros (Hne & Ht & Hclean).
  assert (E : trim (js "- " ++ c) = js "- " ++ c)
    by (apply (trim_prefixed 45%N [32%N] c); done).
  rewrite (templateLine_line data true _ _ E) by done.
  destruct (header_bullet c) as (-> & -> & ->).
  destruct (trim_fixed_ends c Ht Hne) as (c0 & r0 & c' & -> & Hc0 & _).
  change (js "- " ++ c0 :: r0) with (45%N :: 32%N :: c0 :: r0).
  cbn [bullet N.eqb Pos.eqb orb].
  rewrite trimStart_space, trimStart_id by done. by rewrite Hclean.
Qed.

Lemma foldl_bullets data cs :
  Forall change_ok cs →
  foldl templateLine (data, true) (map (λ c, js "- " ++ c) cs)
  = (TemplateData (title data) (description data) (changes data ++ cs), true).
Proof.
  intros Hcs. revert data.
  induction Hcs as [ | c cs Hc _ IH]; intros data.
  - simpl. rewrite app_nil_r. by destruct data.
  - cbn [map foldl]. rewrite templateLine_bullet by done.
    rewrite IH. cbn [title description changes]. by rewrite <- app_assoc.
Qed.

Lemma clean_no_newline c :
  forallb (λ x, negb (is_line_terminator x)) c = true → Forall (λ x, x ≠ 10%N) c.
Proof.
  rewrite forallb_forall, Forall_forall. intros H x Hx ->.
  by specialize (H _ (proj1 (list_elem_of_In _ _) Hx)).
Qed.

Lemma split_bullets a cs :
  Forall (λ x, x ≠ 10%N) a → Forall change_ok cs →
  split_on 10 (a ++ flat_map (λ c, [10%N] ++ js "- " ++ c) cs)
  = a :: map (λ c, js "- " ++ c) cs.
Proof.
  intros Ha Hcs. revert a Ha.
  induction Hcs as [ | c cs (_ & _ & Hc) _ IH]; intros a Ha.
  - simpl. rewrite app_nil_r. by apply split_on_clean.
  - cbn [flat_map map]. rewrite <- !app_assoc. cbn [app].
    rewrite split_on_app by done. f_equal.
    rewrite (app_assoc (js "- ") c).
    apply IH. apply Forall_app. split; [ | by apply clean_no_newline].
    repeat (apply List.Forall_cons; [done | ]). constructor.
Qed.

Lemma last_not_cr c a t :
  trim t = t → last (c :: a ++ 32%N :: t) ≠ Some 13%N.
Proof.
  intros Ht. destruct (decide (t = [])) as [-> | Hne].
  - change (c :: a ++ [32%N]) with ((c :: a) ++ [32%N]). by rewrite last_snoc.
  - destruct (trim_fixed_ends t Ht Hne) as (c0 & r0 & c' & -> & _ & Hl & Hc').
    replace (c :: a ++ 32%N :: c0 :: r0) with ((c :: a ++ [32%N]) ++ c0 :: r0)
      by (simpl; by rewrite <- app_assoc).
    rewrite last_app_nonempty, Hl by done. by intros [= ->].
Qed.

Lemma last_bullet_not_cr c :
  c ≠ [] → trim c = c → last (js "- " ++ c) ≠ Some 13%N.
Proof.
  intros Hne Ht.
  destruct (trim_fixed_ends c Ht Hne) as (c0 & r0 & c' & -> & _ & Hl & Hc').
  rewrite last_app_nonempty, Hl by done. by intros [= ->].
Qed.

Lemma split_on_line sep a rest :
  Forall (λ c, c ≠ sep) a →
  split_on sep ((a ++ [sep]) ++ rest) = a :: split_on sep rest.
Proof. intros Ha. rewrite <- app_assoc. by apply split_on_app. Qed.

(** X16. [parseIndustryTemplate] reads back a template that is written
    out. For a text that is not JSON, made of the lines [Title: t],
    [Description: d], [Changes:] and one line [- c] per change, where
    [t] and [d] are trimmed and hold no line feed and every [c] is
    non-empty, trimmed and free of line terminators, the result is
    [{ title: t, description: d, changes: [c, ...] }]. *)
Theorem X16_template_round_trip (JSON_parse : list N → option json) d :
  field_ok (title d) → field_ok (description d) →
  Forall change_ok (changes d) →
  JSON_parse (templateText d) = None →
  parseIndustryTemplate JSON_parse (templateText d) = inr d.
Proof.
  intros [Ht Htn] [Hd Hdn] Hcs Hjson.
  unfold parseIndustryTemplate. rewrite Hjson. f_equal.
  unfold split_lines, templateText.
  rewrite (app_assoc (js "Title: ") (title d)),
    (app_assoc (js "Title: " ++ title d) [10%N]), split_on_line
    by (apply Forall_app; split; [ | done];
        repeat (apply List.Forall_cons; [done | ]); constructor).
  rewrite (app_assoc (js "Description: ") (description d)),
    (app_assoc (js "Description: " ++ description d) [10%N]), split_on_line
    by (apply Forall_app; split; [ | done];
        repeat (apply List.Forall_cons; [done | ]); constructor).
  rewrite split_bullets
    by (try done; repeat (apply List.Forall_cons; [done | ]); constructor).
  rewrite strip_crs_id.
  - cbn [foldl]. rewrite templateLine_title, templateLine_description by done.
    rewrite templateLine_changes, foldl_bullets by done.
    cbn [fst title description changes app]. by destruct d.
  - apply List.Forall_cons; [apply (last_not_cr 84%N (js "itle:")); done | ].
    apply List.Forall_cons;
      [apply (last_not_cr 68%N (js "escription:")); done | ].
    apply List.Forall_cons; [by vm_compute | ].
    apply Forall_fmap, Forall_forall. intros c Hc.
    rewrite Forall_forall in Hcs. destruct (Hcs c Hc) as (Hne & Hct & _).
    by apply last_bullet_not_cr.
Qed.

Lemma X16_template_round_trip_witness :
  parseIndustryTemplate parse_string_text (templateText template_sample)
  = inr template_sample.
Proof.
  apply (X16_template_round_trip parse_string_text template_sample).
  - split; [reflexivity | ].
    repeat (apply List.Forall_cons; [discriminate | ]). apply List.Forall_nil.
  - split; [reflexivity | ].
    repeat (apply List.Forall_cons; [discriminate | ]). apply List.Forall_nil.
  - repeat (apply List.Forall_cons;
              [split; [discriminate | split; reflexivity] | ]).
    apply List.Forall_nil.
  - reflexivity.
Defined.

(* ----------------------------------------------------------------- *)
(** ** What the lines leave in [data] *)

Lemma bullet_ok line m : trim line = line → bullet line = Some m → change_ok m.
Proof.
  intros Ht E. destruct line as [ | c rest]; [discriminate | ].
  destruct (trim_fixed_ends _ Ht ltac:(done)) as (? & ? & c' & _ & _ & Hl & Hc').
  cbn [bullet] in E. destruct ((c =? 45)%N || (c =? 42)%N); [ | discriminate].
  destruct (trimStart rest) as [ | b body] eqn:Eb.
  - destruct (last rest) as [w | ] eqn:Ew; [ | discriminate].
    destruct (is_line_terminator w) eqn:Elt; [discriminate | ].
    injection E as <-.
    assert (w = c') as ->.
    { apply last_Some in Ew as (r' & ->).
      rewrite app_comm_cons, last_snoc in Hl. by injection Hl. }
    split; [done | ]. split; [by apply (trim_id c' [] c') | ].
    simpl. by rewrite Elt.
  - destruct (forallb _ (b :: body)) eqn:Ec; [ | discriminate].
    injection E as <-. split; [done | ]. split; [ | done].
    apply (trim_id b body c'); [by eapply trimStart_head | | done].
    destruct (trimStart_suffix rest) as (w & Ew). rewrite Eb in Ew.
    rewrite Ew in Hl.
    change (c :: w ++ b :: body) with ((c :: w) ++ b :: body) in Hl.
    by rewrite last_app_nonempty in Hl.
Qed.

Lemma templateLine_fields st raw :
  (trim (title st.1) = title st.1 ∧
   trim (description st.1) = description st.1 ∧
   Forall change_ok (changes st.1)) →
  trim (title (templateLine st raw).1) = title (templateLine st raw).1 ∧
  trim (description (templateLine st raw).1)
  = description (templateLine st raw).1 ∧
  Forall change_ok (changes (templateLine st raw).1).
Proof.
  destruct st as [data sec]. intros (H1 & H2 & H3). cbn [fst] in *.
  destruct (trim raw) as [ | c r] eqn:E.
  { unfold templateLine. rewrite E. by cbn [fst]. }
  rewrite (templateLine_line data sec raw _ E) by done.
  destruct (after_header (js "title") _);
    [cbn [fst title description changes]; by rewrite trim_idem | ].
  destruct (after_header (js "description") _);
    [cbn [fst title description changes]; by rewrite trim_idem | ].
  destruct (after_header (js "changes") _); [done | ].
  destruct sec; [ | done].
  destruct (bullet (c :: r)) as [m | ] eqn:Em; [ | done].
  cbn [fst title description changes]. split; [done | split; [done | ]].
  apply Forall_app. split; [done | ]. apply List.Forall_cons; [ | constructor].
  apply (bullet_ok (c :: r)); [ | done]. rewrite <- E. apply trim_idem.
Qed.

(** X17. Whatever the text, when [parseIndustryTemplate] reads it as a
    template ([JSON.parse] threw), the title and the description of the
    result are trimmed, every entry of [changes] is non-empty, trimmed
    and free of line terminators, and there are at most as many changes
    as lines. *)
Theorem X17_template_fields (JSON_parse : list N → option json) text d :
  parseIndustryTemplate JSON_parse text = inr d →
  trim (title d) = title d ∧ trim (description d) = description d ∧
  Forall change_ok (changes d) ∧
  length (changes d) ≤ length (split_lines text).
Proof.
  unfold parseIndustryTemplate. destruct (JSON_parse text); [discriminate | ].
  intros [= <-].
  generalize (split_lines text). intros lines.
  assert (H : ∀ st,
            (trim (title st.1) = title st.1 ∧
             trim (description st.1) = description st.1 ∧
             Forall change_ok (changes st.1)) →
            let st' := foldl templateLine st lines in
            (trim (title st'.1) = title st'.1 ∧
             trim (description st'.1) = description st'.1 ∧
             Forall change_ok (changes st'.1)) ∧
            length (changes st'.1) ≤ length (changes st.1) + length lines).
  { induction lines as [ | raw lines IH]; intros st Hst; cbn [foldl].
    - split; [done | lia].
    - destruct (IH (templateLine st raw) (templateLine_fields st raw Hst))
        as [Hinv Hlen].
      split; [exact Hinv | ]. cbn zeta in Hlen. cbn [length].
      assert (length (changes (templateLine st raw).1)
              ≤ S (length (changes st.1))); [ | lia].
      destruct st as [data sec]. unfold templateLine.
      destruct (trim raw); [cbn; lia | ].
      destruct (after_header (js "title") _); [cbn; lia | ].
      destruct (after_header (js "description") _); [cbn; lia | ].
      destruct (after_header (js "changes") _); [cbn; lia | ].
      destruct sec; [ | cbn; lia].
      destruct (bullet _); cbn; [rewrite length_app; simpl | ]; lia. }
  destruct (H (TemplateData [] [] [], false)) as [(H1 & H2 & H3) H4].
  { cbn. repeat split; constructor. }
  simpl in H4. done.
Qed.

Lemma X17_template_fields_witness :
  trim (title template_sample) = title template_sample ∧
  trim (description template_sample) = description template_sample ∧
  Forall change_ok (changes template_sample) ∧
  length (changes template_sample)
  ≤ length (split_lines (templateText template_sample)).
Proof.
  apply (X17_template_fields parse_string_text (templateText template_sample)
           template_sample).
  vm_compute. reflexivity.
Defined.

(* ----------------------------------------------------------------- *)
(** ** Files with array values *)

Lemma isDelta_array_member ms k es : (k, JArr es) ∈ ms → isDelta (JObj ms) = true.
Proof.
  intros Hin. cbn [isDelta]. apply orb_true_iff. right.
  apply existsb_exists. exists (k, JArr es).
  split; [by apply list_elem_of_In | reflexivity].
Qed.

Lemma jmarker_single k v : k ≠ js "_t" → jmarker [(k, v)] = false.
Proof. intros Hk. unfold jmarker. cbn [jget]. by rewrite decide_False. Qed.

(** X18. A parsed object with a member whose value is an array is never
    handed on by [/api/template/upload]: whatever the file is meant to
    be, [isDelta] takes it for a delta and the answer is the table of
    additions. The file [{k: [v]}] is answered with the one row of [k]
    and the JSON text of [v], the file [{k: [v, w]}] with no row. *)
Theorem X18_array_member_is_delta (Number_toString : float → list N) fuel h :
  (∀ ms k es,
     (k, JArr es) ∈ ms → depth (JObj ms) < fuel →
     templateUpload Number_toString fuel h (JObj ms)
     = AddedEntries (treeAddedTable Number_toString (Some (JObj ms)))) ∧
  (∀ k v,
     k ≠ js "_t" → depth v + 2 < fuel →
     templateUpload Number_toString fuel h (JObj [(k, JArr [v])])
     = AddedEntries
         (Table (js "Added") [js "Path"; js "New Value"]
            [[VStr k; VStr (JSON_text Number_toString (norm v))]])) ∧
  (∀ k v w,
     k ≠ js "_t" → depth v + 2 < fuel → depth w + 2 < fuel →
     templateUpload Number_toString fuel h (JObj [(k, JArr [v; w])])
     = AddedEntries (Table (js "Added") [js "Path"; js "New Value"] [])).
Proof.
  assert (Hup : ∀ ms k es,
            (k, JArr es) ∈ ms → depth (JObj ms) < fuel →
            templateUpload Number_toString fuel h (JObj ms)
            = AddedEntries (treeAddedTable Number_toString (Some (JObj ms)))).
  { intros ms k es Hin Hd. unfold templateUpload.
    destruct (alloc_rep (JObj ms) h) as (e0 & v & -> & Hrep).
    rewrite (isDelta_array_member ms k es Hin). cbn [is_object_type andb negb].
    destruct (addedTable_rep Number_toString fuel (h ++ e0) (Some (JObj ms)) v)
      as (ext & E);
      [eapply rep_weaken; [exact Hrep | lia] | intros j [= <-]; exact Hd | lia | ].
    by rewrite E. }
  split; [exact Hup | split].
  - intros k v Hk Hd.
    rewrite (Hup _ k [v]); [ | by left | simpl; lia].
    unfold treeAddedTable, treeRows. rewrite treeWalk_obj.
    cbn [flat_map]. unfold treeEntry. cbn [fst snd].
    rewrite decide_False, jmarker_single by done.
    rewrite objectLeaf_shape. cbn [app List.filter fst snd map].
    rewrite bool_decide_eq_true_2 by done.
    unfold treeAddedRow, cell. cbn [map fst snd]. by rewrite norm_idem.
  - intros k v w Hk Hv Hw.
    rewrite (Hup _ k [v; w]); [ | by left | simpl; lia].
    unfold treeAddedTable, treeRows. rewrite treeWalk_obj.
    cbn [flat_map]. unfold treeEntry. cbn [fst snd].
    rewrite decide_False, jmarker_single by done.
    rewrite objectLeaf_shape. cbn [app List.filter fst snd map].
    by rewrite bool_decide_eq_false_2 by done.
Qed.

Lemma X18_array_member_is_delta_witness :
  templateUpload integer_toString 4 [] (JObj [(js "P31", JArr [JStr (js "Q5")])])
  = AddedEntries
      (Table (js "Added") [js "Path"; js "New Value"]
         [[VStr (js "P31");
           VStr (JSON_text integer_toString (norm (JStr (js "Q5"))))]]) ∧
  templateUpload integer_toString 4 []
    (JObj [(js "P31", JArr [JStr (js "Q5"); JStr (js "Q6")])])
  = AddedEntries (Table (js "Added") [js "Path"; js "New Value"] []).
Proof.
  destruct (X18_array_member_is_delta integer_toString 4 []) as (_ & H2 & H3).
  split.
  - apply (H2 (js "P31") (JStr (js "Q5"))); [discriminate | simpl; lia].
  - apply (H3 (js "P31") (JStr (js "Q5")) (JStr (js "Q6")));
      [discriminate | simpl; lia | simpl; lia].
Defined.
